(** * UFC Elo ranking: the outcome classifier, the rating engine and the
      peak extractor, embedded from the Python sources

    - [classify_methods.py]  : text normalisation, scorecard margins,
      scheduled rounds, [classify_row]
    - [elo_calculator/elo_update.py] : [outcome_scores], [logistic_prob], the [run_elo] loop
    - [compute_peak_elo.py]  : [build_long_from_history], [compute_peak]
    - [elo_calculator/load_and_prepare.py] : [normalize_name], [normalize_key],
      [split_bout], [parse_outcome_label], [parse_rounds_scheduled],
      [decision_type_from_method]; the table joins of
      [build_unified_fights] and the command lines are not embedded

    Conventions of the embedding.
    - A Python [str] is a list of Unicode code points ([list N]); [lit] turns
      an ASCII literal into one.  Whitespace is the exact set of [str.isspace]
      (which is also the class [\s] of [re] on [str] patterns).  [str.lower]
      is modelled on the letters A-Z and [\d] on the digits 0-9; case mappings
      and decimal digits outside ASCII are left out.  So is [str.upper],
      modelled on the letters a-z.  Some of the later statements ask for
      ASCII text, on which these functions are exactly Python's.
    - A cell of a data frame that may be missing (NaN / NaT) is an [option].
    - The loop of the engine computes with real numbers: its arithmetic is
      exact, the rounding of binary64 and the OverflowError of [10 ** x]
      are not represented.  The only arithmetic failure kept there is the
      division by a zero [scale] (ZeroDivisionError), which makes the loop
      return [None].  The statements about the loop are made for runs that
      complete, and are statements about exact arithmetic.
    - The arithmetic of a single bout is given a second time on binary64
      floats (primitive floats, rounding to nearest even), with the
      zero-exponent case of [float.__pow__] and the power function of the
      platform as a parameter; the statement about the concrete values of a
      single bout is made there.
    - [int] of a string of digits fails (ValueError) above 4300 digits, the
      default limit of the interpreter.
    - A run that rates no bout ends in the KeyError of sorting an empty
      snapshot frame: [run_elo] returns [None].
    - A [dict] whose iteration order is observed (the rating store) is an
      association list in insertion order; the other dictionaries are [gmap]s.
    - [DataFrame.sort_values] is an insertion sort that keeps the input order
      of rows with equal keys.  The sources ask for that explicitly
      ([kind="stable"]) except for the two single-column sorts by rating,
      which leave the kind to the library; there the order of rows with
      equal rating is the library's choice (input order on small frames),
      and the only statement below that depends on it is the two-row
      snapshot after a single draw. *)

From Stdlib Require Import Reals Lra Lia ZArith NArith List String Ascii Bool.
From Stdlib Require Import Permutation Sorted DecimalString.
From Stdlib Require DecimalPos.
From Corelib Require Import PrimFloat.
From stdpp Require Import gmap list lexico.
Import ListNotations.

#[local] Set Warnings "-inexact-float".

(* ===================================================================== *)
(** * Text *)
(* ===================================================================== *)

(** A Python string, as its code points. *)
Abbreviation str := (list N).

(** An ASCII literal as a Python string. *)
Definition lit (s : string) : str :=
  map N_of_ascii (list_ascii_of_string s).

(** [str.isspace] on one code point; also [\s] in [re]. *)
Definition is_space (c : N) : bool :=
  ((9 <=? c) && (c <=? 13) || (28 <=? c) && (c <=? 32)
   || (c =? 133) || (c =? 160) || (c =? 5760)
   || (8192 <=? c) && (c <=? 8202)
   || (c =? 8232) || (c =? 8233) || (c =? 8239) || (c =? 8287)
   || (c =? 12288))%N.

(** [\d], on the ASCII digits. *)
Definition is_digit (c : N) : bool := ((48 <=? c) && (c <=? 57))%N.

Fixpoint drop_while (p : N -> bool) (s : str) : str :=
  match s with
  | [] => []
  | c :: t => if p c then drop_while p t else s
  end.

Fixpoint take_while (p : N -> bool) (s : str) : str :=
  match s with
  | [] => []
  | c :: t => if p c then c :: take_while p t else []
  end.

Definition lstrip (s : str) : str := drop_while is_space s.

(** [rstrip]: an all-blank tail disappears, anything else stays. *)
Fixpoint rstrip (s : str) : str :=
  match s with
  | [] => []
  | c :: t =>
      match rstrip t with
      | [] => if is_space c then [] else [c]
      | t' => c :: t'
      end
  end.

(** [s.strip()] *)
Definition strip (s : str) : str := rstrip (lstrip s).

(** [SPACE_RE.sub(" ", s)] with [SPACE_RE = \s+]: every maximal run of
    whitespace becomes one space.  [in_ws] tells that the previous code point
    was whitespace, so that the run has already been replaced. *)
Fixpoint collapse_from (in_ws : bool) (s : str) : str :=
  match s with
  | [] => []
  | c :: t =>
      if is_space c
      then (if in_ws then collapse_from true t else 32%N :: collapse_from true t)
      else c :: collapse_from false t
  end.

Definition collapse (s : str) : str := collapse_from false s.

(** [normalize_text] of classify_methods.py; [None] is a missing cell
    ([pd.isna]). *)
Definition normalize_text (s : option str) : str :=
  match s with
  | None => []
  | Some s => collapse (strip s)
  end.

(** [norm] of elo_update.py and compute_peak_elo.py: the same function
    (the [str(s)] in it is the identity on a string). *)
Definition norm (s : option str) : str :=
  match s with
  | None => []
  | Some s => collapse (strip s)
  end.

Definition lower_char (c : N) : N :=
  if ((65 <=? c) && (c <=? 90))%N then (c + 32)%N else c.

(** [s.lower()] *)
Definition lower (s : str) : str := map lower_char s.

Definition str_eqb (a b : str) : bool := bool_decide (a = b).

Fixpoint starts_with (p s : str) : bool :=
  match p, s with
  | [], _ => true
  | _ :: _, [] => false
  | a :: p', b :: s' => (a =? b)%N && starts_with p' s'
  end.

(** [p in s] *)
Fixpoint contains (p s : str) : bool :=
  starts_with p s ||
  match s with
  | [] => false
  | _ :: t => contains p t
  end.

(** [s.replace(",", " ")] *)
Definition replace_commas (s : str) : str :=
  map (fun c => if (c =? 44)%N then 32%N else c) s.

(** The value of a run of digits. *)
Definition int_of_digits (s : str) : Z :=
  fold_left (fun acc c => (10 * acc + (Z.of_N c - 48))%Z) s 0%Z.

(** [int(s)] on a run of digits.  [None] is the ValueError that [int]
    raises on a numeral of more than 4300 digits
    ([sys.int_info.default_max_str_digits]); leading zeros count. *)
Definition py_int (s : str) : option Z :=
  if (4300 <? N.of_nat (length s))%N then None else Some (int_of_digits s).

(** [str(n)] for an integer. *)
Definition str_of_int (n : Z) : str :=
  lit (NilEmpty.string_of_int (Z.to_int n)).

(** [sep.join(parts)] *)
Fixpoint join (sep : str) (parts : list str) : str :=
  match parts with
  | [] => []
  | [p] => p
  | p :: rest => p ++ sep ++ join sep rest
  end.

(** Code-point order on strings, as Python compares them. *)
Definition str_ltb (a b : str) : bool := bool_decide (lexico a b).
Definition str_leb (a b : str) : bool := negb (str_ltb b a).

(* ===================================================================== *)
(** * classify_methods.py *)
(* ===================================================================== *)

Definition FINISH_TOKENS : list str :=
  map lit ["ko"; "tko"; "submission"; "sub"; "dq"; "disqualification";
           "doctor stoppage"; "retirement"]%string.

(** The dash of [SCORE_RE]: hyphen-minus or en dash (U+2013). *)
Definition is_dash (c : N) : bool := ((c =? 45) || (c =? 8211))%N.

(** One attempt of [SCORE_RE = (\d+)\s*[-–]\s*(\d+)] at the head of [s]:
    the two groups and the length of the match.  Every quantifier is greedy
    and what follows it starts with a code point outside its own class, so
    giving back part of a run never leads to a match: the attempt is
    deterministic. *)
Definition score_match (s : str) : option (str * str * nat) :=
  let a := take_while is_digit s in
  let r1 := drop_while is_digit s in
  let r2 := drop_while is_space r1 in
  match a, r2 with
  | _ :: _, d :: r3 =>
      if is_dash d then
        let r4 := drop_while is_space r3 in
        let b := take_while is_digit r4 in
        match b with
        | _ :: _ =>
            Some (a, b, (length s - length (drop_while is_digit r4))%nat)
        | [] => None
        end
      else None
  | _, _ => None
  end.

(** [SCORE_RE.findall(text)]: scan from the left; after a match the scan
    resumes behind it ([skip] counts the code points still inside the last
    match), otherwise one code point further. *)
Fixpoint findall_from (skip : nat) (s : str) : list (str * str) :=
  match s with
  | [] => []
  | _ :: t =>
      match skip with
      | S k => findall_from k t
      | O =>
          match score_match s with
          | Some (a, b, n) => (a, b) :: findall_from (pred n) t
          | None => findall_from 0 t
          end
      end
  end.

Definition score_findall (s : str) : list (str * str) := findall_from 0 s.

(** The body of the loop of [parse_scorecard_margins] on one pair: the
    margin, or nothing when [int] raises on one of the two numerals
    ([except Exception: continue]). *)
Definition pair_margin (ab : str * str) : list Z :=
  match py_int (fst ab), py_int (snd ab) with
  | Some a, Some b => [Z.abs (a - b)]
  | _, _ => []
  end.

(** [parse_scorecard_margins]: the absolute margin of every score pair
    that [int] can read. *)
Definition parse_scorecard_margins (details_text : option str) : list Z :=
  match details_text with
  | None => []
  | Some d =>
      match strip d with
      | [] => []
      | _ :: _ => flat_map pair_margin (score_findall (replace_commas d))
      end
  end.

Definition any_token_in (m : str) : bool :=
  existsb (fun tok => contains tok m) FINISH_TOKENS.

Definition method_is_finish (method : option str) : bool :=
  any_token_in (lower (normalize_text method)).

Definition method_is_decision (method : option str) : bool :=
  contains (lit "decision") (lower (normalize_text method)).

Inductive decision_type := Split | Majority | Unanimous | Generic.

Definition method_decision_type (method : option str) : decision_type :=
  let m := lower (normalize_text method) in
  if contains (lit "split") m then Split
  else if contains (lit "majority") m then Majority
  else if contains (lit "unanimous") m then Unanimous
  else Generic.

(** The closed set of category tags ([method_class]). *)
Inductive method_class :=
  | finish | decision_dominant | decision_normal | draw | nc | other.

(** The basis tags ([decision_basis]); [method_split] and [method_majority]
    are the two values of [f"method_{d_type}"]. *)
Inductive basis :=
  | outcome_draw | outcome_nc | method_finish
  | method_split | method_majority
  | details_any_margin_ge_3 | details_two_cards_ge_2 | details_small_margins
  | method_unanimous_no_details | method_generic_decision
  | method_finish_fallback | unknown_method.

(** The cells of a row that [classify_row] reads.  [rounds_scheduled] and
    [TIME FORMAT] are read by the source too, but nothing returned depends
    on them. *)
Record bout := {
  b_winner_label : option str;
  b_METHOD : option str;
  b_DETAILS : option str
}.

Section Classifier.
(** The type of the multipliers: [classify_row] only passes them on. *)
Context {M : Type}.
Variables m_finish m_dom m_dec : M.

Definition classify_row (row : bout)
  : method_class * M * basis * str :=
  let outcome := normalize_text (b_winner_label row) in
  let method := normalize_text (b_METHOD row) in
  let details := normalize_text (b_DETAILS row) in
  if str_eqb (lower outcome) (lit "draw") then (draw, m_dec, outcome_draw, [])
  else if str_eqb (lower outcome) (lit "nc") then (nc, m_dec, outcome_nc, [])
  else if method_is_finish (Some method) && negb (method_is_decision (Some method))
  then (finish, m_finish, method_finish, [])
  else if method_is_decision (Some method) then
    let d_type := method_decision_type (Some method) in
    match d_type with
    | Split => (decision_normal, m_dec, method_split, [])
    | Majority => (decision_normal, m_dec, method_majority, [])
    | _ =>
        let margins := parse_scorecard_margins (Some details) in
        let margins_str := join (lit ",") (map str_of_int margins) in
        match margins with
        | _ :: _ =>
            if existsb (fun m => (3 <=? m)%Z) margins
            then (decision_dominant, m_dom, details_any_margin_ge_3, margins_str)
            else if (2 <=? length (filter (fun m => (2 <= m)%Z) margins))%nat
            then (decision_dominant, m_dom, details_two_cards_ge_2, margins_str)
            else (decision_normal, m_dec, details_small_margins, margins_str)
        | [] =>
            match d_type with
            | Unanimous =>
                (decision_dominant, m_dom, method_unanimous_no_details, [])
            | _ => (decision_normal, m_dec, method_generic_decision, [])
            end
        end
    end
  else if any_token_in (lower method)
  then (finish, m_finish, method_finish_fallback, [])
  else (other, m_dec, unknown_method, []).
End Classifier.

(* ===================================================================== *)
(** * elo_calculator/elo_update.py *)
(* ===================================================================== *)

#[global] Instance Rle_decision (x y : R) : Decision (x <= y)%R := Rle_dec x y.
#[global] Instance Rlt_decision (x y : R) : Decision (x < y)%R := Rlt_dec x y.
#[global] Instance Req_decision : EqDecision R := Req_dec_T.

(** [key_from_name] *)
Definition key_from_name (name : option str) : str := lower (norm name).

(** [logistic_prob]; [None] is the ZeroDivisionError of [/ scale]. *)
Definition logistic_prob (ra rb scale : R) : option R :=
  if decide (scale = 0%R) then None
  else Some (1 / (1 + Rpower 10 ((rb - ra) / scale)))%R.

Record EloConfig := {
  base_rating : R;
  K : R;
  scale : R
}.

Definition default_config : EloConfig :=
  {| base_rating := 1500; K := 24; scale := 350 |}.

(** One row of the classified table, as [run_elo] reads it.  A missing
    column and a missing cell both read as [None]. [method_multiplier] is
    [None] for a cell that [float] rejects or that is not finite. *)
Record row := {
  DATE : option Z;
  EVENT : option str;
  BOUT : option str;
  fighter_a_name : option str;
  fighter_b_name : option str;
  fighter_a_url : option str;
  fighter_b_url : option str;
  winner_label : option str;
  method_class_col : option str;
  method_multiplier : option R;
  rounds_scheduled : option Z;
  WEIGHTCLASS : option str;
  METHOD : option str;
  REFEREE : option str;
  URL : option str
}.

Inductive side := side_a | side_b.

(** [choose_fighter_id]: the URL when there is one, else the lowercase name. *)
Definition choose_fighter_id (r : row) (s : side) : str * str :=
  let '(url_col, name_col) :=
    match s with
    | side_a => (fighter_a_url r, fighter_a_name r)
    | side_b => (fighter_b_url r, fighter_b_name r)
    end in
  let name := norm name_col in
  let url := norm url_col in
  let fid := match url with [] => key_from_name (Some name) | _ :: _ => url end in
  (fid, name).

(** [str(x)] of a cell: a missing one prints as [nan]. *)
Definition py_str (c : option str) : str :=
  match c with
  | Some s => s
  | None => lit "nan"
  end.

(** [outcome_scores]: the scores of A and B, [None] for a bout that is not
    rated. *)
Definition outcome_scores (winner_label : str) : option (R * R) :=
  let w := lower (strip winner_label) in
  if str_eqb w (lit "a") then Some (1, 0)%R
  else if str_eqb w (lit "b") then Some (0, 1)%R
  else if str_eqb w (lit "draw") then Some (0.5, 0.5)%R
  else None.

(** One record of the audit ledger ([history_rows]). *)
Record audit := {
  h_DATE : option Z;
  h_EVENT : str;
  h_BOUT : str;
  fighter_a_id : str;
  fighter_b_id : str;
  h_fighter_a_name : str;
  h_fighter_b_name : str;
  pre_rating_a : R;
  pre_rating_b : R;
  p_A_win : R;
  h_winner_label : str;
  h_method_class : str;
  h_method_multiplier : R;
  K_eff : R;
  h_rounds_scheduled : option Z;
  h_WEIGHTCLASS : str;
  h_METHOD : str;
  h_REFEREE : str;
  h_URL : str;
  post_rating_a : R;
  post_rating_b : R
}.

(** The rating store [ratings = defaultdict(lambda: base_rating)], in
    insertion order. *)
Fixpoint rating_lookup (fid : str) (rs : list (str * R)) : option R :=
  match rs with
  | [] => None
  | (k, v) :: t => if decide (k = fid) then Some v else rating_lookup fid t
  end.

(** [ratings[fid]] as an expression: a missing key is inserted at the base
    rating, behind the others. *)
Definition rating_read (base : R) (fid : str) (rs : list (str * R))
  : R * list (str * R) :=
  match rating_lookup fid rs with
  | Some v => (v, rs)
  | None => (base, rs ++ [(fid, base)])
  end.

(** [ratings[fid] = v]: an existing key keeps its place. *)
Fixpoint rating_assign (fid : str) (v : R) (rs : list (str * R))
  : list (str * R) :=
  match rs with
  | [] => [(fid, v)]
  | (k, x) :: t =>
      if decide (k = fid) then (k, v) :: t else (k, x) :: rating_assign fid v t
  end.

(** [ct[fid] += 1] on a [defaultdict(int)]. *)
Definition incr (fid : str) (ct : gmap str nat) : gmap str nat :=
  <[fid := S (default O (ct !! fid))]> ct.

(** [ct.get(fid, 0)] *)
Definition count (ct : gmap str nat) (fid : str) : nat := default O (ct !! fid).

(** The update of [first_date[fid]]: the first date seen, then any known
    date that is earlier (or known where the stored one is not). *)
Definition update_first (d : option Z) (fid : str) (fd : gmap str (option Z))
  : gmap str (option Z) :=
  match fd !! fid with
  | None => <[fid := d]> fd
  | Some old =>
      match d, old with
      | Some dv, None => <[fid := d]> fd
      | Some dv, Some ov => if (dv <? ov)%Z then <[fid := d]> fd else fd
      | None, _ => fd
      end
  end.

Definition update_last (d : option Z) (fid : str) (ld : gmap str (option Z))
  : gmap str (option Z) :=
  match ld !! fid with
  | None => <[fid := d]> ld
  | Some old =>
      match d, old with
      | Some dv, None => <[fid := d]> ld
      | Some dv, Some ov => if (ov <? dv)%Z then <[fid := d]> ld else ld
      | None, _ => ld
      end
  end.

(** The variables of the loop of [run_elo]. *)
Record state := {
  ratings : list (str * R);
  names : gmap str str;
  fights_ct : gmap str nat;
  wins_ct : gmap str nat;
  losses_ct : gmap str nat;
  draws_ct : gmap str nat;
  first_date : gmap str (option Z);
  last_date : gmap str (option Z);
  history_rows : list audit
}.

Definition init_state : state :=
  {| ratings := []; names := ∅; fights_ct := ∅; wins_ct := ∅; losses_ct := ∅;
     draws_ct := ∅; first_date := ∅; last_date := ∅; history_rows := [] |}.

(** [x or y] on strings. *)
Definition str_or (x y : str) : str :=
  match x with [] => y | _ :: _ => x end.

(** The rating arithmetic of one bout: [(p_a, k_eff, ra_new, rb_new)]. *)
Definition elo_update (cfg : EloConfig) (ra rb s_a s_b m : R)
  : option (R * R * R * R) :=
  match logistic_prob ra rb (scale cfg) with
  | None => None
  | Some p_a =>
      let k_eff := (K cfg * m)%R in
      let ra_new := (ra + k_eff * (s_a - p_a))%R in
      let rb_new := (rb + k_eff * (s_b - (1 - p_a)))%R in
      Some (p_a, k_eff, ra_new, rb_new)
  end.

(** The body of the loop of [run_elo] on one row. *)
Definition step (cfg : EloConfig) (st : state) (r : row) : option state :=
  match outcome_scores (py_str (winner_label r)) with
  | None => Some st
  | Some (s_a, s_b) =>
      let '(fid_a, name_a) := choose_fighter_id r side_a in
      let '(fid_b, name_b) := choose_fighter_id r side_b in
      let names' :=
        <[fid_b := str_or name_b fid_b]> (<[fid_a := str_or name_a fid_a]> (names st)) in
      let '(ra, rs1) := rating_read (base_rating cfg) fid_a (ratings st) in
      let '(rb, rs2) := rating_read (base_rating cfg) fid_b rs1 in
      let m := default 1%R (method_multiplier r) in
      match elo_update cfg ra rb s_a s_b m with
      | None => None
      | Some (p_a, k_eff, ra_new, rb_new) =>
          let rs3 := rating_assign fid_b rb_new (rating_assign fid_a ra_new rs2) in
          let fights' := incr fid_b (incr fid_a (fights_ct st)) in
          let '(wins', losses', draws') :=
            if decide (s_a = 1%R)
            then (incr fid_a (wins_ct st), incr fid_b (losses_ct st), draws_ct st)
            else if decide (s_b = 1%R)
            then (incr fid_b (wins_ct st), incr fid_a (losses_ct st), draws_ct st)
            else (wins_ct st, losses_ct st, incr fid_b (incr fid_a (draws_ct st))) in
          let d := DATE r in
          let first' :=
            update_first d fid_b (update_first d fid_a (first_date st)) in
          let last' :=
            update_last d fid_b (update_last d fid_a (last_date st)) in
          let rec :=
            {| h_DATE := d;
               h_EVENT := norm (EVENT r);
               h_BOUT := norm (BOUT r);
               fighter_a_id := fid_a;
               fighter_b_id := fid_b;
               h_fighter_a_name := default [] (names' !! fid_a);
               h_fighter_b_name := default [] (names' !! fid_b);
               pre_rating_a := ra;
               pre_rating_b := rb;
               p_A_win := p_a;
               h_winner_label := lower (strip (py_str (winner_label r)));
               h_method_class := norm (method_class_col r);
               h_method_multiplier := m;
               K_eff := k_eff;
               h_rounds_scheduled := rounds_scheduled r;
               h_WEIGHTCLASS := norm (WEIGHTCLASS r);
               h_METHOD := norm (METHOD r);
               h_REFEREE := norm (REFEREE r);
               h_URL := norm (URL r);
               post_rating_a := ra_new;
               post_rating_b := rb_new |} in
          Some {| ratings := rs3;
                  names := names';
                  fights_ct := fights';
                  wins_ct := wins';
                  losses_ct := losses';
                  draws_ct := draws';
                  first_date := first';
                  last_date := last';
                  history_rows := history_rows st ++ [rec] |}
      end
  end.

(** The loop: the rows in the given order, from the state [st]. *)
Fixpoint process (cfg : EloConfig) (st : state) (rows : list row)
  : option state :=
  match rows with
  | [] => Some st
  | r :: rest =>
      match step cfg st r with
      | None => None
      | Some st' => process cfg st' rest
      end
  end.

(** ** The arithmetic of one bout in binary64

    The loop above computes with real numbers.  The same arithmetic on
    binary64 floats, as the interpreter performs it, for the statements
    that depend on rounding. *)

(** [x / y] on floats; [None] is the ZeroDivisionError of a zero divisor. *)
Definition float_truediv (x y : float) : option float :=
  if (y =? 0)%float then None else Some (x / y)%float.

Section Binary64.

(** The power function of the C library, as [float.__pow__] calls it once
    its own special cases are settled; [None] is the range error that
    Python turns into OverflowError. *)
Variable libm_pow : float -> float -> option float.

(** [v ** w] on floats ([float_pow] of CPython): a zero exponent gives 1.0
    whatever the base, before the library is asked. *)
Definition float_pow (v w : float) : option float :=
  if (w =? 0)%float then Some 1%float else libm_pow v w.

(** [logistic_prob] in binary64. *)
Definition logistic_prob_b64 (ra rb scale : float) : option float :=
  match float_truediv (rb - ra) scale with
  | None => None
  | Some x =>
      match float_pow 10 x with
      | None => None
      | Some p => float_truediv 1 (1 + p)
      end
  end.

(** The rating arithmetic of one bout in binary64:
    [(p_a, k_eff, ra_new, rb_new)]. *)
Definition elo_update_b64 (K scale ra rb s_a s_b m : float)
  : option (float * float * float * float) :=
  match logistic_prob_b64 ra rb scale with
  | None => None
  | Some p_a =>
      let k_eff := (K * m)%float in
      let ra_new := (ra + k_eff * (s_a - p_a))%float in
      let rb_new := (rb + k_eff * (s_b - (1 - p_a)))%float in
      Some (p_a, k_eff, ra_new, rb_new)
  end.

End Binary64.

(** ** Sorting *)

Section Sort.
Context {A : Type}.
Variable leb : A -> A -> bool.

Fixpoint insert_by (x : A) (l : list A) : list A :=
  match l with
  | [] => [x]
  | y :: t => if leb x y then x :: y :: t else y :: insert_by x t
  end.

(** A stable sort: among rows the order does not separate, the earlier
    stays in front. *)
Fixpoint sort_by (l : list A) : list A :=
  match l with
  | [] => []
  | x :: t => insert_by x (sort_by t)
  end.
End Sort.

Definition str_compare (a b : str) : comparison :=
  if str_ltb a b then Lt else if str_ltb b a then Gt else Eq.

(** Missing values sort last ([na_position="last"]). *)
Definition compare_na {A : Type} (cmp : A -> A -> comparison)
    (a b : option A) : comparison :=
  match a, b with
  | Some x, Some y => cmp x y
  | Some _, None => Lt
  | None, Some _ => Gt
  | None, None => Eq
  end.

Definition then_compare (c : comparison) (d : comparison) : comparison :=
  match c with Eq => d | _ => c end.

(** The order of [sort_values(["DATE","EVENT","BOUT"])]. *)
Definition row_leb (r1 r2 : row) : bool :=
  match then_compare (compare_na Z.compare (DATE r1) (DATE r2))
         (then_compare (compare_na str_compare (EVENT r1) (EVENT r2))
                       (compare_na str_compare (BOUT r1) (BOUT r2))) with
  | Gt => false
  | _ => true
  end.

(** ** The snapshot *)

Record rating_row := {
  s_fighter_id : str;
  s_fighter_name : str;
  s_rating : R;
  s_fights : nat;
  s_wins : nat;
  s_losses : nat;
  s_draws : nat;
  s_first_date : option Z;
  s_last_date : option Z
}.

Definition snapshot_row (st : state) (kv : str * R) : rating_row :=
  let fid := fst kv in
  {| s_fighter_id := fid;
     s_fighter_name := default fid (names st !! fid);
     s_rating := snd kv;
     s_fights := count (fights_ct st) fid;
     s_wins := count (wins_ct st) fid;
     s_losses := count (losses_ct st) fid;
     s_draws := count (draws_ct st) fid;
     s_first_date := default None (first_date st !! fid);
     s_last_date := default None (last_date st !! fid) |}.

(** [sort_values("rating", ascending=False)]: the rating is the only sort
    key. *)
Definition rating_desc (x y : rating_row) : bool :=
  bool_decide (s_rating y <= s_rating x)%R.

Definition snapshot (st : state) : list rating_row :=
  sort_by rating_desc (map (snapshot_row st) (ratings st)).

(** [run_elo] without its file input and output: the ledger and the
    snapshot of the rows, sorted first.  [None] when the run stops on an
    exception: in the loop, or after it when no row was rated, where the
    store is empty and [sort_values("rating")] raises KeyError on a frame
    without columns. *)
Definition run_elo (cfg : EloConfig) (rows : list row)
  : option (list audit * list rating_row) :=
  match process cfg init_state (sort_by row_leb rows) with
  | None => None
  | Some st =>
      match ratings st with
      | [] => None
      | _ :: _ => Some (history_rows st, snapshot st)
      end
  end.

(* ===================================================================== *)
(** * compute_peak_elo.py *)
(* ===================================================================== *)

(** A row of the long table: one per competitor and bout.  The ledger is
    the one the engine produced, so every rating in it is a number and
    [pd.to_numeric] changes nothing. *)
Record long_row := {
  l_DATE : option Z;
  l_EVENT : str;
  l_BOUT : str;
  l_fighter_id : str;
  l_fighter_name : str;
  l_pre_rating : R;
  l_post_rating : R
}.

Definition long_of (d : option Z) (ev bt : str) (fid name : str) (pre post : R)
  : long_row :=
  let fid' := norm (Some fid) in
  {| l_DATE := d; l_EVENT := ev; l_BOUT := bt;
     l_fighter_id := fid';
     l_fighter_name := str_or (norm (Some name)) fid';
     l_pre_rating := pre; l_post_rating := post |}.

(** [build_long_from_history]: the A sides, then the B sides. *)
Definition build_long_from_history (hist : list audit) : list long_row :=
  map (fun h => long_of (h_DATE h) (h_EVENT h) (h_BOUT h)
                  (fighter_a_id h) (h_fighter_a_name h)
                  (pre_rating_a h) (post_rating_a h)) hist
  ++
  map (fun h => long_of (h_DATE h) (h_EVENT h) (h_BOUT h)
                  (fighter_b_id h) (h_fighter_b_name h)
                  (pre_rating_b h) (post_rating_b h)) hist.

(** The order of [sort_values(by=["fighter_id","post_rating","DATE"],
    ascending=[True, False, True])]. *)
Definition long_leb (x y : long_row) : bool :=
  match str_compare (l_fighter_id x) (l_fighter_id y) with
  | Lt => true
  | Gt => false
  | Eq =>
      if decide (l_post_rating y < l_post_rating x)%R then true
      else if decide (l_post_rating x < l_post_rating y)%R then false
      else match compare_na Z.compare (l_DATE x) (l_DATE y) with
           | Gt => false
           | _ => true
           end
  end.

(** [drop_duplicates(subset=["fighter_id"], keep="first")] *)
Fixpoint drop_duplicates (seen : gset str) (l : list long_row) : list long_row :=
  match l with
  | [] => []
  | x :: t =>
      if decide (l_fighter_id x ∈ seen) then drop_duplicates seen t
      else x :: drop_duplicates ({[ l_fighter_id x ]} ∪ seen) t
  end.

Record peak_row := {
  k_fighter_id : str;
  k_fighter_name : str;
  peak_rating : R;
  peak_date : option Z;
  peak_event : str;
  peak_bout : str
}.

Definition peak_of (x : long_row) : peak_row :=
  {| k_fighter_id := l_fighter_id x;
     k_fighter_name := l_fighter_name x;
     peak_rating := l_post_rating x;
     peak_date := l_DATE x;
     peak_event := l_EVENT x;
     peak_bout := l_BOUT x |}.

(** [sort_values("peak_rating", ascending=False)] *)
Definition peak_desc (x y : peak_row) : bool :=
  bool_decide (peak_rating y <= peak_rating x)%R.

Definition compute_peak (long_df : list long_row) : list peak_row :=
  let sort_df := sort_by long_leb long_df in
  let peak := map peak_of (drop_duplicates ∅ sort_df) in
  sort_by peak_desc peak.

(* ===================================================================== *)
(** * Specification predicates *)
(* ===================================================================== *)

(** Every whitespace run of [s] is one space; [prev_ws] tells that the code
    point before [s] was whitespace. *)
Fixpoint single_spaced (prev_ws : bool) (s : str) : bool :=
  match s with
  | [] => true
  | c :: t =>
      if is_space c
      then (c =? 32)%N && negb prev_ws && single_spaced true t
      else single_spaced false t
  end.

(** [s] does not start with whitespace. *)
Definition head_clean (s : str) : Prop :=
  match s with
  | [] => True
  | c :: _ => is_space c = false
  end.

(** The basis tag of a classification. *)
Definition basis_of {M : Type} (res : method_class * M * basis * str) : basis :=
  snd (fst res).

(** The keys of the store after [ratings[fid]] has been read. *)
Definition touch (fid : str) (keys : list str) : list str :=
  if decide (fid ∈ keys) then keys else keys ++ [fid].

(** The stored rating of a competitor; one never seen is at the base
    rating. *)
Definition rating_of (cfg : EloConfig) (st : state) (fid : str) : R :=
  default (base_rating cfg) (rating_lookup fid (ratings st)).

(** The identifier of the competitor on one side of a row. *)
Definition fid_of (r : row) (s : side) : str := fst (choose_fighter_id r s).

(** The row takes part in the rating: its outcome is A, B or draw. *)
Definition rated (r : row) : Prop :=
  outcome_scores (py_str (winner_label r)) <> None.

(** A row with a date, two named competitors, an outcome label and a
    multiplier; the other cells are missing. *)
Definition bout_row (d : Z) (a b w : string) (m : R) : row :=
  {| DATE := Some d; EVENT := Some (lit "UFC 1");
     BOUT := Some (lit (a ++ " vs. " ++ b));
     fighter_a_name := Some (lit a); fighter_b_name := Some (lit b);
     fighter_a_url := None; fighter_b_url := None;
     winner_label := Some (lit w); method_class_col := None;
     method_multiplier := Some m; rounds_scheduled := Some 3%Z;
     WEIGHTCLASS := None; METHOD := None; REFEREE := None; URL := None |}.

(** A wins by a finish, multiplier 1.20. *)
Definition ko_row : row := bout_row 1 "A" "B" "A" 1.2.

(** A draw between two new competitors. *)
Definition zed_amy_draw : row := bout_row 1 "Zed" "Amy" "draw" 1.

(** The competitors that a list of rows brings into the rating store. *)
Definition seen (rows : list row) (fid : str) : Prop :=
  exists r, In r rows /\ rated r
            /\ (fid = fid_of r side_a \/ fid = fid_of r side_b).

(** Rows with equal rating come in the order of their competitor keys. *)
Definition ties_by_key (snap : list rating_row) : Prop :=
  forall i j x y,
    (i < j)%nat -> snap !! i = Some x -> snap !! j = Some y ->
    s_rating x = s_rating y ->
    str_leb (s_fighter_id x) (s_fighter_id y) = true.

(** What a bout adds to a counter of the competitor [fid] for its side
    held by [x]: one when [x] is that competitor, nothing otherwise. *)
Definition hit (x fid : str) : nat := if decide (x = fid) then 1%nat else 0%nat.

(** The fight count of every competitor is the sum of the three others. *)
Definition counts_agree (st : state) : Prop :=
  forall fid,
    count (fights_ct st) fid =
    (count (wins_ct st) fid + count (losses_ct st) fid
     + count (draws_ct st) fid)%nat.

(** The same bout as [ko_row], one day later. *)
Definition ko_rematch : row := bout_row 2 "A" "B" "A" 1.2.

(** A draw between the competitors of [ko_row], one day later. *)
Definition draw_rematch : row := bout_row 2 "A" "B" "draw" 1.

(** The two rows have a competitor in common. *)
Definition overlapping (r1 r2 : row) : Prop :=
  exists s1 s2, fid_of r1 s1 = fid_of r2 s2.

(** From an empty store the two orders of the rows [r1] and [r2] leave some
    competitor with different ratings. *)
Definition order_sensitive (cfg : EloConfig) (r1 r2 : row) : Prop :=
  exists st12 st21 fid,
    process cfg init_state [r1; r2] = Some st12
    /\ process cfg init_state [r2; r1] = Some st21
    /\ rating_of cfg st12 fid <> rating_of cfg st21 fid.

(** The expected score of A when B is rated [d] above A. *)
Definition expected (sc d : R) : R := (1 / (1 + Rpower 10 (d / sc)))%R.

(** In the row [r] the competitor [x] meets [y] and scores [s]. *)
Definition plays (r : row) (x y : str) (s : R) : Prop :=
  exists s' : R,
    (outcome_scores (py_str (winner_label r)) = Some (s, s')
     /\ fid_of r side_a = x /\ fid_of r side_b = y)
    \/ (outcome_scores (py_str (winner_label r)) = Some (s', s)
        /\ fid_of r side_a = y /\ fid_of r side_b = x).

(** The two rows are bouts between the same two competitors. *)
Definition same_pair (r1 r2 : row) : Prop :=
  exists x y s1 s2, plays r1 x y s1 /\ plays r2 x y s2.

(** The two rows are bouts between the same two competitors, with the same
    result for each of them and the same multiplier. *)
Definition same_match (r1 r2 : row) : Prop :=
  default 1%R (method_multiplier r1) = default 1%R (method_multiplier r2)
  /\ exists x y s, plays r1 x y s /\ plays r2 x y s.

(** The row is a draw between two competitors that the store [st] rates
    equally. *)
Definition level_draw (cfg : EloConfig) (st : state) (r : row) : Prop :=
  outcome_scores (py_str (winner_label r)) = Some (0.5, 0.5)%R
  /\ rating_of cfg st (fid_of r side_a) = rating_of cfg st (fid_of r side_b).

(** What the bout [r], in which [x] scores [s] against [y], adds to the
    rating of [x] and takes from the rating of [y]. *)
Definition gain (cfg : EloConfig) (st : state) (r : row) (x y : str) (s : R)
  : R :=
  (K cfg * default 1%R (method_multiplier r)
   * (s - expected (scale cfg) (rating_of cfg st y - rating_of cfg st x)))%R.

(** The expected score as a curve in the lead [t] of a competitor, with
    [c = ln 10 / scale], and its slope. *)
Definition logistic_curve (c t : R) : R := (1 / (1 + exp (- (c * t))))%R.

Definition logistic_slope (c t : R) : R :=
  (c * exp (- (c * t)) / Rsqr (1 + exp (- (c * t))))%R.

(** A beats C by a finish, one day after [ko_row]. *)
Definition ko_other : row := bout_row 2 "A" "C" "A" 1.2.

(** Dates in the order of the sort: a missing date comes last. *)
Definition date_le (a b : option Z) : Prop :=
  match a, b with
  | Some x, Some y => (x <= y)%Z
  | _, None => True
  | None, Some _ => False
  end.

(** The order of [long_leb], as a proposition. *)
Definition long_le (x y : long_row) : Prop :=
  lexico (l_fighter_id x) (l_fighter_id y)
  \/ (l_fighter_id x = l_fighter_id y
      /\ ((l_post_rating y < l_post_rating x)%R
          \/ (l_post_rating x = l_post_rating y
              /\ date_le (l_DATE x) (l_DATE y)))).

(** The ledger attributes the post-update rating [post] to the competitor
    [fid], in the bout of date [d], event [ev] and label [bt]. *)
Definition entry (hist : list audit) (fid : str)
    (d : option Z) (ev bt : str) (post : R) : Prop :=
  exists h,
    In h hist /\ h_DATE h = d /\ h_EVENT h = ev /\ h_BOUT h = bt
    /\ ((norm (Some (fighter_a_id h)) = fid /\ post_rating_a h = post)
        \/ (norm (Some (fighter_b_id h)) = fid /\ post_rating_b h = post)).

(** A ledger record with the cells the peak extractor reads. *)
Definition ledger_row (d : Z) (a b : string) (pre_a pre_b post_a post_b : R)
  : audit :=
  {| h_DATE := Some d; h_EVENT := lit "UFC 1"; h_BOUT := lit (a ++ " vs. " ++ b);
     fighter_a_id := lit a; fighter_b_id := lit b;
     h_fighter_a_name := lit a; h_fighter_b_name := lit b;
     pre_rating_a := pre_a; pre_rating_b := pre_b; p_A_win := 0.5;
     h_winner_label := lit "a"; h_method_class := lit "finish";
     h_method_multiplier := 1.2; K_eff := 28.8;
     h_rounds_scheduled := Some 3%Z; h_WEIGHTCLASS := []; h_METHOD := [];
     h_REFEREE := []; h_URL := [];
     post_rating_a := post_a; post_rating_b := post_b |}.

(** A unanimous decision with one wide card. *)
Definition unanimous_wide : bout :=
  {| b_winner_label := Some (lit "A");
     b_METHOD := Some (lit "Decision - Unanimous");
     b_DETAILS := Some (lit "47 - 48,49 - 46,47 - 48") |}.

(** A split decision with three wide cards. *)
Definition split_wide : bout :=
  {| b_winner_label := Some (lit "B");
     b_METHOD := Some (lit "Decision - Split");
     b_DETAILS := Some (lit "50 - 45. 45 - 50. 50 - 45.") |}.

(** A no-contest. *)
Definition nc_row : row := bout_row 1 "A" "B" " NC " 1.

(** A ledger of two bouts between "a" and "b". *)
Definition two_bout_ledger : list audit :=
  [ledger_row 1 "a" "b" 1500 1500 1514.4 1485.6;
   ledger_row 2 "a" "b" 1514.4 1485.6 1500 1500].

(* ===================================================================== *)
(** * Further notions: the loop and its ledger *)
(* ===================================================================== *)

(** The row is rated, as a test. *)
Definition is_rated (r : row) : bool :=
  match outcome_scores (py_str (winner_label r)) with
  | Some _ => true
  | None => false
  end.

(** The display name of the competitor on one side of a row. *)
Definition name_of (r : row) (s : side) : str := snd (choose_fighter_id r s).

(** The names dictionary after a rated row. *)
Definition names_after (st : state) (r : row) : gmap str str :=
  <[fid_of r side_b := str_or (name_of r side_b) (fid_of r side_b)]>
    (<[fid_of r side_a := str_or (name_of r side_a) (fid_of r side_a)]>
       (names st)).

(** The audit record of a rated row with scores [s_a] and [s_b], read off
    the state before it. *)
Definition audit_of (cfg : EloConfig) (st : state) (r : row) (s_a s_b : R)
  : audit :=
  let fa := fid_of r side_a in
  let fb := fid_of r side_b in
  let ra := rating_of cfg st fa in
  let rb := rating_of cfg st fb in
  let m := default 1%R (method_multiplier r) in
  let p_a := (1 / (1 + Rpower 10 ((rb - ra) / scale cfg)))%R in
  {| h_DATE := DATE r;
     h_EVENT := norm (EVENT r);
     h_BOUT := norm (BOUT r);
     fighter_a_id := fa;
     fighter_b_id := fb;
     h_fighter_a_name := default [] (names_after st r !! fa);
     h_fighter_b_name := default [] (names_after st r !! fb);
     pre_rating_a := ra;
     pre_rating_b := rb;
     p_A_win := p_a;
     h_winner_label := lower (strip (py_str (winner_label r)));
     h_method_class := norm (method_class_col r);
     h_method_multiplier := m;
     K_eff := (K cfg * m)%R;
     h_rounds_scheduled := rounds_scheduled r;
     h_WEIGHTCLASS := norm (WEIGHTCLASS r);
     h_METHOD := norm (METHOD r);
     h_REFEREE := norm (REFEREE r);
     h_URL := norm (URL r);
     post_rating_a := (ra + K cfg * m * (s_a - p_a))%R;
     post_rating_b := (rb + K cfg * m * (s_b - (1 - p_a)))%R |}.

(** The state after a rated row with scores [s_a] and [s_b]. *)
Definition rated_step (cfg : EloConfig) (st : state) (r : row) (s_a s_b : R)
  : state :=
  let fa := fid_of r side_a in
  let fb := fid_of r side_b in
  let rec := audit_of cfg st r s_a s_b in
  {| ratings :=
       rating_assign fb (post_rating_b rec)
         (rating_assign fa (post_rating_a rec)
            (snd (rating_read (base_rating cfg) fb
                    (snd (rating_read (base_rating cfg) fa (ratings st))))));
     names := names_after st r;
     fights_ct := incr fb (incr fa (fights_ct st));
     wins_ct :=
       if decide (s_a = 1%R) then incr fa (wins_ct st)
       else if decide (s_b = 1%R) then incr fb (wins_ct st)
       else wins_ct st;
     losses_ct :=
       if decide (s_a = 1%R) then incr fb (losses_ct st)
       else if decide (s_b = 1%R) then incr fa (losses_ct st)
       else losses_ct st;
     draws_ct :=
       if decide (s_a = 1%R) then draws_ct st
       else if decide (s_b = 1%R) then draws_ct st
       else incr fb (incr fa (draws_ct st));
     first_date :=
       update_first (DATE r) fb (update_first (DATE r) fa (first_date st));
     last_date :=
       update_last (DATE r) fb (update_last (DATE r) fa (last_date st));
     history_rows := history_rows st ++ [rec] |}.

(** What identifies a bout in a row and in an audit record. *)
Definition row_key (r : row) : option Z * str * str * str * str :=
  (DATE r, norm (EVENT r), norm (BOUT r), fid_of r side_a, fid_of r side_b).

Definition audit_key (h : audit) : option Z * str * str * str * str :=
  (h_DATE h, h_EVENT h, h_BOUT h, fighter_a_id h, fighter_b_id h).

(** The latest post-update rating that a ledger gives a competitor. When a
    record has the competitor on both sides, the B side counts, as it is
    stored last. *)
Definition last_post (hist : list audit) (fid : str) : option R :=
  fold_left
    (fun acc h =>
       if decide (fighter_b_id h = fid) then Some (post_rating_b h)
       else if decide (fighter_a_id h = fid) then Some (post_rating_a h)
       else acc)
    hist None.

(** The number of records of a ledger that pass a test. *)
Definition tally (p : audit -> bool) (hist : list audit) : nat :=
  length (List.filter p hist).

Definition on_a (fid : str) (h : audit) : bool :=
  bool_decide (fighter_a_id h = fid).
Definition on_b (fid : str) (h : audit) : bool :=
  bool_decide (fighter_b_id h = fid).
Definition labelled (w : string) (h : audit) : bool :=
  bool_decide (h_winner_label h = lit w).

(** Fights, wins, losses and draws of a competitor, counted in a ledger;
    a record counts once per side the competitor is on. *)
Definition fights_in (hist : list audit) (fid : str) : nat :=
  (tally (on_a fid) hist + tally (on_b fid) hist)%nat.

Definition wins_in (hist : list audit) (fid : str) : nat :=
  (tally (fun h => on_a fid h && labelled "a" h) hist
   + tally (fun h => on_b fid h && labelled "b" h) hist)%nat.

Definition losses_in (hist : list audit) (fid : str) : nat :=
  (tally (fun h => on_a fid h && labelled "b" h) hist
   + tally (fun h => on_b fid h && labelled "a" h) hist)%nat.

Definition draws_in (hist : list audit) (fid : str) : nat :=
  (tally (fun h => on_a fid h && labelled "draw" h) hist
   + tally (fun h => on_b fid h && labelled "draw" h) hist)%nat.

(** The sum of a list of ratings. *)
Definition Rsum (l : list R) : R := fold_right Rplus 0%R l.

(** The counters of a state agree with its ledger. *)
Definition counters_from_ledger (st : state) : Prop :=
  forall fid,
    count (fights_ct st) fid = fights_in (history_rows st) fid
    /\ count (wins_ct st) fid = wins_in (history_rows st) fid
    /\ count (losses_ct st) fid = losses_in (history_rows st) fid
    /\ count (draws_ct st) fid = draws_in (history_rows st) fid.


(** What the store holds above the base rating, summed over its
    competitors. *)
Definition excess (cfg : EloConfig) (rs : list (str * R)) : R :=
  (Rsum (map snd rs) - base_rating cfg * INR (length rs))%R.

(** The record has the competitor on one of its sides. *)
Definition involves (fid : str) (h : audit) : bool := on_a fid h || on_b fid h.

(** The rule of [first_date] for a key that is present: a known date
    replaces a missing one or a later one. *)
Definition earlier (d old : option Z) : option Z :=
  match d, old with
  | Some dv, Some ov => if (dv <? ov)%Z then d else old
  | Some _, None => d
  | None, _ => old
  end.

(** The rule of [last_date], likewise. *)
Definition later (d old : option Z) : option Z :=
  match d, old with
  | Some dv, Some ov => if (ov <? dv)%Z then d else old
  | Some _, None => d
  | None, _ => old
  end.

(** The first and last dates of a competitor, folded over a ledger: absent
    without a record, [Some None] when no record has a date. *)
Definition seen_date (pick : option Z -> option Z -> option Z)
    (hist : list audit) (fid : str) : option (option Z) :=
  fold_left
    (fun acc h =>
       if involves fid h
       then Some (match acc with
                  | None => h_DATE h
                  | Some old => pick (h_DATE h) old
                  end)
       else acc)
    hist None.

(** The comparison behind [row_leb]. *)
Definition row_compare (r1 r2 : row) : comparison :=
  then_compare (compare_na Z.compare (DATE r1) (DATE r2))
    (then_compare (compare_na str_compare (EVENT r1) (EVENT r2))
                  (compare_na str_compare (BOUT r1) (BOUT r2))).

(** A comparison that behaves as an order: exchanging the arguments
    reverses it, each of its three results is transitive, and elements that
    compare equal compare alike with any third. *)
Record good_cmp {A : Type} (cmp : A -> A -> comparison) : Prop := {
  gc_opp : forall x y, cmp y x = CompOpp (cmp x y);
  gc_trans : forall c x y z, cmp x y = c -> cmp y z = c -> cmp x z = c;
  gc_eq_l : forall x y z, cmp x y = Eq -> cmp x z = cmp y z
}.

(* ===================================================================== *)
(** * Further notions: the classifier *)
(* ===================================================================== *)

(** The category tag of a classification. *)
Definition category_of {M : Type} (res : method_class * M * basis * str)
  : method_class :=
  fst (fst (fst res)).

Definition multiplier_of {M : Type} (res : method_class * M * basis * str) : M :=
  snd (fst (fst res)).

Definition margins_of {M : Type} (res : method_class * M * basis * str) : str :=
  snd res.

(** The category that goes with a basis tag. *)
Definition category_of_basis (b : basis) : method_class :=
  match b with
  | outcome_draw => draw
  | outcome_nc => nc
  | method_finish | method_finish_fallback => finish
  | method_split | method_majority | details_small_margins
  | method_generic_decision => decision_normal
  | details_any_margin_ge_3 | details_two_cards_ge_2
  | method_unanimous_no_details => decision_dominant
  | unknown_method => other
  end.

(** The basis was read off the scorecards. *)
Definition from_details (b : basis) : bool :=
  match b with
  | details_any_margin_ge_3 | details_two_cards_ge_2 | details_small_margins =>
      true
  | _ => false
  end.

(** No code point of [p] is whitespace. *)
Definition space_free (p : str) : Prop := Forall (fun c => is_space c = false) p.

(** Text of ASCII code points, on which the letter cases and the digits of
    the embedding are exactly those of Python. *)
Definition ascii_text (s : str) : Prop := Forall (fun c => (c < 128)%N) s.

(** A cell that is missing or holds ASCII text. *)
Definition ascii_cell (c : option str) : Prop :=
  match c with
  | Some s => ascii_text s
  | None => True
  end.

(** The value of a decimal numeral read from the left. *)
Fixpoint uint_value (d : Decimal.uint) (acc : N) : N :=
  match d with
  | Decimal.Nil => acc
  | Decimal.D0 l => uint_value l (10 * acc)
  | Decimal.D1 l => uint_value l (10 * acc + 1)
  | Decimal.D2 l => uint_value l (10 * acc + 2)
  | Decimal.D3 l => uint_value l (10 * acc + 3)
  | Decimal.D4 l => uint_value l (10 * acc + 4)
  | Decimal.D5 l => uint_value l (10 * acc + 5)
  | Decimal.D6 l => uint_value l (10 * acc + 6)
  | Decimal.D7 l => uint_value l (10 * acc + 7)
  | Decimal.D8 l => uint_value l (10 * acc + 8)
  | Decimal.D9 l => uint_value l (10 * acc + 9)
  end%N.

(** A run of digits. *)
Definition all_digits (s : str) : Prop := Forall (fun c => is_digit c = true) s.

(** [s] is empty or starts with a code point that [p] rejects. *)
Definition stops (p : N -> bool) (s : str) : Prop :=
  match s with
  | [] => True
  | c :: _ => p c = false
  end.

(** One judge's card as the score sheets print it: ["48 - 47"]. *)
Definition render_card (ab : Z * Z) : str :=
  str_of_int (fst ab) ++ lit " - " ++ str_of_int (snd ab).

(** ** [scheduled_rounds_from_timefmt] *)

(** One attempt of [(\d+)\s*Rnd] at the head of [s]: the group.  As for
    [score_match], giving back part of a greedy run never helps. *)
Definition rnd_match (s : str) : option str :=
  match take_while is_digit s with
  | [] => None
  | a =>
      if starts_with (lit "Rnd") (drop_while is_space (drop_while is_digit s))
      then Some a
      else None
  end.

(** [re.search]: the leftmost position where the attempt succeeds. *)
Fixpoint rnd_search (s : str) : option str :=
  match rnd_match s with
  | Some a => Some a
  | None =>
      match s with
      | [] => None
      | _ :: t => rnd_search t
      end
  end.

(** [scheduled_rounds_from_timefmt] of classify_methods.py, and
    [parse_rounds_scheduled] of load_and_prepare.py, which has the same
    body: the number in front of "Rnd", 3 without one and 3 when [int]
    raises on it ([except ValueError: pass]). *)
Definition scheduled_rounds_from_timefmt (timefmt : option str) : Z :=
  match timefmt with
  | None => 3%Z
  | Some s =>
      match rnd_search s with
      | Some a =>
          match py_int a with
          | Some n => n
          | None => 3%Z
          end
      | None => 3%Z
      end
  end.

(* ===================================================================== *)
(** * load_and_prepare.py *)
(* ===================================================================== *)

(** [normalize_name] and [normalize_key]: the functions [norm] and
    [key_from_name] of elo_update.py under other names. *)
Definition normalize_name (s : option str) : str :=
  match s with
  | None => []
  | Some s => collapse (strip s)
  end.

Definition normalize_key (s : option str) : str := lower (normalize_name s).

Definition upper_char (c : N) : N :=
  if ((97 <=? c) && (c <=? 122))%N then (c - 32)%N else c.

(** [s.upper()], on the letters a-z. *)
Definition upper (s : str) : str := map upper_char s.

(** [s.replace(" ", "")] *)
Definition remove_spaces (s : str) : str :=
  List.filter (fun c => negb (c =? 32)%N) s.

(** [parse_outcome_label]: the outcome label of a result row. *)
Definition parse_outcome_label (outcome : option str) : str :=
  match outcome with
  | None => lit "unknown"
  | Some s =>
      let o := remove_spaces (upper (strip s)) in
      if contains (lit "W/L") o then lit "A"
      else if contains (lit "L/W") o then lit "B"
      else if contains (lit "D/D") o || contains (lit "DRAW") o then lit "draw"
      else if contains (lit "NC") o || contains (lit "N/C") o then lit "nc"
      else lit "unknown"
  end.

(** The values of the [decision_type] column of step 1. *)
Inductive step1_decision_type :=
  | t_other | t_unanimous | t_split | t_majority | t_decision.

(** [decision_type_from_method] *)
Definition decision_type_from_method (method : option str)
  : step1_decision_type :=
  match method with
  | None => t_other
  | Some s =>
      let m := lower s in
      if negb (contains (lit "decision") m) then t_other
      else if contains (lit "unanimous") m then t_unanimous
      else if contains (lit "split") m then t_split
      else if contains (lit "majority") m then t_majority
      else t_decision
  end.

(** The step 1 name of a decision type of the classifier. *)
Definition step1_of (d : decision_type) : step1_decision_type :=
  match d with
  | Split => t_split
  | Majority => t_majority
  | Unanimous => t_unanimous
  | Generic => t_decision
  end.

(** ** [split_bout] *)

(** The letters that [v] and [s] match under [re.IGNORECASE]: both cases,
    and for [s] also the long s (U+017F), which the [re] module treats as
    the same letter. *)
Definition is_v (c : N) : bool := ((c =? 118) || (c =? 86))%N.
Definition is_s (c : N) : bool := ((c =? 115) || (c =? 83) || (c =? 383))%N.
Definition is_dot (c : N) : bool := (c =? 46)%N.

(** [\s+] at the start of a text: the text after the whitespace.  The run
    is taken whole: what follows it in the pattern is a letter or the end,
    so that a shorter run cannot help. *)
Definition spaces (s : str) : option str :=
  match s with
  | c :: t => if is_space c then Some (drop_while is_space t) else None
  | [] => None
  end.

(** [\s+vs\.?\s+] at the start of a text; the full stop is tried first. *)
Definition sep_vs (s : str) : option str :=
  match spaces s with
  | Some (v :: c :: r) =>
      if is_v v && is_s c then
        match r with
        | d :: r' =>
            if is_dot d
            then match spaces r' with
                 | Some rest => Some rest
                 | None => spaces r
                 end
            else spaces r
        | [] => None
        end
      else None
  | _ => None
  end.

(** [\s+v\s+] at the start of a text. *)
Definition sep_v (s : str) : option str :=
  match spaces s with
  | Some (v :: r) => if is_v v then spaces r else None
  | _ => None
  end.

(** The pattern [\s+vs\.?\s+|\s+v\s+] at the start of a text: the text
    after the match. *)
Definition sep_match (s : str) : option str :=
  match sep_vs s with
  | Some rest => Some rest
  | None => sep_v s
  end.

(** [re.split]: the text between the matches, from left to right.  [cur]
    is the part read so far, backwards; [skip] counts the code points of
    the current match that are still to be passed over. *)
Fixpoint re_split_from (skip : nat) (cur : str) (s : str) : list str :=
  match s with
  | [] => [rev cur]
  | c :: t =>
      match skip with
      | S k => re_split_from k cur t
      | O =>
          match sep_match s with
          | Some rest => rev cur :: re_split_from (length t - length rest) [] t
          | None => re_split_from 0 (c :: cur) t
          end
      end
  end.

Definition re_split (s : str) : list str := re_split_from 0 [] s.

(** [split_bout]: the two names of a bout label. *)
Definition split_bout (bout : option str) : str * str :=
  match bout with
  | None => ([], [])
  | Some b =>
      let bout_norm := collapse (strip b) in
      match re_split bout_norm with
      | [p0; p1] => (normalize_name (Some p0), normalize_name (Some p1))
      | _ => (bout_norm, [])
      end
  end.

(** No separator starts anywhere in a text. *)
Fixpoint no_sep (s : str) : bool :=
  match s with
  | [] => true
  | _ :: t =>
      match sep_match s with
      | Some _ => false
      | None => no_sep t
      end
  end.

(** The separator pattern on a text without two whitespace characters in a
    row, where [\s+] can only match one. *)
Definition sep_single (s : str) : option str :=
  match s with
  | c0 :: c1 :: c2 :: r2 =>
      if is_space c0 && is_v c1 then
        if is_s c2 then
          match r2 with
          | c3 :: r3 =>
              if is_dot c3
              then match r3 with
                   | c4 :: r4 => if is_space c4 then Some r4 else None
                   | [] => None
                   end
              else if is_space c3 then Some r3 else None
          | [] => None
          end
        else if is_space c2 then Some r2 else None
      else None
  | _ => None
  end.

(* ===================================================================== *)
(** * Text normalisation is idempotent *)
(* ===================================================================== *)

Lemma collapse_from_single_spaced (b : bool) (s : str) :
  single_spaced b (collapse_from b s) = true.
Proof.
  revert b; induction s as [|c t IH]; intros b; simpl; [reflexivity|].
  destruct (is_space c) eqn:Hc.
  - destruct b; simpl; [apply IH|].
    replace (is_space 32%N) with true by reflexivity. simpl. apply IH.
  - simpl. rewrite Hc. apply IH.
Qed.

Lemma collapse_from_fixed (b : bool) (s : str) :
  single_spaced b s = true -> collapse_from b s = s.
Proof.
  revert b; induction s as [|c t IH]; intros b; simpl; [reflexivity|].
  destruct (is_space c) eqn:Hc.
  - intros H. apply andb_prop in H as [H Ht]. apply andb_prop in H as [H32 Hb].
    apply N.eqb_eq in H32. destruct b; [discriminate|].
    subst c. f_equal. apply IH, Ht.
  - intros H. f_equal. apply IH, H.
Qed.

Lemma collapse_idem (s : str) : collapse (collapse s) = collapse s.
Proof.
  unfold collapse. apply collapse_from_fixed, collapse_from_single_spaced.
Qed.

Lemma lstrip_head_clean (s : str) : head_clean (lstrip s).
Proof.
  unfold lstrip. induction s as [|c t IH]; simpl; [exact I|].
  destruct (is_space c) eqn:Hc; [exact IH|]. simpl. exact Hc.
Qed.

Lemma head_clean_lstrip (s : str) : head_clean s -> lstrip s = s.
Proof.
  destruct s as [|c t]; simpl; [reflexivity|]. intros Hc.
  unfold lstrip. simpl. rewrite Hc. reflexivity.
Qed.

Lemma rstrip_head_clean (s : str) : head_clean s -> head_clean (rstrip s).
Proof.
  destruct s as [|c t]; simpl; [trivial|]. intros Hc.
  destruct (rstrip t); rewrite ?Hc; simpl; exact Hc.
Qed.

Lemma rstrip_idem (s : str) : rstrip (rstrip s) = rstrip s.
Proof.
  induction s as [|c t IH]; simpl; [reflexivity|].
  destruct (rstrip t) as [|n l] eqn:E.
  - destruct (is_space c) eqn:Hc; simpl; [reflexivity|]. rewrite Hc. reflexivity.
  - change (rstrip (c :: n :: l)) with
      (match rstrip (n :: l) with
       | [] => if is_space c then [] else [c]
       | t' => c :: t'
       end).
    rewrite IH. reflexivity.
Qed.

Lemma rstrip_cons_fixed (x : N) (u : str) :
  u <> [] -> rstrip u = u -> rstrip (x :: u) = x :: u.
Proof.
  intros Hne Hu. simpl. rewrite Hu. destruct u; [contradiction|reflexivity].
Qed.

Lemma collapse_from_nonempty (b : bool) (s : str) :
  rstrip s <> [] -> collapse_from b s <> [].
Proof.
  revert b; induction s as [|c t IH]; intros b; simpl; [auto|].
  destruct (is_space c) eqn:Hc; [|discriminate].
  destruct (rstrip t) eqn:E; [intros H; contradiction|].
  intros _. destruct b; [|discriminate]. apply IH. discriminate.
Qed.

Lemma collapse_from_rstrip_fixed (b : bool) (s : str) :
  rstrip s = s -> rstrip (collapse_from b s) = collapse_from b s.
Proof.
  revert b; induction s as [|c t IH]; intros b; [reflexivity|].
  intros H. simpl in H.
  destruct (rstrip t) as [|n l] eqn:E.
  - destruct (is_space c) eqn:Hc; [discriminate|].
    injection H as <-. simpl. rewrite Hc. simpl. rewrite Hc. reflexivity.
  - injection H as Ht.
    assert (Hne : forall b', collapse_from b' t <> []).
    { intros b'. apply collapse_from_nonempty. rewrite E. discriminate. }
    simpl. destruct (is_space c); [destruct b|].
    + apply IH, Ht.
    + apply rstrip_cons_fixed; [apply Hne | apply IH, Ht].
    + apply rstrip_cons_fixed; [apply Hne | apply IH, Ht].
Qed.

Lemma collapse_head_clean (s : str) : head_clean s -> head_clean (collapse s).
Proof.
  destruct s as [|c t]; simpl; [trivial|]. intros Hc.
  unfold collapse. simpl. rewrite Hc. exact Hc.
Qed.

Lemma strip_collapse_strip (s : str) :
  strip (collapse (strip s)) = collapse (strip s).
Proof.
  unfold strip at 1.
  rewrite head_clean_lstrip.
  - apply collapse_from_rstrip_fixed. unfold strip. apply rstrip_idem.
  - apply collapse_head_clean. unfold strip.
    apply rstrip_head_clean, lstrip_head_clean.
Qed.

(** [normalize_text] applied to its own result changes nothing. *)
Lemma normalize_text_idem (s : option str) :
  normalize_text (Some (normalize_text s)) = normalize_text s.
Proof.
  destruct s as [s|]; simpl; [|reflexivity].
  rewrite strip_collapse_strip. apply collapse_idem.
Qed.

Lemma drop_while_snoc (p : N -> bool) (s : str) (c : N) :
  drop_while p (s ++ [c]) =
  match drop_while p s with
  | [] => if p c then [] else [c]
  | r => r ++ [c]
  end.
Proof.
  induction s as [|x t IH]; simpl; [reflexivity|].
  destruct (p x); [exact IH|reflexivity].
Qed.

(** [rstrip] removes the trailing whitespace and nothing else. *)
Lemma rstrip_spec (s : str) : rstrip s = rev (drop_while is_space (rev s)).
Proof.
  induction s as [|c t IH]; simpl; [reflexivity|].
  rewrite drop_while_snoc, IH.
  destruct (drop_while is_space (rev t)) as [|x r]; simpl.
  - destruct (is_space c); reflexivity.
  - rewrite rev_app_distr. simpl.
    destruct (rev r ++ [x]) eqn:E; [|reflexivity].
    apply app_eq_nil in E as [_ E]. discriminate E.
Qed.

Example normalize_text_example :
  normalize_text (Some (lit "  Decision  -   Unanimous ")) = lit "Decision - Unanimous".
Proof. reflexivity. Qed.

Example margins_three_cards :
  parse_scorecard_margins (Some (lit "47 - 48,49 - 46,47 - 48")) = [1; 3; 1]%Z.
Proof. reflexivity. Qed.

Example margins_docstring :
  parse_scorecard_margins
    (Some (lit "Ben Cartlidge 47 - 48.Mike Bell 48 - 47.David Lethaby 47 - 48."))
  = [1; 1; 1]%Z.
Proof. reflexivity. Qed.

Example margins_en_dash :
  parse_scorecard_margins (Some (lit "30" ++ [8211%N] ++ lit "27, 29 - 28 x 7-"))
  = [3; 1]%Z.
Proof. reflexivity. Qed.

Example margins_no_pair :
  parse_scorecard_margins (Some (lit "Punches to head at distance")) = [].
Proof. reflexivity. Qed.

Example classify_narrow_unanimous :
  classify_row 1.2%R 1.1%R 1%R
    {| b_winner_label := Some (lit "A");
       b_METHOD := Some (lit "Decision - Unanimous");
       b_DETAILS := Some (lit "48 - 47,48 - 47,48 - 47") |}
  = (decision_normal, 1%R, details_small_margins, lit "1,1,1").
Proof. reflexivity. Qed.

Example classify_knockout :
  classify_row 1.2%R 1.1%R 1%R
    {| b_winner_label := Some (lit "B");
       b_METHOD := Some (lit "KO/TKO");
       b_DETAILS := Some (lit "Punch to Head At Distance") |}
  = (finish, 1.2%R, method_finish, []).
Proof. reflexivity. Qed.

Example classify_draw :
  classify_row 1.2%R 1.1%R 1%R
    {| b_winner_label := Some (lit "draw");
       b_METHOD := Some (lit "Decision - Majority");
       b_DETAILS := None |}
  = (draw, 1%R, outcome_draw, []).
Proof. reflexivity. Qed.

Lemma str_eqb_false (a b : str) : a <> b -> str_eqb a b = false.
Proof. intros H. unfold str_eqb. apply bool_decide_eq_false. exact H. Qed.

(* ===================================================================== *)
(** * The classifier *)
(* ===================================================================== *)

Section ClassifierFacts.
Context {M : Type}.
Variables m_finish m_dom m_dec : M.

Lemma method_is_finish_normalized (method : option str) :
  method_is_finish (Some (normalize_text method))
  = any_token_in (lower (normalize_text method)).
Proof. unfold method_is_finish. rewrite normalize_text_idem. reflexivity. Qed.

Lemma method_is_decision_normalized (method : option str) :
  method_is_decision (Some (normalize_text method))
  = contains (lit "decision") (lower (normalize_text method)).
Proof. unfold method_is_decision. rewrite normalize_text_idem. reflexivity. Qed.

Lemma method_decision_type_normalized (method : option str) :
  method_decision_type (Some (normalize_text method))
  = method_decision_type method.
Proof. unfold method_decision_type. rewrite normalize_text_idem. reflexivity. Qed.

(** C2: in the unanimous/generic decision branch the scorecard margins
    decide: a margin of 3 or more gives [decision_dominant] with basis
    [details_any_margin_ge_3]; else two margins of 2 or more give
    [decision_dominant] with basis [details_two_cards_ge_2]; else a
    non-empty margin list gives [decision_normal] with basis
    [details_small_margins]; and with no margin at all the keyword decides:
    "unanimous" gives [decision_dominant] / [method_unanimous_no_details],
    anything else [decision_normal] / [method_generic_decision]. *)
Theorem C2_decision_margins (r : bout) :
  let outcome := lower (normalize_text (b_winner_label r)) in
  let m := lower (normalize_text (b_METHOD r)) in
  let margins := parse_scorecard_margins (Some (normalize_text (b_DETAILS r))) in
  let margins_str := join (lit ",") (map str_of_int margins) in
  let two_cards := length (filter (fun x => (2 <= x)%Z) margins) in
  let res := classify_row m_finish m_dom m_dec r in
  outcome <> lit "draw" -> outcome <> lit "nc" ->
  contains (lit "decision") m = true ->
  contains (lit "split") m = false ->
  contains (lit "majority") m = false ->
  ((exists x, In x margins /\ (3 <= x)%Z) ->
     res = (decision_dominant, m_dom, details_any_margin_ge_3, margins_str))
  /\ ((forall x, In x margins -> (x < 3)%Z) -> (2 <= two_cards)%nat ->
     res = (decision_dominant, m_dom, details_two_cards_ge_2, margins_str))
  /\ ((forall x, In x margins -> (x < 3)%Z) -> (two_cards < 2)%nat ->
      margins <> [] ->
     res = (decision_normal, m_dec, details_small_margins, margins_str))
  /\ (margins = [] -> contains (lit "unanimous") m = true ->
     res = (decision_dominant, m_dom, method_unanimous_no_details, []))
  /\ (margins = [] -> contains (lit "unanimous") m = false ->
     res = (decision_normal, m_dec, method_generic_decision, [])).
Proof.
  intros outcome m margins margins_str two_cards res Hd Hn Hdec Hs Hmaj.
  assert (Hres : res =
    match margins with
    | _ :: _ =>
        if existsb (fun x => (3 <=? x)%Z) margins
        then (decision_dominant, m_dom, details_any_margin_ge_3, margins_str)
        else if (2 <=? two_cards)%nat
        then (decision_dominant, m_dom, details_two_cards_ge_2, margins_str)
        else (decision_normal, m_dec, details_small_margins, margins_str)
    | [] =>
        if contains (lit "unanimous") m
        then (decision_dominant, m_dom, method_unanimous_no_details, [])
        else (decision_normal, m_dec, method_generic_decision, [])
    end).
  { subst res. unfold classify_row. cbv zeta. fold outcome.
    rewrite (str_eqb_false _ _ Hd), (str_eqb_false _ _ Hn).
    rewrite method_is_decision_normalized. fold m. rewrite Hdec.
    rewrite andb_false_r.
    rewrite method_decision_type_normalized. unfold method_decision_type.
    fold m. rewrite Hs, Hmaj. fold margins.
    destruct (contains (lit "unanimous") m); reflexivity. }
  assert (Hany : (exists x, In x margins /\ (3 <= x)%Z) <->
                 existsb (fun x => (3 <=? x)%Z) margins = true).
  { rewrite existsb_exists. split; intros [x [Hin Hx]]; exists x; split; auto.
    - apply Z.leb_le, Hx.
    - apply Z.leb_le, Hx. }
  assert (Hnone : (forall x, In x margins -> (x < 3)%Z) ->
                  existsb (fun x => (3 <=? x)%Z) margins = false).
  { intros Hall. apply not_true_is_false. intros E.
    apply Hany in E as [x [Hin Hx]]. specialize (Hall x Hin). lia. }
  repeat split.
  - intros Hex. rewrite Hres. pose proof Hex as [x [Hin _]].
    apply Hany in Hex. rewrite Hex. destruct margins; [destruct Hin|reflexivity].
  - intros Hall Htwo. rewrite Hres, (Hnone Hall).
    apply Nat.leb_le in Htwo. rewrite Htwo.
    destruct margins; [|reflexivity].
    subst two_cards. simpl in Htwo. discriminate.
  - intros Hall Htwo Hne. rewrite Hres, (Hnone Hall).
    apply Nat.leb_gt in Htwo. rewrite Htwo.
    destruct margins; [contradiction|reflexivity].
  - intros Hnil Hu. rewrite Hres, Hnil, Hu. reflexivity.
  - intros Hnil Hu. rewrite Hres, Hnil, Hu. reflexivity.
Qed.

(** C7: a decision whose method text says "split" or "majority" is always
    [decision_normal] with the normal multiplier, whatever the scorecard
    detail text holds. *)
Theorem C7_split_majority_normal (r : bout) :
  let outcome := lower (normalize_text (b_winner_label r)) in
  let m := lower (normalize_text (b_METHOD r)) in
  outcome <> lit "draw" -> outcome <> lit "nc" ->
  contains (lit "decision") m = true ->
  contains (lit "split") m = true \/ contains (lit "majority") m = true ->
  exists b,
    classify_row m_finish m_dom m_dec r = (decision_normal, m_dec, b, [])
    /\ (b = method_split \/ b = method_majority).
Proof.
  intros outcome m Hd Hn Hdec Hsm.
  unfold classify_row. cbv zeta. fold outcome.
  rewrite (str_eqb_false _ _ Hd), (str_eqb_false _ _ Hn).
  rewrite method_is_decision_normalized. fold m. rewrite Hdec.
  rewrite andb_false_r.
  rewrite method_decision_type_normalized. unfold method_decision_type.
  fold m.
  destruct (contains (lit "split") m) eqn:Hs.
  - exists method_split. split; [reflexivity|left; reflexivity].
  - destruct Hsm as [Hsm|Hsm]; [discriminate|]. rewrite Hsm.
    exists method_majority. split; [reflexivity|right; reflexivity].
Qed.

(** C9: no row is classified with basis [method_finish_fallback]: the
    fallback test repeats, on the same lowercase normalised text, the test
    of the finish rule, which is only passed over when the text mentions
    "decision", and then the decision branch returns. *)
Theorem C9_fallback_unreachable (r : bout) :
  basis_of (classify_row m_finish m_dom m_dec r) <> method_finish_fallback.
Proof.
  unfold classify_row, basis_of. cbv zeta.
  destruct (str_eqb _ (lit "draw")); [discriminate|].
  destruct (str_eqb _ (lit "nc")); [discriminate|].
  rewrite method_is_finish_normalized, method_is_decision_normalized.
  destruct (contains (lit "decision") _) eqn:Hdec.
  - rewrite andb_false_r.
    destruct (method_decision_type _); try discriminate;
      destruct (parse_scorecard_margins _);
      repeat match goal with
             | |- context [if ?c then _ else _] => destruct c
             end; discriminate.
  - rewrite andb_true_r.
    destruct (any_token_in _); discriminate.
Qed.
End ClassifierFacts.

(* ===================================================================== *)
(** * The rating store *)
(* ===================================================================== *)

Lemma rating_lookup_app (fid : str) (rs : list (str * R)) (k : str) (v : R) :
  rating_lookup fid (rs ++ [(k, v)]) =
  match rating_lookup fid rs with
  | Some x => Some x
  | None => if decide (k = fid) then Some v else None
  end.
Proof.
  induction rs as [|[k' x] t IH]; simpl; [reflexivity|].
  destruct (decide (k' = fid)); [reflexivity|exact IH].
Qed.

Lemma rating_lookup_assign (fid k : str) (v : R) (rs : list (str * R)) :
  rating_lookup k (rating_assign fid v rs) =
  if decide (fid = k) then Some v else rating_lookup k rs.
Proof.
  induction rs as [|[k' x] t IH]; simpl.
  - destruct (decide (fid = k)); reflexivity.
  - destruct (decide (k' = fid)) as [->|Hne]; simpl.
    + destruct (decide (fid = k)); reflexivity.
    + destruct (decide (k' = k)) as [->|Hne'].
      * destruct (decide (fid = k)); [congruence|reflexivity].
      * exact IH.
Qed.

Lemma rating_lookup_None (fid : str) (rs : list (str * R)) :
  rating_lookup fid rs = None <-> ~ In fid (map fst rs).
Proof.
  induction rs as [|[k x] t IH]; simpl; [tauto|].
  destruct (decide (k = fid)) as [->|Hne].
  - split; [discriminate|]. intros H; exfalso; apply H; left; reflexivity.
  - rewrite IH. tauto.
Qed.

Lemma rating_read_spec (base : R) (fid : str) (rs : list (str * R)) :
  let v := default base (rating_lookup fid rs) in
  let rs' := snd (rating_read base fid rs) in
  fst (rating_read base fid rs) = v
  /\ (forall k, rating_lookup k rs' =
               if decide (fid = k) then Some v else rating_lookup k rs)
  /\ map fst rs' = touch fid (map fst rs).
Proof.
  unfold rating_read, touch.
  destruct (rating_lookup fid rs) as [x|] eqn:E; simpl.
  - split; [reflexivity|]. split.
    + intros k. destruct (decide (fid = k)) as [<-|]; [exact E|reflexivity].
    + destruct (decide (fid ∈ map fst rs)) as [|Hn]; [reflexivity|].
      rewrite list_elem_of_In in Hn. apply rating_lookup_None in Hn. congruence.
  - split; [reflexivity|]. split.
    + intros k. rewrite rating_lookup_app.
      destruct (decide (fid = k)) as [<-|]; [rewrite E; reflexivity|].
      destruct (rating_lookup k rs); reflexivity.
    + rewrite map_app. simpl.
      destruct (decide (fid ∈ map fst rs)) as [Hin|]; [|reflexivity].
      rewrite list_elem_of_In in Hin. apply rating_lookup_None in E. contradiction.
Qed.

Lemma rating_assign_keys (fid : str) (v : R) (rs : list (str * R)) :
  In fid (map fst rs) -> map fst (rating_assign fid v rs) = map fst rs.
Proof.
  induction rs as [|[k x] t IH]; simpl; [tauto|].
  intros [->|Hin].
  - destruct (decide (fid = fid)); [reflexivity|congruence].
  - destruct (decide (k = fid)); simpl; [reflexivity|]. f_equal. apply IH, Hin.
Qed.

Lemma touch_In (fid k : str) (keys : list str) :
  In k (touch fid keys) <-> k = fid \/ In k keys.
Proof.
  unfold touch. destruct (decide (fid ∈ keys)) as [Hin|Hn].
  - rewrite list_elem_of_In in Hin. split; [tauto|]. intros [->|H]; assumption.
  - rewrite in_app_iff. simpl. intuition congruence.
Qed.

Lemma touch_NoDup (fid : str) (keys : list str) :
  List.NoDup keys -> List.NoDup (touch fid keys).
Proof.
  intros Hnd. unfold touch. destruct (decide (fid ∈ keys)) as [Hin|Hn];
    [exact Hnd|].
  rewrite list_elem_of_In in Hn.
  apply List.NoDup_app; [exact Hnd | repeat constructor; simpl; tauto |].
  intros x Hx [<-|[]]. contradiction.
Qed.

(* ===================================================================== *)
(** * One bout *)
(* ===================================================================== *)

Lemma outcome_scores_sum (w : str) (s_a s_b : R) :
  outcome_scores w = Some (s_a, s_b) -> (s_a + s_b = 1)%R.
Proof.
  unfold outcome_scores.
  repeat match goal with
         | |- context [if ?c then _ else _] => destruct c
         end; intros H; inversion H; lra.
Qed.

Lemma logistic_prob_Some (ra rb sc : R) :
  sc <> 0%R ->
  logistic_prob ra rb sc = Some (1 / (1 + Rpower 10 ((rb - ra) / sc)))%R.
Proof.
  intros H. unfold logistic_prob. destruct (decide (sc = 0%R)); [contradiction|].
  reflexivity.
Qed.

(** A row without a rated outcome leaves the state as it is. *)
Lemma step_skip (cfg : EloConfig) (st : state) (r : row) :
  outcome_scores (py_str (winner_label r)) = None -> step cfg st r = Some st.
Proof. intros H. unfold step. rewrite H. reflexivity. Qed.

(** What the loop body does on a rated row. *)
Lemma step_rated (cfg : EloConfig) (st : state) (r : row) (s_a s_b : R) :
  scale cfg <> 0%R ->
  outcome_scores (py_str (winner_label r)) = Some (s_a, s_b) ->
  let fid_a := fid_of r side_a in
  let fid_b := fid_of r side_b in
  let ra := rating_of cfg st fid_a in
  let rb := rating_of cfg st fid_b in
  let m := default 1%R (method_multiplier r) in
  let p_a := (1 / (1 + Rpower 10 ((rb - ra) / scale cfg)))%R in
  let ra_new := (ra + K cfg * m * (s_a - p_a))%R in
  let rb_new := (rb + K cfg * m * (s_b - (1 - p_a)))%R in
  exists st' rec,
    step cfg st r = Some st'
    /\ history_rows st' = history_rows st ++ [rec]
    /\ (fighter_a_id rec = fid_a /\ fighter_b_id rec = fid_b
        /\ h_DATE rec = DATE r)
    /\ (pre_rating_a rec = ra /\ pre_rating_b rec = rb /\ p_A_win rec = p_a
        /\ h_method_multiplier rec = m /\ K_eff rec = (K cfg * m)%R
        /\ post_rating_a rec = ra_new /\ post_rating_b rec = rb_new)
    /\ (forall k, rating_lookup k (ratings st') =
                  if decide (fid_b = k) then Some rb_new
                  else if decide (fid_a = k) then Some ra_new
                  else rating_lookup k (ratings st))
    /\ map fst (ratings st') = touch fid_b (touch fid_a (map fst (ratings st)))
    /\ fights_ct st' = incr fid_b (incr fid_a (fights_ct st))
    /\ (wins_ct st', losses_ct st', draws_ct st') =
       (if decide (s_a = 1%R)
        then (incr fid_a (wins_ct st), incr fid_b (losses_ct st), draws_ct st)
        else if decide (s_b = 1%R)
        then (incr fid_b (wins_ct st), incr fid_a (losses_ct st), draws_ct st)
        else (wins_ct st, losses_ct st, incr fid_b (incr fid_a (draws_ct st)))).
Proof.
  intros Hsc Hout fid_a fid_b ra rb m p_a ra_new rb_new.
  unfold step. rewrite Hout.
  destruct (choose_fighter_id r side_a) as [fa name_a] eqn:Ea.
  destruct (choose_fighter_id r side_b) as [fb name_b] eqn:Eb.
  assert (Hfa : fid_a = fa) by (unfold fid_a, fid_of; rewrite Ea; reflexivity).
  assert (Hfb : fid_b = fb) by (unfold fid_b, fid_of; rewrite Eb; reflexivity).
  clearbody fid_a fid_b. subst fa fb.
  pose proof (rating_read_spec (base_rating cfg) fid_a (ratings st)) as R1.
  destruct (rating_read (base_rating cfg) fid_a (ratings st)) as [ra' rs1].
  simpl in R1. destruct R1 as (Hra & Hl1 & Hk1).
  pose proof (rating_read_spec (base_rating cfg) fid_b rs1) as R2.
  destruct (rating_read (base_rating cfg) fid_b rs1) as [rb' rs2].
  simpl in R2. destruct R2 as (Hrb & Hl2 & Hk2).
  assert (Hra' : ra' = ra) by exact Hra.
  assert (Hrb' : rb' = rb).
  { rewrite Hrb, Hl1. unfold rb, ra, rating_of.
    destruct (decide (fid_a = fid_b)) as [->|]; reflexivity. }
  clear Hra Hrb. rewrite Hra', Hrb'. clear Hra' Hrb' ra' rb'.
  unfold elo_update. rewrite (logistic_prob_Some _ _ _ Hsc).
  fold m p_a ra_new rb_new.
  destruct (decide (s_a = 1%R)) as [Ha|Ha]; [|destruct (decide (s_b = 1%R)) as [Hb|Hb]];
    (eexists; eexists; split; [reflexivity|]; simpl; repeat split).
  all: try (intros k; rewrite !rating_lookup_assign, Hl2, !Hl1;
            repeat match goal with
                   | |- context [decide ?P] => destruct (decide P)
                   end; congruence).
  all: rewrite rating_assign_keys.
  all: try (rewrite rating_assign_keys; [rewrite Hk2, Hk1; reflexivity|]).
  all: rewrite ?rating_assign_keys, Hk2, Hk1; rewrite ?touch_In; auto.
  all: rewrite Hk2, Hk1, !touch_In; auto.
Qed.

Lemma step_total (cfg : EloConfig) (st : state) (r : row) :
  scale cfg <> 0%R -> exists st', step cfg st r = Some st'.
Proof.
  intros Hsc.
  destruct (outcome_scores (py_str (winner_label r))) as [[s_a s_b]|] eqn:E.
  - destruct (step_rated cfg st r s_a s_b Hsc E) as (st' & rec & H & _).
    exists st'. exact H.
  - exists st. apply step_skip, E.
Qed.

(** In the exact arithmetic of the embedding, where the power and the
    sums cannot overflow, the loop never stops on an exception when
    [scale] is not zero. *)
Lemma process_total (cfg : EloConfig) (rows : list row) (st : state) :
  scale cfg <> 0%R -> exists st', process cfg st rows = Some st'.
Proof.
  intros Hsc. revert st. induction rows as [|r rest IH]; intros st; simpl.
  - exists st. reflexivity.
  - destruct (step_total cfg st r Hsc) as [st1 H1]. rewrite H1. apply IH.
Qed.

(** A property that every iteration keeps holds after the loop. *)
Lemma process_invariant (P : state -> Prop) (cfg : EloConfig) :
  (forall st r st', P st -> step cfg st r = Some st' -> P st') ->
  forall rows st st', P st -> process cfg st rows = Some st' -> P st'.
Proof.
  intros Hstep. induction rows as [|r rest IH]; intros st st' HP; simpl.
  - intros [= <-]. exact HP.
  - destruct (step cfg st r) as [st1|] eqn:E; [|discriminate].
    apply IH. eapply Hstep; eassumption.
Qed.

(* ===================================================================== *)
(** * The counters *)
(* ===================================================================== *)

(** A rated row only passes with a non-zero scale. *)
Lemma step_rated_scale (cfg : EloConfig) (st : state) (r : row) (st' : state) :
  step cfg st r = Some st' -> rated r -> scale cfg <> 0%R.
Proof.
  unfold rated, step. intros Hstep Hr Hz.
  destruct (outcome_scores _) as [[s_a s_b]|]; [|congruence].
  destruct (choose_fighter_id r side_a), (choose_fighter_id r side_b).
  destruct (rating_read _ _ _) as [ra rs1].
  destruct (rating_read _ _ rs1) as [rb rs2].
  unfold elo_update, logistic_prob in Hstep.
  destruct (decide (scale cfg = 0%R)); [discriminate|contradiction].
Qed.

Lemma count_incr (a k : str) (ct : gmap str nat) :
  count (incr a ct) k = if decide (a = k) then S (count ct k) else count ct k.
Proof.
  unfold count, incr. destruct (decide (a = k)) as [->|Hne].
  - rewrite lookup_insert_eq. reflexivity.
  - rewrite lookup_insert_ne by exact Hne. reflexivity.
Qed.

Lemma step_counts_agree (cfg : EloConfig) (st : state) (r : row) (st' : state) :
  counts_agree st -> step cfg st r = Some st' -> counts_agree st'.
Proof.
  intros Hinv Hstep.
  destruct (decide (scale cfg = 0%R)) as [Hz|Hsc].
  { (* the only step that succeeds with a zero scale is a skipped row *)
    unfold step in Hstep.
    destruct (outcome_scores _) as [[s_a s_b]|]; [|congruence].
    destruct (choose_fighter_id r side_a), (choose_fighter_id r side_b).
    destruct (rating_read _ _ _) as [ra rs1].
    destruct (rating_read _ _ rs1) as [rb rs2].
    unfold elo_update, logistic_prob in Hstep.
    destruct (decide (scale cfg = 0%R)); [discriminate|contradiction]. }
  destruct (outcome_scores (py_str (winner_label r))) as [[s_a s_b]|] eqn:E.
  - destruct (step_rated cfg st r s_a s_b Hsc E)
      as (st1 & rec & H1 & _ & _ & _ & _ & _ & Hf & Hw).
    rewrite H1 in Hstep. injection Hstep as <-.
    intros fid. specialize (Hinv fid). rewrite Hf.
    destruct (decide (s_a = 1%R)); [|destruct (decide (s_b = 1%R))];
      injection Hw as -> -> ->; rewrite !count_incr;
      repeat match goal with
             | |- context [decide ?P] => destruct (decide P)
             end; lia.
  - rewrite (step_skip _ _ _ E) in Hstep. injection Hstep as <-. exact Hinv.
Qed.

Lemma process_app (cfg : EloConfig) (l1 l2 : list row) (st : state) :
  process cfg st (l1 ++ l2) =
  match process cfg st l1 with
  | Some st1 => process cfg st1 l2
  | None => None
  end.
Proof.
  revert st. induction l1 as [|r t IH]; intros st; simpl; [reflexivity|].
  destruct (step cfg st r); [apply IH|reflexivity].
Qed.

Lemma firstn_S_nth {A : Type} (l : list A) (n : nat) (x : A) :
  nth_error l n = Some x -> firstn (S n) l = firstn n l ++ [x].
Proof.
  revert n. induction l as [|y t IH]; intros [|n]; simpl; try discriminate.
  - intros [= ->]. reflexivity.
  - intros H. f_equal. apply IH, H.
Qed.

(** C10: after any prefix of the bout sequence that the loop completes,
    the fight count of every competitor is the sum of their win, loss and
    draw counts; and the next rated bout raises the fight count of each of
    its two competitors by one and, for each of them, exactly one of the
    win, loss and draw counts by one (the winner's wins and the loser's
    losses, or the draws of both), leaving every other count as it was.  A
    competitor on both sides of a bout is counted once per side. *)
Theorem C10_fights_are_wins_losses_draws
    (cfg : EloConfig) (rows : list row) (n : nat) (st : state) :
  process cfg init_state (firstn n rows) = Some st ->
  (forall fid,
     count (fights_ct st) fid =
     (count (wins_ct st) fid + count (losses_ct st) fid
      + count (draws_ct st) fid)%nat)
  /\ (forall r st',
        nth_error rows n = Some r -> rated r ->
        process cfg init_state (firstn (S n) rows) = Some st' ->
        let a := fid_of r side_a in
        let b := fid_of r side_b in
        (forall fid,
           count (fights_ct st') fid
           = (count (fights_ct st) fid + hit a fid + hit b fid)%nat)
        /\ ((forall fid,
               count (wins_ct st') fid = (count (wins_ct st) fid + hit a fid)%nat
               /\ count (losses_ct st') fid
                  = (count (losses_ct st) fid + hit b fid)%nat
               /\ count (draws_ct st') fid = count (draws_ct st) fid)
            \/ (forall fid,
                  count (wins_ct st') fid
                  = (count (wins_ct st) fid + hit b fid)%nat
                  /\ count (losses_ct st') fid
                     = (count (losses_ct st) fid + hit a fid)%nat
                  /\ count (draws_ct st') fid = count (draws_ct st) fid)
            \/ (forall fid,
                  count (wins_ct st') fid = count (wins_ct st) fid
                  /\ count (losses_ct st') fid = count (losses_ct st) fid
                  /\ count (draws_ct st') fid
                     = (count (draws_ct st) fid + hit a fid + hit b fid)%nat))).
Proof.
  intros Hst. split.
  - refine (process_invariant counts_agree cfg _ _ _ _ _ Hst).
    + intros s r s'. apply step_counts_agree.
    + intros fid. reflexivity.
  - intros r st' Hr Hrated Hst' a b.
    rewrite (firstn_S_nth _ _ _ Hr), process_app, Hst in Hst'.
    cbn [process] in Hst'.
    destruct (step cfg st r) as [st1|] eqn:Hstep; [|discriminate].
    injection Hst' as ->.
    pose proof (step_rated_scale _ _ _ _ Hstep Hrated) as Hsc.
    destruct (outcome_scores (py_str (winner_label r))) as [[s_a s_b]|] eqn:E;
      [|destruct (Hrated E)].
    destruct (step_rated cfg st r s_a s_b Hsc E)
      as (st1 & rec & H1 & _ & _ & _ & _ & _ & Hf & Hw).
    rewrite H1 in Hstep. injection Hstep as ->.
    fold a b in Hf, Hw. split.
    + intros fid. rewrite Hf, !count_incr. unfold hit.
      destruct (decide (a = fid)), (decide (b = fid)); lia.
    + destruct (decide (s_a = 1%R)); [|destruct (decide (s_b = 1%R))];
        injection Hw as -> -> ->;
        [left|right; left|right; right];
        intros fid; rewrite !count_incr; unfold hit;
        destruct (decide (a = fid)), (decide (b = fid)); lia.
Qed.

(** With two different competitors, a rated bout adds one fight to each and
    one win, loss or draw to each. *)
Lemma step_counts_distinct (cfg : EloConfig) (st : state) (r : row)
    (s_a s_b : R) (st' : state) :
  scale cfg <> 0%R ->
  outcome_scores (py_str (winner_label r)) = Some (s_a, s_b) ->
  fid_of r side_a <> fid_of r side_b ->
  step cfg st r = Some st' ->
  forall fid, fid = fid_of r side_a \/ fid = fid_of r side_b ->
    count (fights_ct st') fid = S (count (fights_ct st) fid)
    /\ (count (wins_ct st') fid + count (losses_ct st') fid
        + count (draws_ct st') fid
        = S (count (wins_ct st) fid + count (losses_ct st) fid
             + count (draws_ct st) fid))%nat.
Proof.
  intros Hsc E Hne Hstep fid Hfid.
  destruct (step_rated cfg st r s_a s_b Hsc E)
    as (st1 & rec & H1 & _ & _ & _ & _ & _ & Hf & Hw).
  rewrite H1 in Hstep. injection Hstep as <-. rewrite Hf.
  destruct (decide (s_a = 1%R)); [|destruct (decide (s_b = 1%R))];
    injection Hw as -> -> ->; rewrite !count_incr;
    repeat match goal with
           | |- context [decide ?P] => destruct (decide P)
           end; destruct Hfid; try congruence; lia.
Qed.

(* ===================================================================== *)
(** * Skipped rows and the zero-sum update *)
(* ===================================================================== *)

(** C5: a bout whose outcome label is no-contest or unknown leaves the
    whole state of the engine as it was: ratings, counters, dates and
    ledger. *)
Theorem C5_unresolved_outcome_skipped
    (cfg : EloConfig) (st : state) (r : row) :
  let w := lower (strip (py_str (winner_label r))) in
  w = lit "nc" \/ w = lit "unknown" ->
  step cfg st r = Some st
  /\ forall rest, process cfg st (r :: rest) = process cfg st rest.
Proof.
  intros w Hw.
  assert (H : step cfg st r = Some st).
  { apply step_skip. unfold outcome_scores. fold w.
    destruct Hw as [-> | ->]; reflexivity. }
  split; [exact H|]. intros rest. simpl. rewrite H. reflexivity.
Qed.

(** C4: a rated bout is a zero-sum transfer: the audit record it appends
    has [post_rating_a + post_rating_b = pre_rating_a + pre_rating_b], the
    change of B being the opposite of the change of A; the pre-update
    ratings are the stored ones. *)
Theorem C4_update_is_zero_sum
    (cfg : EloConfig) (st : state) (r : row) (s_a s_b : R) :
  scale cfg <> 0%R ->
  outcome_scores (py_str (winner_label r)) = Some (s_a, s_b) ->
  exists st' rec,
    step cfg st r = Some st'
    /\ history_rows st' = history_rows st ++ [rec]
    /\ pre_rating_a rec = rating_of cfg st (fid_of r side_a)
    /\ pre_rating_b rec = rating_of cfg st (fid_of r side_b)
    /\ (post_rating_a rec + post_rating_b rec
        = pre_rating_a rec + pre_rating_b rec)%R
    /\ (post_rating_b rec - pre_rating_b rec
        = - (post_rating_a rec - pre_rating_a rec))%R.
Proof.
  intros Hsc E.
  destruct (step_rated cfg st r s_a s_b Hsc E)
    as (st' & rec & H1 & Hh & _ & (Hpa & Hpb & _ & _ & _ & Hna & Hnb) & _).
  exists st', rec. pose proof (outcome_scores_sum _ _ _ E) as Hsum.
  repeat split; try assumption.
  - rewrite Hna, Hnb, Hpa, Hpb. replace s_b with (1 - s_a)%R by lra. ring.
  - rewrite Hna, Hnb, Hpa, Hpb. replace s_b with (1 - s_a)%R by lra. ring.
Qed.

(* ===================================================================== *)
(** * A single finish between two new competitors *)
(* ===================================================================== *)

(** The expected score between two equal ratings is one half. *)
Lemma logistic_even (r sc : R) :
  (1 / (1 + Rpower 10 ((r - r) / sc)) = 0.5)%R.
Proof.
  replace ((r - r) / sc)%R with 0%R by (unfold Rdiv; ring).
  unfold Rpower. rewrite Rmult_0_l, exp_0. lra.
Qed.

Lemma sort_by_one {A : Type} (leb : A -> A -> bool) (x : A) :
  sort_by leb [x] = [x].
Proof. reflexivity. Qed.

Lemma rating_assign_pair (a b : str) (x y u v : R) :
  a <> b ->
  rating_assign b v (rating_assign a u [(a, x); (b, y)]) = [(a, u); (b, v)].
Proof.
  intros Hne. simpl.
  destruct (decide (a = a)) as [_|]; [|congruence]. simpl.
  destruct (decide (a = b)); [contradiction|].
  destruct (decide (b = b)); [reflexivity|congruence].
Qed.

(** In exact arithmetic, under the default configuration, the run on one
    bout between two new competitors that A wins by a finish (multiplier
    1.20) has one ledger record, with win probability 0.5 and effective
    sensitivity 28.8, and leaves A at 1514.4 and B at 1485.6, in the ledger
    and in the snapshot. *)
Lemma single_finish_exact :
  exists rec snap,
    run_elo default_config [ko_row] = Some ([rec], snap)
    /\ pre_rating_a rec = 1500%R /\ pre_rating_b rec = 1500%R
    /\ p_A_win rec = 0.5%R /\ K_eff rec = 28.8%R
    /\ post_rating_a rec = 1514.4%R /\ post_rating_b rec = 1485.6%R
    /\ map (fun x => (s_fighter_id x, s_rating x)) snap
       = [(lit "a", 1514.4%R); (lit "b", 1485.6%R)].
Proof.
  unfold run_elo. rewrite sort_by_one. unfold process, step.
  change (outcome_scores (py_str (winner_label ko_row))) with (Some (1, 0)%R).
  change (choose_fighter_id ko_row side_a) with (lit "a", lit "A").
  change (choose_fighter_id ko_row side_b) with (lit "b", lit "B").
  cbv beta iota zeta.
  change (rating_read (base_rating default_config) (lit "a") (ratings init_state))
    with (1500%R, [(lit "a", 1500%R)]).
  cbv beta iota zeta.
  change (rating_read (base_rating default_config) (lit "b") [(lit "a", 1500%R)])
    with (1500%R, [(lit "a", 1500%R); (lit "b", 1500%R)]).
  cbv beta iota zeta.
  unfold elo_update. rewrite logistic_prob_Some by (simpl; lra).
  rewrite logistic_even.
  change (default 1%R (method_multiplier ko_row)) with 1.2%R.
  change (K default_config) with 24%R.
  destruct (decide (1%R = 1%R)) as [_|Hn]; [|contradiction].
  cbv beta iota zeta.
  rewrite rating_assign_pair by discriminate.
  eexists. eexists. split; [reflexivity|].
  unfold snapshot.
  cbn [pre_rating_a pre_rating_b p_A_win K_eff post_rating_a post_rating_b
       ratings map sort_by insert_by snapshot_row s_fighter_id s_rating
       rating_desc fst snd].
  unfold rating_desc, snapshot_row. cbn [s_rating s_fighter_id fst snd].
  rewrite bool_decide_eq_true_2 by lra.
  cbn [map s_fighter_id s_rating].
  repeat split; try lra.
  f_equal; [|f_equal]; f_equal; lra.
Qed.

(** C1, as the interpreter computes it.  In binary64, under the default
    configuration, the bout between two competitors at 1500.0 that A wins
    with the multiplier 1.2 has win probability 0.5 and leaves A at the
    float 1514.4 and B at the float 1485.6, but the effective sensitivity
    is the rounded product of 24.0 and 1.2, the float 28.799999999999997,
    one unit in the last place below the float 28.8.  The power function
    of the platform is not consulted: the exponent is zero. *)
Theorem C1_single_finish_binary64
    (libm_pow : float -> float -> option float) :
  elo_update_b64 libm_pow 24 350 1500 1500 1 0 1.2
  = Some (0.5, 28.799999999999997, 1514.4, 1485.6)%float.
Proof. reflexivity. Qed.

(** C1 as stated fails: the engine does not compute the effective
    sensitivity 28.8, whatever the power function of the platform. *)
Lemma C1_sensitivity_is_not_28_8 :
  ~ (exists libm_pow p_a ra_new rb_new,
        elo_update_b64 libm_pow 24 350 1500 1500 1 0 1.2
        = Some (p_a, 28.8%float, ra_new, rb_new)).
Proof.
  intros (libm_pow & p_a & ra_new & rb_new & H).
  vm_compute in H. discriminate H.
Qed.

(* ===================================================================== *)
(** * Sorting *)
(* ===================================================================== *)

Section SortFacts.
Context {A : Type}.
Variable leb : A -> A -> bool.

Lemma insert_by_perm (x : A) (l : list A) :
  Permutation (insert_by leb x l) (x :: l).
Proof.
  induction l as [|y t IH]; simpl; [reflexivity|].
  destruct (leb x y); [reflexivity|].
  rewrite IH. apply perm_swap.
Qed.

Lemma sort_by_perm (l : list A) : Permutation (sort_by leb l) l.
Proof.
  induction l as [|x t IH]; simpl; [reflexivity|].
  rewrite insert_by_perm, IH. reflexivity.
Qed.

Lemma sort_by_In (l : list A) (x : A) : In x (sort_by leb l) <-> In x l.
Proof.
  split; apply Permutation_in; [|symmetry]; apply sort_by_perm.
Qed.

Hypothesis leb_total : forall x y, leb x y = true \/ leb y x = true.
Hypothesis leb_trans :
  forall x y z, leb x y = true -> leb y z = true -> leb x z = true.

Lemma insert_by_sorted (x : A) (l : list A) :
  StronglySorted (fun a b => leb a b = true) l ->
  StronglySorted (fun a b => leb a b = true) (insert_by leb x l).
Proof using leb_total leb_trans.
  induction 1 as [|y t Hs IH Hall]; simpl.
  - repeat constructor.
  - destruct (leb x y) eqn:E.
    + constructor; [constructor; assumption|].
      constructor; [exact E|].
      rewrite List.Forall_forall in Hall |- *. intros z Hz.
      eapply leb_trans; [exact E|]. apply Hall, Hz.
    + constructor; [exact IH|].
      rewrite List.Forall_forall in Hall |- *. intros z Hz.
      apply (Permutation_in _ (insert_by_perm x t)) in Hz.
      destruct Hz as [<-|Hz]; [|apply Hall, Hz].
      destruct (leb_total x y) as [H|H]; [congruence|exact H].
Qed.

Lemma sort_by_sorted (l : list A) :
  StronglySorted (fun a b => leb a b = true) (sort_by leb l).
Proof using leb_total leb_trans.
  induction l as [|x t IH]; simpl; [constructor|].
  apply insert_by_sorted, IH.
Qed.
End SortFacts.

Lemma StronglySorted_impl {A : Type} (P Q : A -> A -> Prop) (l : list A) :
  (forall x y, P x y -> Q x y) -> StronglySorted P l -> StronglySorted Q l.
Proof.
  intros HPQ. induction 1 as [|x t Hs IH Hall]; constructor; [exact IH|].
  rewrite List.Forall_forall in Hall |- *. intros y Hy. apply HPQ, Hall, Hy.
Qed.

Lemma rating_desc_total (x y : rating_row) :
  rating_desc x y = true \/ rating_desc y x = true.
Proof.
  unfold rating_desc.
  destruct (Rle_dec (s_rating y) (s_rating x)) as [H|H].
  - left. apply bool_decide_eq_true_2, H.
  - right. apply bool_decide_eq_true_2. lra.
Qed.

Lemma rating_desc_trans (x y z : rating_row) :
  rating_desc x y = true -> rating_desc y z = true -> rating_desc x z = true.
Proof.
  unfold rating_desc. rewrite !bool_decide_eq_true. lra.
Qed.

(* ===================================================================== *)
(** * The snapshot *)
(* ===================================================================== *)

Lemma step_keys (cfg : EloConfig) (st : state) (r : row) (st' : state) :
  step cfg st r = Some st' ->
  (~ rated r /\ st' = st)
  \/ (rated r /\
      map fst (ratings st') =
      touch (fid_of r side_b) (touch (fid_of r side_a) (map fst (ratings st)))).
Proof.
  intros Hstep.
  destruct (outcome_scores (py_str (winner_label r))) as [[s_a s_b]|] eqn:E.
  - assert (Hr : rated r) by (unfold rated; rewrite E; discriminate).
    pose proof (step_rated_scale _ _ _ _ Hstep Hr) as Hsc.
    destruct (step_rated cfg st r s_a s_b Hsc E)
      as (st1 & rec & H1 & _ & _ & _ & _ & Hk & _).
    rewrite H1 in Hstep. injection Hstep as <-. right. split; assumption.
  - left. rewrite (step_skip _ _ _ E) in Hstep. injection Hstep as <-.
    split; [|reflexivity]. unfold rated. rewrite E. auto.
Qed.

Lemma seen_cons (r : row) (rest : list row) (fid : str) :
  seen (r :: rest) fid <->
  (rated r /\ (fid = fid_of r side_a \/ fid = fid_of r side_b))
  \/ seen rest fid.
Proof.
  unfold seen. split.
  - intros (x & [<-|Hin] & Hr & Hf); [left; auto|right; eauto].
  - intros [(Hr & Hf)|(x & Hin & Hr & Hf)].
    + exists r. simpl. auto.
    + exists x. simpl. auto.
Qed.

(** The keys of the store: no key twice, and exactly the competitors of
    the rated rows. *)
Lemma process_keys (cfg : EloConfig) (rows : list row) (st st' : state) :
  process cfg st rows = Some st' ->
  List.NoDup (map fst (ratings st)) ->
  List.NoDup (map fst (ratings st'))
  /\ forall fid, In fid (map fst (ratings st')) <->
                 In fid (map fst (ratings st)) \/ seen rows fid.
Proof.
  revert st. induction rows as [|r rest IH]; intros st; simpl.
  - intros [= <-] Hnd. split; [exact Hnd|]. intros fid. split; [auto|].
    intros [H|(x & [] & _)]. exact H.
  - destruct (step cfg st r) as [st1|] eqn:E; [|discriminate].
    intros Hp Hnd.
    destruct (step_keys _ _ _ _ E) as [(Hnr & ->)|(Hr & Hk)].
    + destruct (IH _ Hp Hnd) as (Hnd' & Hin). split; [exact Hnd'|].
      intros fid. rewrite Hin, seen_cons. tauto.
    + assert (Hnd1 : List.NoDup (map fst (ratings st1))).
      { rewrite Hk. apply touch_NoDup, touch_NoDup, Hnd. }
      destruct (IH _ Hp Hnd1) as (Hnd' & Hin). split; [exact Hnd'|].
      intros fid. rewrite Hin, seen_cons, Hk, !touch_In. tauto.
Qed.

Lemma rating_lookup_In (k : str) (v : R) (rs : list (str * R)) :
  List.NoDup (map fst rs) -> In (k, v) rs -> rating_lookup k rs = Some v.
Proof.
  induction rs as [|[k' x] t IH]; simpl; [tauto|].
  intros Hnd Hin. inversion Hnd as [|? ? Hnotin Hnd']; subst.
  destruct Hin as [[= -> ->]|Hin].
  - destruct (decide (k = k)); [reflexivity|congruence].
  - destruct (decide (k' = k)) as [->|]; [|apply IH; assumption].
    exfalso. apply Hnotin. apply in_map_iff. exists (k, v). auto.
Qed.

Lemma snapshot_ids (st : state) :
  Permutation (map s_fighter_id (snapshot st)) (map fst (ratings st)).
Proof.
  unfold snapshot. rewrite sort_by_perm, map_map. simpl.
  rewrite (map_ext _ fst); [reflexivity|]. intros [k v]. reflexivity.
Qed.

(** A run gives a ledger and a snapshot when the loop completes and the
    store is not empty. *)
Lemma run_elo_Some (cfg : EloConfig) (rows : list row)
    (hist : list audit) (snap : list rating_row) :
  run_elo cfg rows = Some (hist, snap) <->
  exists st,
    process cfg init_state (sort_by row_leb rows) = Some st
    /\ ratings st <> []
    /\ hist = history_rows st /\ snap = snapshot st.
Proof.
  unfold run_elo. split.
  - destruct (process cfg init_state (sort_by row_leb rows)) as [st|];
      [|discriminate].
    destruct (ratings st) eqn:E; [discriminate|].
    intros [= <- <-]. exists st. rewrite E. repeat split. discriminate.
  - intros (st & -> & Hne & -> & ->).
    destruct (ratings st); [contradiction|reflexivity].
Qed.

(** In the exact arithmetic of the embedding, where nothing but a zero
    scale stops the loop, a run with a rated row completes. *)
Lemma run_elo_completes (cfg : EloConfig) (rows : list row) :
  scale cfg <> 0%R ->
  (exists r, In r rows /\ rated r) ->
  exists hist snap, run_elo cfg rows = Some (hist, snap).
Proof.
  intros Hsc (r & Hr & Hrated).
  destruct (process_total cfg (sort_by row_leb rows) init_state Hsc) as [st Hst].
  exists (history_rows st), (snapshot st). apply run_elo_Some.
  exists st. repeat split; [exact Hst|].
  destruct (process_keys _ _ _ _ Hst (List.NoDup_nil _)) as (_ & Hin).
  assert (H : In (fid_of r side_a) (map fst (ratings st))).
  { apply Hin. right. exists r. split; [apply (sort_by_In row_leb), Hr|].
    split; [exact Hrated|]. left. reflexivity. }
  intros E. rewrite E in H. destruct H.
Qed.

(** X27: a run without a rated row does not complete.  The loop leaves the
    rating store empty, the snapshot frame has no column, and sorting it
    by "rating" raises KeyError: [run_elo] gives no result. *)
Theorem run_elo_nothing_rated (cfg : EloConfig) (rows : list row) :
  (forall r, In r rows -> ~ rated r) -> run_elo cfg rows = None.
Proof.
  intros Hnone. destruct (run_elo cfg rows) as [[hist snap]|] eqn:E;
    [exfalso|reflexivity].
  apply run_elo_Some in E as (st & Hst & Hne & _).
  destruct (process_keys _ _ _ _ Hst (List.NoDup_nil _)) as (_ & Hin).
  destruct (ratings st) as [|[k v] t] eqn:Er; [contradiction|].
  destruct (proj1 (Hin k)) as [[]|(r & Hr & Hrated & _)].
  - left. reflexivity.
  - apply (Hnone r); [apply (sort_by_In row_leb), Hr|exact Hrated].
Qed.

(** C6, as the code has it: the snapshot of a run that completes has
    exactly one row per competitor of a rated bout, each with the final
    stored rating, by rating descending.  Nothing orders rows of equal
    rating by competitor key. *)
Theorem C6_snapshot_one_row_per_competitor_sorted
    (cfg : EloConfig) (rows : list row)
    (hist : list audit) (snap : list rating_row) :
  run_elo cfg rows = Some (hist, snap) ->
  exists st,
    process cfg init_state (sort_by row_leb rows) = Some st
    /\ hist = history_rows st
    /\ List.NoDup (map s_fighter_id snap)
    /\ (forall fid, In fid (map s_fighter_id snap) <-> seen rows fid)
    /\ (forall x, In x snap -> s_rating x = rating_of cfg st (s_fighter_id x))
    /\ StronglySorted (fun x y => (s_rating y <= s_rating x)%R) snap.
Proof.
  intros Hrun. apply run_elo_Some in Hrun as (st & Hst & _ & -> & ->).
  exists st.
  destruct (process_keys _ _ _ _ Hst (List.NoDup_nil _)) as (Hnd & Hin).
  split; [exact Hst|]. split; [reflexivity|].
  split; [|split; [|split]].
  - eapply Permutation_NoDup; [symmetry; apply snapshot_ids|exact Hnd].
  - intros fid. split.
    + intros H. apply (Permutation_in _ (snapshot_ids st)) in H.
      apply Hin in H as [[]|(r & Hr & Hrest)].
      exists r. split; [|exact Hrest]. apply (sort_by_In row_leb), Hr.
    + intros (r & Hr & Hrest).
      apply (Permutation_in _ (Permutation_sym (snapshot_ids st))).
      apply Hin. right. exists r. split; [|exact Hrest].
      apply (sort_by_In row_leb), Hr.
  - intros x Hx. unfold snapshot in Hx. apply sort_by_In in Hx.
    apply in_map_iff in Hx as ([k v] & <- & Hkv). simpl.
    unfold rating_of. rewrite (rating_lookup_In k v _ Hnd Hkv). reflexivity.
  - unfold snapshot.
    eapply StronglySorted_impl;
      [|apply sort_by_sorted; [apply rating_desc_total|apply rating_desc_trans]].
    intros x y H. unfold rating_desc in H. apply bool_decide_eq_true in H.
    exact H.
Qed.

(** C6 as stated fails: after one draw between "Zed" and "Amy" both rows
    of the snapshot are at 1500 and "zed" comes before "amy". *)
Lemma C6_ties_not_by_key :
  exists hist snap,
    run_elo default_config [zed_amy_draw] = Some (hist, snap)
    /\ map s_fighter_id snap = [lit "zed"; lit "amy"]
    /\ map s_rating snap = [1500%R; 1500%R]
    /\ ~ ties_by_key snap.
Proof.
  unfold run_elo. rewrite sort_by_one. unfold process, step.
  change (outcome_scores (py_str (winner_label zed_amy_draw)))
    with (Some (0.5, 0.5)%R).
  change (choose_fighter_id zed_amy_draw side_a) with (lit "zed", lit "Zed").
  change (choose_fighter_id zed_amy_draw side_b) with (lit "amy", lit "Amy").
  cbv beta iota zeta.
  change (rating_read (base_rating default_config) (lit "zed") (ratings init_state))
    with (1500%R, [(lit "zed", 1500%R)]).
  cbv beta iota zeta.
  change (rating_read (base_rating default_config) (lit "amy") [(lit "zed", 1500%R)])
    with (1500%R, [(lit "zed", 1500%R); (lit "amy", 1500%R)]).
  cbv beta iota zeta.
  unfold elo_update. rewrite logistic_prob_Some by (simpl; lra).
  rewrite logistic_even.
  change (default 1%R (method_multiplier zed_amy_draw)) with 1%R.
  change (K default_config) with 24%R.
  destruct (decide (0.5%R = 1%R)) as [Hn|_]; [lra|].
  cbv beta iota zeta.
  rewrite rating_assign_pair by discriminate.
  eexists. eexists. split; [reflexivity|].
  unfold snapshot.
  cbn [ratings map sort_by insert_by].
  unfold rating_desc, snapshot_row.
  cbn [s_rating s_fighter_id fst snd].
  rewrite bool_decide_eq_true_2 by lra.
  cbn [map s_fighter_id s_rating fst snd].
  split; [reflexivity|]. split; [f_equal; [|f_equal]; lra|].
  intros H.
  specialize (H 0%nat 1%nat _ _ (Nat.lt_0_succ 0) eq_refl eq_refl).
  cbn [s_rating s_fighter_id] in H.
  assert (Hfalse : str_leb (lit "zed") (lit "amy") = true) by (apply H; lra).
  vm_compute in Hfalse. discriminate Hfalse.
Qed.

(* ===================================================================== *)
(** * The order of the bouts *)
(* ===================================================================== *)

Lemma step_lookup_agree (cfg : EloConfig) (st1 st2 : state) (r r' : row)
    (st1' st2' : state) :
  (forall k, rating_lookup k (ratings st1) = rating_lookup k (ratings st2)) ->
  fid_of r side_a = fid_of r' side_a ->
  fid_of r side_b = fid_of r' side_b ->
  outcome_scores (py_str (winner_label r))
  = outcome_scores (py_str (winner_label r')) ->
  method_multiplier r = method_multiplier r' ->
  step cfg st1 r = Some st1' -> step cfg st2 r' = Some st2' ->
  forall k, rating_lookup k (ratings st1') = rating_lookup k (ratings st2').
Proof.
  intros Hl Ha Hb Ho Hm H1 H2.
  destruct (outcome_scores (py_str (winner_label r))) as [[s_a s_b]|] eqn:E.
  - assert (Hr : rated r) by (unfold rated; rewrite E; discriminate).
    pose proof (step_rated_scale _ _ _ _ H1 Hr) as Hsc.
    destruct (step_rated cfg st1 r s_a s_b Hsc E)
      as (x1 & rec1 & X1 & _ & _ & _ & L1 & _).
    destruct (step_rated cfg st2 r' s_a s_b Hsc (eq_sym Ho))
      as (x2 & rec2 & X2 & _ & _ & _ & L2 & _).
    rewrite X1 in H1. rewrite X2 in H2.
    injection H1 as <-. injection H2 as <-.
    intros k. rewrite L1, L2. unfold rating_of.
    rewrite <- Ha, <- Hb, <- Hm, !Hl. reflexivity.
  - rewrite (step_skip _ _ _ E) in H1.
    rewrite (step_skip _ _ _ (eq_sym Ho)) in H2.
    injection H1 as <-. injection H2 as <-. exact Hl.
Qed.

(** Two rows with the same competitors, outcome and multiplier can be
    exchanged: both orders run, and every stored rating is the same. *)
Lemma same_bouts_commute (cfg : EloConfig) (r1 r2 : row) :
  scale cfg <> 0%R ->
  fid_of r1 side_a = fid_of r2 side_a ->
  fid_of r1 side_b = fid_of r2 side_b ->
  outcome_scores (py_str (winner_label r1))
  = outcome_scores (py_str (winner_label r2)) ->
  method_multiplier r1 = method_multiplier r2 ->
  exists st12 st21,
    process cfg init_state [r1; r2] = Some st12
    /\ process cfg init_state [r2; r1] = Some st21
    /\ forall fid, rating_of cfg st12 fid = rating_of cfg st21 fid.
Proof.
  intros Hsc Ha Hb Ho Hm.
  destruct (process_total cfg [r1; r2] init_state Hsc) as [st12 H12].
  destruct (process_total cfg [r2; r1] init_state Hsc) as [st21 H21].
  exists st12, st21. split; [exact H12|]. split; [exact H21|].
  simpl in H12, H21.
  destruct (step cfg init_state r1) as [s1|] eqn:E1; [|discriminate].
  destruct (step cfg init_state r2) as [s2|] eqn:E2; [|discriminate].
  destruct (step cfg s1 r2) as [s12|] eqn:E12; [|discriminate].
  destruct (step cfg s2 r1) as [s21|] eqn:E21; [|discriminate].
  injection H12 as <-. injection H21 as <-.
  intros fid. unfold rating_of. f_equal.
  eapply (step_lookup_agree cfg s1 s2 r2 r1); eauto.
  eapply (step_lookup_agree cfg init_state init_state r1 r2); eauto.
Qed.

(** C8 as stated fails: a bout and its rematch with the same winner and the
    same multiplier have both competitors in common; both orders run and
    give every competitor the same final rating. *)
Lemma C8_rematch_commutes :
  rated ko_row /\ rated ko_rematch
  /\ overlapping ko_row ko_rematch
  /\ DATE ko_row <> DATE ko_rematch
  /\ (exists st12 st21,
        process default_config init_state [ko_row; ko_rematch] = Some st12
        /\ process default_config init_state [ko_rematch; ko_row] = Some st21
        /\ forall fid,
             rating_of default_config st12 fid
             = rating_of default_config st21 fid)
  /\ ~ order_sensitive default_config ko_row ko_rematch.
Proof.
  assert (Hsc : scale default_config <> 0%R) by (simpl; lra).
  pose proof (same_bouts_commute default_config ko_row ko_rematch Hsc
                eq_refl eq_refl eq_refl eq_refl) as Hc.
  split; [|split; [|split; [|split; [|split]]]].
  - unfold rated.
    change (outcome_scores (py_str (winner_label ko_row))) with (Some (1, 0)%R).
    discriminate.
  - unfold rated.
    change (outcome_scores (py_str (winner_label ko_rematch)))
      with (Some (1, 0)%R).
    discriminate.
  - exists side_a, side_a. reflexivity.
  - discriminate.
  - exact Hc.
  - destruct Hc as (st12 & st21 & H12 & H21 & Heq).
    intros (st12' & st21' & fid & H12' & H21' & Hne).
    rewrite H12 in H12'. rewrite H21 in H21'.
    injection H12' as <-. injection H21' as <-.
    apply Hne, Heq.
Qed.

Lemma outcome_scores_cases (w : str) (s_a s_b : R) :
  outcome_scores w = Some (s_a, s_b) ->
  (s_a = 1 /\ s_b = 0)%R \/ (s_a = 0 /\ s_b = 1)%R
  \/ (s_a = 0.5 /\ s_b = 0.5)%R.
Proof.
  unfold outcome_scores.
  repeat match goal with
         | |- context [if ?c then _ else _] => destruct c
         end; intros [= <- <-]; auto.
Qed.

(** ** The expected score as a function of the rating gap *)

Lemma Rpower_10_pos (x : R) : (0 < Rpower 10 x)%R.
Proof. unfold Rpower. apply exp_pos. Qed.

Lemma expected_range (x : R) :
  (0 < 1 / (1 + Rpower 10 x) < 1)%R.
Proof.
  pose proof (Rpower_10_pos x) as HP.
  split.
  - apply Rdiv_lt_0_compat; lra.
  - apply (Rmult_lt_reg_r (1 + Rpower 10 x)); [lra|].
    unfold Rdiv. rewrite Rmult_assoc, Rinv_l by lra. lra.
Qed.

(** The slope is the derivative of the curve. *)
Lemma logistic_curve_deriv (c t : R) :
  derivable_pt_lim (logistic_curve c) t (logistic_slope c t).
Proof.
  assert (Hpos : (0 < exp (- (c * t)))%R) by apply exp_pos.
  pose (inner := mult_real_fct (- c)%R id).
  pose (den := plus_fct (fct_cte 1) (comp exp inner)).
  assert (Hinner : derivable_pt_lim inner t (- c * 1)%R).
  { apply derivable_pt_lim_scal, derivable_pt_lim_id. }
  assert (Hexp : derivable_pt_lim (comp exp inner) t (exp (inner t) * (- c * 1))%R).
  { apply derivable_pt_lim_comp; [exact Hinner|apply derivable_pt_lim_exp]. }
  assert (Hden : derivable_pt_lim den t (0 + exp (inner t) * (- c * 1))%R).
  { apply derivable_pt_lim_plus; [apply derivable_pt_lim_const|exact Hexp]. }
  assert (Hval : inner t = (- (c * t))%R).
  { unfold inner, mult_real_fct, id. ring. }
  assert (Hne : den t <> 0%R).
  { unfold den, plus_fct, fct_cte, comp. rewrite Hval. lra. }
  pose proof (derivable_pt_lim_div (fct_cte 1) den t _ _
                (derivable_pt_lim_const 1 t) Hden Hne) as H.
  apply (derivable_pt_lim_ext (div_fct (fct_cte 1) den)).
  - intros z. unfold div_fct, den, plus_fct, fct_cte, comp, inner,
      mult_real_fct, id, logistic_curve.
    replace (- c * z)%R with (- (c * z))%R by ring. reflexivity.
  - replace (logistic_slope c t)
      with ((0 * den t - (0 + exp (inner t) * (- c * 1)) * fct_cte 1 t)
            / Rsqr (den t))%R; [exact H|].
    unfold logistic_slope, den, plus_fct, fct_cte, comp. rewrite Hval.
    unfold Rdiv. ring.
Qed.

(** The slope falls on the positive half-line. *)
Lemma logistic_slope_decreasing (c x y : R) :
  (0 < c)%R -> (0 < x)%R -> (x < y)%R ->
  (logistic_slope c y < logistic_slope c x)%R.
Proof.
  intros Hc Hx Hxy. unfold logistic_slope.
  assert (Hu1 : (exp (- (c * x)) < 1)%R).
  { rewrite <- exp_0. apply exp_increasing. nra. }
  assert (Hvu : (exp (- (c * y)) < exp (- (c * x)))%R).
  { apply exp_increasing. nra. }
  pose proof (exp_pos (- (c * y))) as Hv.
  set (u := exp (- (c * x))) in *. set (v := exp (- (c * y))) in *.
  assert (Hkey : (v / Rsqr (1 + v) < u / Rsqr (1 + u))%R).
  { unfold Rsqr.
    assert (Hd : (u / ((1 + u) * (1 + u)) - v / ((1 + v) * (1 + v))
                  = (u - v) * (1 - u * v)
                    / (((1 + u) * (1 + u)) * ((1 + v) * (1 + v))))%R).
    { field. split; nra. }
    assert (Hnum : (0 < (u - v) * (1 - u * v))%R).
    { apply Rmult_lt_0_compat; nra. }
    assert (Hdenp : (0 < ((1 + u) * (1 + u)) * ((1 + v) * (1 + v)))%R).
    { apply Rmult_lt_0_compat; nra. }
    pose proof (Rdiv_lt_0_compat _ _ Hnum Hdenp). lra. }
  unfold Rdiv in *. rewrite !Rmult_assoc.
  apply Rmult_lt_compat_l; assumption.
Qed.

(** The chord from the origin gets flatter: the curve is concave on the
    positive half-line. *)
Lemma logistic_chord (c a b : R) :
  (0 < c)%R -> (0 < a)%R -> (a < b)%R ->
  (a * (logistic_curve c b - 1 / 2) < b * (logistic_curve c a - 1 / 2))%R.
Proof.
  intros Hc Ha Hab.
  assert (H0 : logistic_curve c 0 = (1 / 2)%R).
  { unfold logistic_curve. rewrite Rmult_0_r, Ropp_0, exp_0. lra. }
  destruct (MVT_cor2 (logistic_curve c) (logistic_slope c) 0 a Ha)
    as (x1 & E1 & Hx1).
  { intros z _. apply logistic_curve_deriv. }
  destruct (MVT_cor2 (logistic_curve c) (logistic_slope c) a b Hab)
    as (x2 & E2 & Hx2).
  { intros z _. apply logistic_curve_deriv. }
  assert (Hs : (logistic_slope c x2 < logistic_slope c x1)%R).
  { apply logistic_slope_decreasing; lra. }
  rewrite H0 in E1. rewrite Rminus_0_r in E1.
  set (p := logistic_slope c x1) in *. set (q := logistic_slope c x2) in *.
  replace (logistic_curve c b - 1 / 2)%R
    with (q * (b - a) + p * a)%R by lra.
  rewrite E1.
  assert (Hprod : (0 < a * (b - a) * (p - q))%R).
  { apply Rmult_lt_0_compat; [apply Rmult_lt_0_compat|]; lra. }
  nra.
Qed.

(** The expected score is the curve, read at the lead of the competitor. *)
Lemma expected_curve (sc d : R) :
  (0 < sc)%R -> expected sc d = logistic_curve (ln 10 / sc) (- d).
Proof.
  intros Hsc. unfold expected, logistic_curve, Rpower.
  replace (- (ln 10 / sc * - d))%R with (d / sc * ln 10)%R by (field; lra).
  reflexivity.
Qed.

Lemma expected_bounds (sc d : R) : (0 < expected sc d < 1)%R.
Proof. unfold expected. apply expected_range. Qed.

(** The expected scores of the two competitors add up to one. *)
Lemma expected_compl (sc d : R) :
  sc <> 0%R -> expected sc (- d) = (1 - expected sc d)%R.
Proof.
  intros Hsc. unfold expected.
  replace (- d / sc)%R with (- (d / sc))%R by (field; exact Hsc).
  rewrite Rpower_Ropp.
  pose proof (Rpower_10_pos (d / sc)) as HP.
  field. split; lra.
Qed.

(** The expected score falls as the opponent's lead grows. *)
Lemma expected_decreasing (sc d1 d2 : R) :
  (0 < sc)%R -> (d1 < d2)%R -> (expected sc d2 < expected sc d1)%R.
Proof.
  intros Hsc Hd. unfold expected.
  assert (Hlt : (Rpower 10 (d1 / sc) < Rpower 10 (d2 / sc))%R).
  { apply Rpower_lt; [lra|].
    unfold Rdiv. apply Rmult_lt_compat_r; [apply Rinv_0_lt_compat; exact Hsc|].
    exact Hd. }
  pose proof (Rpower_10_pos (d1 / sc)) as H1.
  pose proof (Rpower_10_pos (d2 / sc)) as H2.
  unfold Rdiv. rewrite !Rmult_1_l.
  apply Rinv_lt_contravar; [nra|lra].
Qed.

Lemma expected_inj (sc d1 d2 : R) :
  (0 < sc)%R -> expected sc d1 = expected sc d2 -> d1 = d2.
Proof.
  intros Hsc H.
  destruct (Rtotal_order d1 d2) as [Hlt|[Heq|Hgt]]; [|exact Heq|].
  - pose proof (expected_decreasing sc d1 d2 Hsc Hlt). lra.
  - pose proof (expected_decreasing sc d2 d1 Hsc Hgt). lra.
Qed.

Lemma expected_zero (sc : R) : expected sc 0 = (1 / 2)%R.
Proof.
  unfold expected. replace (0 / sc)%R with 0%R by (unfold Rdiv; ring).
  unfold Rpower. rewrite Rmult_0_l, exp_0. lra.
Qed.

(** The chord of the expected score from equal ratings: a larger lead
    earns less per point. *)
Lemma expected_chord (sc a b : R) :
  (0 < sc)%R -> (0 < a)%R -> (a < b)%R ->
  (a * (expected sc (- b) - 1 / 2) < b * (expected sc (- a) - 1 / 2))%R.
Proof.
  intros Hsc Ha Hab.
  rewrite !(expected_curve sc) by exact Hsc. rewrite !Ropp_involutive.
  apply logistic_chord; [|exact Ha|exact Hab].
  apply Rdiv_lt_0_compat; [|exact Hsc].
  rewrite <- ln_1. apply ln_increasing; lra.
Qed.

Lemma expected_chord_ne (sc a b : R) :
  (0 < sc)%R -> (0 < a)%R -> (0 < b)%R -> a <> b ->
  (a * (expected sc (- b) - 1 / 2) <> b * (expected sc (- a) - 1 / 2))%R.
Proof.
  intros Hsc Ha Hb Hne.
  destruct (Rtotal_order a b) as [Hlt|[Heq|Hgt]]; [|contradiction|].
  - pose proof (expected_chord sc a b Hsc Ha Hlt). lra.
  - pose proof (expected_chord sc b a Hsc Hb Hgt). lra.
Qed.

(** The scores that [outcome_scores] gives. *)
Lemma plays_score (r : row) (x y : str) (s : R) :
  plays r x y s -> (s = 1 \/ s = 0 \/ s = 1 / 2)%R.
Proof.
  intros [s' [ (H & _) | (H & _) ] ];
    destruct (outcome_scores_cases _ _ _ H) as [ [-> ->] | [ [-> ->] | [-> ->] ] ];
    auto; right; right; lra.
Qed.

Lemma plays_swap (r : row) (x y : str) (s : R) :
  plays r x y s -> plays r y x (1 - s).
Proof.
  intros [s' [ (H & Ha & Hb) | (H & Ha & Hb) ] ];
    pose proof (outcome_scores_sum _ _ _ H) as Hsum.
  - exists s. right. replace (1 - s)%R with s' by lra. auto.
  - exists s. left. replace (1 - s)%R with s' by lra. auto.
Qed.

Lemma plays_rated (r : row) (x y : str) (s : R) : plays r x y s -> rated r.
Proof.
  intros [s' [ (H & _) | (H & _) ] ]; unfold rated; rewrite H; discriminate.
Qed.

Lemma plays_sides (r : row) (x y : str) (s : R) :
  plays r x y s ->
  (fid_of r side_a = x /\ fid_of r side_b = y)
  \/ (fid_of r side_a = y /\ fid_of r side_b = x).
Proof. intros [s' [ (_ & H) | (_ & H) ] ]; auto. Qed.

(** A rated row seen from either side. *)
Lemma rated_plays (r : row) (sd : side) :
  rated r ->
  exists y s,
    plays r (fid_of r sd) y s
    /\ ((sd = side_a /\ y = fid_of r side_b)
        \/ (sd = side_b /\ y = fid_of r side_a)).
Proof.
  unfold rated. intros Hr.
  destruct (outcome_scores (py_str (winner_label r))) as [[s_a s_b]|] eqn:E;
    [|contradiction].
  destruct sd.
  - exists (fid_of r side_b), s_a. split; [|auto].
    exists s_b. left. auto.
  - exists (fid_of r side_a), s_b. split; [|auto].
    exists s_a. right. auto.
Qed.

(** The stored ratings after a rated bout, seen from either side: [x] gets
    the gain, [y] gives it, nobody else moves. *)
Lemma step_plays (cfg : EloConfig) (st st' : state) (r : row) (x y : str)
    (s : R) :
  plays r x y s -> x <> y -> step cfg st r = Some st' ->
  forall k,
    rating_of cfg st' k =
    if decide (k = x) then (rating_of cfg st x + gain cfg st r x y s)%R
    else if decide (k = y) then (rating_of cfg st y - gain cfg st r x y s)%R
    else rating_of cfg st k.
Proof.
  intros Hp Hne Hstep k.
  pose proof (step_rated_scale _ _ _ _ Hstep (plays_rated _ _ _ _ Hp)) as Hsc.
  destruct Hp as [s' [ (Ho & Ha & Hb) | (Ho & Ha & Hb) ] ];
    pose proof (outcome_scores_sum _ _ _ Ho) as Hsum;
    destruct (step_rated cfg st r _ _ Hsc Ho)
      as (st1 & rec & Hst1 & _ & _ & _ & Hl & _);
    rewrite Hst1 in Hstep; injection Hstep as <-;
    unfold rating_of at 1; rewrite Hl, Ha, Hb; unfold gain;
    fold (expected (scale cfg)
            (rating_of cfg st y - rating_of cfg st x));
    fold (expected (scale cfg)
            (rating_of cfg st x - rating_of cfg st y)).
  - assert (Hs' : s' = (1 - s)%R) by lra. subst s'.
    destruct (decide (y = k)) as [->|Hyk].
    + destruct (decide (k = x)) as [e|_]; [congruence|].
      destruct (decide (k = k)) as [_|]; [|congruence].
      simpl. ring.
    + destruct (decide (x = k)) as [->|Hxk].
      * destruct (decide (k = k)) as [_|]; [|congruence]. simpl. ring.
      * destruct (decide (k = x)); [congruence|].
        destruct (decide (k = y)); [congruence|]. reflexivity.
  - assert (Hs' : s' = (1 - s)%R) by lra. subst s'.
    replace (rating_of cfg st x - rating_of cfg st y)%R
      with (- (rating_of cfg st y - rating_of cfg st x))%R by ring.
    rewrite (expected_compl _ _ Hsc).
    destruct (decide (x = k)) as [->|Hxk].
    + destruct (decide (k = k)) as [_|]; [|congruence]. simpl. ring.
    + destruct (decide (k = x)); [congruence|].
      destruct (decide (y = k)) as [->|Hyk].
      * destruct (decide (k = k)) as [_|]; [|congruence]. simpl. ring.
      * destruct (decide (k = y)); [congruence|]. reflexivity.
Qed.

(** A bout leaves the ratings alone only when it is a draw between equally
    rated competitors. *)
Lemma gain_zero (cfg : EloConfig) (st : state) (r : row) (x y : str) (s : R) :
  (0 < K cfg)%R -> (0 < scale cfg)%R ->
  (0 < default 1%R (method_multiplier r))%R ->
  (s = 1 \/ s = 0 \/ s = 1 / 2)%R ->
  gain cfg st r x y s = 0%R
  <-> (s = 1 / 2)%R /\ rating_of cfg st x = rating_of cfg st y.
Proof.
  intros HK Hsc Hm Hs. unfold gain.
  pose proof (expected_bounds (scale cfg)
                (rating_of cfg st y - rating_of cfg st x)) as Hb.
  split.
  - intros H.
    assert (Hk : (0 < K cfg * default 1 (method_multiplier r))%R)
      by (apply Rmult_lt_0_compat; assumption).
    assert (He : (s - expected (scale cfg)
                        (rating_of cfg st y - rating_of cfg st x) = 0)%R) by nra.
    destruct Hs as [ -> | [ -> | -> ] ]; [lra|lra|].
    split; [reflexivity|].
    assert (Hd : (rating_of cfg st y - rating_of cfg st x)%R = 0%R).
    { apply (expected_inj (scale cfg)); [exact Hsc|].
      rewrite expected_zero. lra. }
    lra.
  - intros [-> ->]. rewrite Rminus_diag, expected_zero. lra.
Qed.

(** ** Two bouts in two orders *)

Lemma process_two (cfg : EloConfig) (st : state) (r1 r2 : row) (st2 : state) :
  process cfg st [r1; r2] = Some st2 ->
  exists st1, step cfg st r1 = Some st1 /\ step cfg st1 r2 = Some st2.
Proof.
  simpl. destruct (step cfg st r1) as [st1|]; [|discriminate].
  destruct (step cfg st1 r2) as [st2'|] eqn:E2; [|discriminate].
  intros [= <-]. exists st1. split; [reflexivity|exact E2].
Qed.

(** The same bout on two stores that rate everybody alike. *)
Lemma step_plays_agree (cfg : EloConfig) (st st' t t' : state) (r r' : row)
    (x y : str) (s : R) :
  plays r x y s -> plays r' x y s -> x <> y ->
  default 1%R (method_multiplier r) = default 1%R (method_multiplier r') ->
  (forall k, rating_of cfg st k = rating_of cfg st' k) ->
  step cfg st r = Some t -> step cfg st' r' = Some t' ->
  forall k, rating_of cfg t k = rating_of cfg t' k.
Proof.
  intros Hp Hp' Hne Hm Heq Ht Ht' k.
  rewrite (step_plays cfg st t r x y s Hp Hne Ht).
  rewrite (step_plays cfg st' t' r' x y s Hp' Hne Ht').
  unfold gain. rewrite Hm, !Heq. reflexivity.
Qed.

(** How a level draw reads from one side. *)
Lemma plays_level_draw (cfg : EloConfig) (st : state) (r : row) (x y : str)
    (s : R) :
  plays r x y s ->
  level_draw cfg st r
  <-> (s = 1 / 2)%R /\ rating_of cfg st x = rating_of cfg st y.
Proof.
  intros Hp. pose proof (plays_score _ _ _ _ Hp) as Hs. unfold level_draw.
  destruct Hp as [s' [ (Ho & <- & <-) | (Ho & <- & <-) ] ];
    pose proof (outcome_scores_sum _ _ _ Ho) as Hsum; rewrite Ho.
  - split.
    + intros [ [= -> ->] Hr]. split; [lra|exact Hr].
    + intros [-> Hr]. split; [|exact Hr]. f_equal. f_equal; lra.
  - split.
    + intros [ [= -> ->] Hr]. split; [lra|symmetry; exact Hr].
    + intros [-> Hr]. split; [|symmetry; exact Hr]. f_equal. f_equal; lra.
Qed.

(** A level draw moves no rating. *)
Lemma step_level_draw (cfg : EloConfig) (st st' : state) (r : row) :
  level_draw cfg st r -> fid_of r side_a <> fid_of r side_b ->
  step cfg st r = Some st' ->
  forall k, rating_of cfg st' k = rating_of cfg st k.
Proof.
  intros Hl Hne Hstep k.
  assert (Hp : plays r (fid_of r side_a) (fid_of r side_b) 0.5%R).
  { exists 0.5%R. left. destruct Hl as [Ho _]. auto. }
  rewrite (step_plays cfg st st' r _ _ _ Hp Hne Hstep).
  destruct Hl as [_ Hr]. unfold gain. rewrite Hr, Rminus_diag, expected_zero.
  repeat match goal with |- context [decide ?P] => destruct (decide P) end;
    subst; lra.
Qed.

Lemma level_draw_agree (cfg : EloConfig) (st st' : state) (r : row) :
  (forall k, rating_of cfg st' k = rating_of cfg st k) ->
  level_draw cfg st r -> level_draw cfg st' r.
Proof. intros H [Ho Hr]. split; [exact Ho|]. rewrite !H. exact Hr. Qed.

(** Two bouts between the same two competitors, equally rated before: the
    two orders agree on the rating of [x] only when both are draws or the
    results and the sensitivities are the same. *)
Lemma rematch_differs (sc k1 k2 s1 s2 rho : R) :
  (0 < sc)%R -> (0 < k1)%R -> (0 < k2)%R ->
  (s1 = 1 \/ s1 = 0 \/ s1 = 1 / 2)%R ->
  (s2 = 1 \/ s2 = 0 \/ s2 = 1 / 2)%R ->
  ~ (s1 = 1 / 2 /\ s2 = 1 / 2)%R ->
  ~ (k1 = k2 /\ s1 = s2) ->
  (rho + k1 * (s1 - 1 / 2)
   + k2 * (s2 - expected sc ((rho - k1 * (s1 - 1 / 2))
                             - (rho + k1 * (s1 - 1 / 2)))))%R
  <> (rho + k2 * (s2 - 1 / 2)
      + k1 * (s1 - expected sc ((rho - k2 * (s2 - 1 / 2))
                                - (rho + k2 * (s2 - 1 / 2)))))%R.
Proof.
  intros Hsc H1 H2 Hs1 Hs2 Hdraws Hsame.
  assert (Hcompl : forall d,
             (expected sc d - 1 / 2 = - (expected sc (- d) - 1 / 2))%R).
  { intros d. rewrite (expected_compl sc d) by lra. lra. }
  assert (Hpos : forall d, (0 < d)%R -> (0 < expected sc (- d) - 1 / 2)%R).
  { intros d Hd.
    pose proof (expected_decreasing sc (- d) 0 Hsc ltac:(lra)) as H.
    rewrite expected_zero in H. lra. }
  destruct Hs1 as [ -> | [ -> | -> ] ]; destruct Hs2 as [ -> | [ -> | -> ] ].
  - (* both won by x *)
    replace (rho - k1 * (1 - 1 / 2) - (rho + k1 * (1 - 1 / 2)))%R
      with (- k1)%R by lra.
    replace (rho - k2 * (1 - 1 / 2) - (rho + k2 * (1 - 1 / 2)))%R
      with (- k2)%R by lra.
    assert (Hne : k1 <> k2) by (intros e; apply Hsame; auto).
    pose proof (expected_chord_ne sc k1 k2 Hsc H1 H2 Hne). lra.
  - (* x wins the first and loses the second *)
    replace (rho - k1 * (1 - 1 / 2) - (rho + k1 * (1 - 1 / 2)))%R
      with (- k1)%R by lra.
    replace (rho - k2 * (0 - 1 / 2) - (rho + k2 * (0 - 1 / 2)))%R
      with k2 by lra.
    pose proof (Hpos k1 H1). pose proof (Hpos k2 H2).
    pose proof (Hcompl k2). nra.
  - replace (rho - k1 * (1 - 1 / 2) - (rho + k1 * (1 - 1 / 2)))%R
      with (- k1)%R by lra.
    replace (rho - k2 * (1 / 2 - 1 / 2) - (rho + k2 * (1 / 2 - 1 / 2)))%R
      with 0%R by lra.
    rewrite expected_zero. pose proof (Hpos k1 H1). nra.
  - replace (rho - k1 * (0 - 1 / 2) - (rho + k1 * (0 - 1 / 2)))%R
      with k1 by lra.
    replace (rho - k2 * (1 - 1 / 2) - (rho + k2 * (1 - 1 / 2)))%R
      with (- k2)%R by lra.
    pose proof (Hpos k1 H1). pose proof (Hpos k2 H2).
    pose proof (Hcompl k1). nra.
  - (* both lost by x *)
    replace (rho - k1 * (0 - 1 / 2) - (rho + k1 * (0 - 1 / 2)))%R
      with k1 by lra.
    replace (rho - k2 * (0 - 1 / 2) - (rho + k2 * (0 - 1 / 2)))%R
      with k2 by lra.
    assert (Hne : k1 <> k2) by (intros e; apply Hsame; auto).
    pose proof (expected_chord_ne sc k1 k2 Hsc H1 H2 Hne) as Hch.
    assert (E1 : expected sc k1 = (1 - expected sc (- k1))%R)
      by (pose proof (Hcompl k1); lra).
    assert (E2 : expected sc k2 = (1 - expected sc (- k2))%R)
      by (pose proof (Hcompl k2); lra).
    rewrite E1, E2. intros Heq. apply Hch. lra.
  - replace (rho - k1 * (0 - 1 / 2) - (rho + k1 * (0 - 1 / 2)))%R
      with k1 by lra.
    replace (rho - k2 * (1 / 2 - 1 / 2) - (rho + k2 * (1 / 2 - 1 / 2)))%R
      with 0%R by lra.
    rewrite expected_zero. pose proof (Hpos k1 H1). pose proof (Hcompl k1).
    nra.
  - replace (rho - k1 * (1 / 2 - 1 / 2) - (rho + k1 * (1 / 2 - 1 / 2)))%R
      with 0%R by lra.
    replace (rho - k2 * (1 - 1 / 2) - (rho + k2 * (1 - 1 / 2)))%R
      with (- k2)%R by lra.
    rewrite expected_zero. pose proof (Hpos k2 H2). nra.
  - replace (rho - k1 * (1 / 2 - 1 / 2) - (rho + k1 * (1 / 2 - 1 / 2)))%R
      with 0%R by lra.
    replace (rho - k2 * (0 - 1 / 2) - (rho + k2 * (0 - 1 / 2)))%R
      with k2 by lra.
    rewrite expected_zero. pose proof (Hpos k2 H2). pose proof (Hcompl k2).
    nra.
  - exfalso. apply Hdraws. auto.
Qed.

(** Two bouts between the same two competitors, the first won by [x] and
    the second lost by [x]: whatever the two ratings were, [x] ends lower
    when the win comes first. *)
Lemma opposite_winners_differ (sc k1 k2 rx ry : R) :
  (0 < sc)%R -> (0 < k1)%R -> (0 < k2)%R ->
  (rx + k1 * (1 - expected sc (ry - rx))
   + k2 * (0 - expected sc ((ry - k1 * (1 - expected sc (ry - rx)))
                            - (rx + k1 * (1 - expected sc (ry - rx)))))
   < rx + k2 * (0 - expected sc (ry - rx))
     + k1 * (1 - expected sc ((ry - k2 * (0 - expected sc (ry - rx)))
                              - (rx + k2 * (0 - expected sc (ry - rx))))))%R.
Proof.
  intros Hsc H1 H2.
  pose proof (expected_bounds sc (ry - rx)) as Hb.
  set (e := expected sc (ry - rx)) in *.
  assert (Hg1 : (0 < k1 * (1 - e))%R) by (apply Rmult_lt_0_compat; lra).
  assert (Hg2 : (0 < k2 * e)%R) by (apply Rmult_lt_0_compat; lra).
  assert (Hup : (e < expected sc ((ry - k1 * (1 - e)) - (rx + k1 * (1 - e))))%R).
  { apply expected_decreasing; [exact Hsc|]. lra. }
  assert (Hdown : (expected sc ((ry - k2 * (0 - e)) - (rx + k2 * (0 - e)))
                   < e)%R).
  { apply expected_decreasing; [exact Hsc|]. lra. }
  set (e1 := expected sc ((ry - k1 * (1 - e)) - (rx + k1 * (1 - e)))) in *.
  set (e2 := expected sc ((ry - k2 * (0 - e)) - (rx + k2 * (0 - e)))) in *.
  assert (Ha : (0 < k2 * (e1 - e))%R) by (apply Rmult_lt_0_compat; lra).
  assert (Hb' : (0 < k1 * (e - e2))%R) by (apply Rmult_lt_0_compat; lra).
  lra.
Qed.

(** Two bouts that share the competitor [x] only: when the first one moves
    the rating of [x], the opponent of [x] in the second one ends with
    different ratings in the two orders. *)
Lemma shared_one_differs (cfg : EloConfig) (st st1 st12 st2 st21 : state)
    (r1 r2 : row) (x y z : str) (s1 s2 : R) :
  (0 < K cfg)%R -> (0 < scale cfg)%R ->
  (0 < default 1%R (method_multiplier r2))%R ->
  plays r1 x y s1 -> plays r2 x z s2 -> x <> y -> x <> z -> y <> z ->
  step cfg st r1 = Some st1 -> step cfg st1 r2 = Some st12 ->
  step cfg st r2 = Some st2 -> step cfg st2 r1 = Some st21 ->
  gain cfg st r1 x y s1 <> 0%R ->
  rating_of cfg st12 z <> rating_of cfg st21 z.
Proof.
  intros HK Hsc Hm P1 P2 Hxy Hxz Hyz S1 S12 S2 S21 Hg.
  rewrite (step_plays cfg st1 st12 r2 x z s2 P2 Hxz S12 z).
  rewrite (step_plays cfg st2 st21 r1 x y s1 P1 Hxy S21 z).
  rewrite (step_plays cfg st st2 r2 x z s2 P2 Hxz S2 z).
  destruct (decide (z = x)) as [e|_]; [congruence|].
  destruct (decide (z = z)) as [_|n]; [|congruence].
  destruct (decide (z = y)) as [e|_]; [congruence|].
  unfold gain.
  rewrite (step_plays cfg st st1 r1 x y s1 P1 Hxy S1 z).
  rewrite (step_plays cfg st st1 r1 x y s1 P1 Hxy S1 x).
  destruct (decide (z = x)) as [e|_]; [congruence|].
  destruct (decide (z = y)) as [e|_]; [congruence|].
  destruct (decide (x = x)) as [_|n]; [|congruence].
  set (g := gain cfg st r1 x y s1) in *.
  set (k2 := (K cfg * default 1 (method_multiplier r2))%R).
  assert (Hk2 : (0 < k2)%R) by (apply Rmult_lt_0_compat; assumption).
  intros Heq.
  assert (He : expected (scale cfg)
                 (rating_of cfg st z - (rating_of cfg st x + g))
               = expected (scale cfg) (rating_of cfg st z - rating_of cfg st x)).
  { apply (Rmult_eq_reg_l k2); [|lra]. lra. }
  apply expected_inj in He; [|exact Hsc]. apply Hg. lra.
Qed.

Lemma plays_distinct (r : row) (x y : str) (s : R) :
  plays r x y s -> fid_of r side_a <> fid_of r side_b -> x <> y.
Proof.
  intros Hp Hne.
  destruct (plays_sides _ _ _ _ Hp) as [ [<- <-] | [<- <-] ];
    [exact Hne|apply not_eq_sym, Hne].
Qed.

Lemma plays_ratings (cfg : EloConfig) (st : state) (r : row) (x y : str)
    (s : R) :
  plays r x y s ->
  rating_of cfg st (fid_of r side_a) = rating_of cfg st (fid_of r side_b) ->
  rating_of cfg st x = rating_of cfg st y.
Proof.
  intros Hp H.
  destruct (plays_sides _ _ _ _ Hp) as [ [<- <-] | [<- <-] ]; auto.
Qed.

(** C8, as the code has it.  In the exact arithmetic of the embedding, with
    positive K, scale and multipliers, take two rated bouts, each between
    two different competitors, with a competitor in common, and run them
    in both orders from the same store [st] (the empty store of a fresh
    run, or any other).  Suppose both orders complete.
    - If the two bouts are between the same two competitors with the same
      result for each and the same multiplier, or if both are draws
      between competitors that [st] rates equally, the two orders give
      every competitor the same rating.
    - In every other case some competitor ends with different ratings in
      the two orders, provided that, when the two bouts are between the
      same two competitors, [st] rates these two equally (as it does on a
      fresh run, where everybody starts from the base rating).
    - Without that proviso: two bouts between the same two competitors
      that are won by different competitors leave some competitor with
      different ratings in the two orders. *)
Theorem C8_order_of_two_bouts
    (cfg : EloConfig) (st : state) (r1 r2 : row) (st12 st21 : state) :
  (0 < K cfg)%R -> (0 < scale cfg)%R ->
  (0 < default 1%R (method_multiplier r1))%R ->
  (0 < default 1%R (method_multiplier r2))%R ->
  rated r1 -> rated r2 ->
  fid_of r1 side_a <> fid_of r1 side_b ->
  fid_of r2 side_a <> fid_of r2 side_b ->
  overlapping r1 r2 ->
  process cfg st [r1; r2] = Some st12 ->
  process cfg st [r2; r1] = Some st21 ->
  (same_match r1 r2 \/ (level_draw cfg st r1 /\ level_draw cfg st r2) ->
   forall fid, rating_of cfg st12 fid = rating_of cfg st21 fid)
  /\ ((same_pair r1 r2 ->
       rating_of cfg st (fid_of r1 side_a)
       = rating_of cfg st (fid_of r1 side_b)) ->
      ~ (same_match r1 r2 \/ (level_draw cfg st r1 /\ level_draw cfg st r2)) ->
      exists fid, rating_of cfg st12 fid <> rating_of cfg st21 fid)
  /\ (forall x y,
        plays r1 x y 1 -> plays r2 x y 0 ->
        exists fid, rating_of cfg st12 fid <> rating_of cfg st21 fid).
Proof.
  intros HK Hsc Hm1 Hm2 Hr1 Hr2 Hd1 Hd2 Hov H12 H21.
  destruct (process_two _ _ _ _ _ H12) as (st1 & S1 & S12).
  destruct (process_two _ _ _ _ _ H21) as (st2 & S2 & S21).
  split; [|split].
  - intros [ (Hm & x & y & s & P1 & P2) | (L1 & L2) ] fid.
    + pose proof (plays_distinct _ _ _ _ P1 Hd1) as Hxy.
      apply (step_plays_agree cfg st1 st2 st12 st21 r2 r1 x y s P2 P1 Hxy);
        [symmetry; exact Hm| |exact S12|exact S21].
      apply (step_plays_agree cfg st st st1 st2 r1 r2 x y s P1 P2 Hxy);
        [exact Hm|reflexivity|exact S1|exact S2].
    + pose proof (step_level_draw cfg st st1 r1 L1 Hd1 S1) as E1.
      pose proof (step_level_draw cfg st st2 r2 L2 Hd2 S2) as E2.
      rewrite (step_level_draw cfg st1 st12 r2
                 (level_draw_agree cfg st st1 r2 E1 L2) Hd2 S12).
      rewrite (step_level_draw cfg st2 st21 r1
                 (level_draw_agree cfg st st2 r1 E2 L1) Hd1 S21).
      rewrite E1, E2. reflexivity.
  - intros Hpair Hnot.
    destruct Hov as (sd1 & sd2 & Hx).
    destruct (rated_plays r1 sd1 Hr1) as (y & s1 & P1 & _).
    destruct (rated_plays r2 sd2 Hr2) as (z & s2 & P2 & _).
    rewrite <- Hx in P2. set (x := fid_of r1 sd1) in *. clearbody x.
    pose proof (plays_distinct _ _ _ _ P1 Hd1) as Hxy.
    pose proof (plays_distinct _ _ _ _ P2 Hd2) as Hxz.
    pose proof (plays_score _ _ _ _ P1) as Hs1.
    pose proof (plays_score _ _ _ _ P2) as Hs2.
    destruct (decide (y = z)) as [<-|Hyz].
    + (* the same two competitors *)
      assert (Hrho : rating_of cfg st x = rating_of cfg st y).
      { apply (plays_ratings cfg st r1 x y s1 P1), Hpair.
        exists x, y, s1, s2. auto. }
      exists x.
      rewrite (step_plays cfg st1 st12 r2 x y s2 P2 Hxy S12 x).
      rewrite (step_plays cfg st2 st21 r1 x y s1 P1 Hxy S21 x).
      destruct (decide (x = x)) as [_|n]; [|congruence].
      unfold gain at 1 2.
      rewrite (step_plays cfg st st1 r1 x y s1 P1 Hxy S1 x).
      rewrite (step_plays cfg st st1 r1 x y s1 P1 Hxy S1 y).
      rewrite (step_plays cfg st st2 r2 x y s2 P2 Hxy S2 x).
      rewrite (step_plays cfg st st2 r2 x y s2 P2 Hxy S2 y).
      destruct (decide (x = x)) as [_|n]; [|congruence].
      destruct (decide (y = x)) as [e|_]; [congruence|].
      destruct (decide (y = y)) as [_|n]; [|congruence].
      unfold gain. rewrite <- Hrho, Rminus_diag, expected_zero.
      set (k1 := (K cfg * default 1 (method_multiplier r1))%R).
      set (k2 := (K cfg * default 1 (method_multiplier r2))%R).
      apply rematch_differs; try assumption.
      * apply Rmult_lt_0_compat; assumption.
      * apply Rmult_lt_0_compat; assumption.
      * intros [-> ->]. apply Hnot. right.
        split; [apply (plays_level_draw cfg st r1 x y _ P1)
               |apply (plays_level_draw cfg st r2 x y _ P2)]; auto.
      * intros [Hk ->]. apply Hnot. left. split.
        -- unfold k1, k2 in Hk. apply (Rmult_eq_reg_l (K cfg)); [exact Hk|lra].
        -- exists x, y, s2. auto.
    + (* one competitor in common *)
      destruct (Req_dec (gain cfg st r1 x y s1) 0) as [G1|G1].
      * destruct (Req_dec (gain cfg st r2 x z s2) 0) as [G2|G2].
        -- exfalso. apply Hnot. right. split.
           ++ apply (plays_level_draw cfg st r1 x y s1 P1).
              apply (gain_zero cfg st r1 x y s1); assumption.
           ++ apply (plays_level_draw cfg st r2 x z s2 P2).
              apply (gain_zero cfg st r2 x z s2); assumption.
        -- exists y. apply not_eq_sym.
           apply (shared_one_differs cfg st st2 st21 st1 st12 r2 r1 x z y s2 s1);
             auto.
      * exists z.
        apply (shared_one_differs cfg st st1 st12 st2 st21 r1 r2 x y z s1 s2);
          auto.
  - intros x y P1 P2.
    pose proof (plays_distinct _ _ _ _ P1 Hd1) as Hxy.
    exists x.
    rewrite (step_plays cfg st1 st12 r2 x y 0 P2 Hxy S12 x).
    rewrite (step_plays cfg st2 st21 r1 x y 1 P1 Hxy S21 x).
    destruct (decide (x = x)) as [_|n]; [|congruence].
    unfold gain at 1 2.
    rewrite (step_plays cfg st st1 r1 x y 1 P1 Hxy S1 x).
    rewrite (step_plays cfg st st1 r1 x y 1 P1 Hxy S1 y).
    rewrite (step_plays cfg st st2 r2 x y 0 P2 Hxy S2 x).
    rewrite (step_plays cfg st st2 r2 x y 0 P2 Hxy S2 y).
    destruct (decide (x = x)) as [_|n]; [|congruence].
    destruct (decide (y = x)) as [e|_]; [congruence|].
    destruct (decide (y = y)) as [_|n]; [|congruence].
    unfold gain.
    apply Rlt_not_eq, opposite_winners_differ; [exact Hsc| |];
      apply Rmult_lt_0_compat; assumption.
Qed.

(* ===================================================================== *)
(** * The peak extractor *)
(* ===================================================================== *)

Lemma str_compare_spec (a b : str) :
  match str_compare a b with
  | Lt => lexico a b
  | Eq => a = b
  | Gt => lexico b a
  end.
Proof.
  unfold str_compare, str_ltb.
  destruct (bool_decide_reflect (lexico a b)) as [H|H]; [exact H|].
  destruct (bool_decide_reflect (lexico b a)) as [H'|H']; [exact H'|].
  destruct (trichotomy lexico a b) as [?|[?|?]]; [contradiction|assumption|contradiction].
Qed.

Lemma lexico_irrefl (a : str) : ~ lexico a a.
Proof. apply (irreflexivity lexico). Qed.

Lemma lexico_trans (a b c : str) : lexico a b -> lexico b c -> lexico a c.
Proof. apply (transitivity (R := lexico)). Qed.

Lemma compare_na_date (a b : option Z) :
  compare_na Z.compare a b <> Gt <-> date_le a b.
Proof.
  destruct a as [x|], b as [y|]; simpl; try (split; [auto|discriminate]).
  - apply Z.compare_le_iff.
  - split; [intros H; apply H; reflexivity|tauto].
Qed.

Lemma date_le_trans (a b c : option Z) :
  date_le a b -> date_le b c -> date_le a c.
Proof. destruct a, b, c; simpl; try tauto; lia. Qed.

Lemma date_le_total (a b : option Z) : date_le a b \/ date_le b a.
Proof. destruct a, b; simpl; try tauto; lia. Qed.

Lemma long_leb_le (x y : long_row) : long_leb x y = true <-> long_le x y.
Proof.
  unfold long_leb, long_le.
  pose proof (str_compare_spec (l_fighter_id x) (l_fighter_id y)) as Hc.
  destruct (str_compare (l_fighter_id x) (l_fighter_id y)).
  - destruct (decide (l_post_rating y < l_post_rating x)%R) as [H1|H1];
      [split; auto|].
    destruct (decide (l_post_rating x < l_post_rating y)%R) as [H2|H2].
    + split; [discriminate|].
      intros [H|(_ & [H|(H & _)])]; [|lra|lra].
      rewrite Hc in H. destruct (lexico_irrefl _ H).
    + pose proof (compare_na_date (l_DATE x) (l_DATE y)) as Hd.
      destruct (compare_na Z.compare (l_DATE x) (l_DATE y)).
      * split; [|reflexivity]. intros _. right. split; [exact Hc|]. right.
        split; [lra|]. apply Hd. discriminate.
      * split; [|reflexivity]. intros _. right. split; [exact Hc|]. right.
        split; [lra|]. apply Hd. discriminate.
      * split; [discriminate|].
        intros [H|(_ & [H|(_ & H)])]; [| lra |].
        -- rewrite Hc in H. destruct (lexico_irrefl _ H).
        -- apply Hd in H. congruence.
  - split; auto.
  - split; [discriminate|].
    intros [H|(H & _)].
    + destruct (lexico_irrefl _ (lexico_trans _ _ _ H Hc)).
    + rewrite H in Hc. destruct (lexico_irrefl _ Hc).
Qed.

Lemma long_le_total (x y : long_row) : long_le x y \/ long_le y x.
Proof.
  unfold long_le.
  destruct (trichotomy lexico (l_fighter_id x) (l_fighter_id y)) as [H|[H|H]];
    [auto| |auto].
  destruct (Rtotal_order (l_post_rating x) (l_post_rating y)) as [H1|[H1|H1]].
  - right. right. auto.
  - destruct (date_le_total (l_DATE x) (l_DATE y)).
    + left. right. auto.
    + right. right. split; [auto|]. right. auto.
  - left. right. auto.
Qed.

Lemma long_le_trans (x y z : long_row) :
  long_le x y -> long_le y z -> long_le x z.
Proof.
  unfold long_le.
  intros [H1|(E1 & H1)] [H2|(E2 & H2)].
  - left. eapply lexico_trans; eassumption.
  - left. rewrite <- E2. exact H1.
  - left. rewrite E1. exact H2.
  - right. split; [congruence|].
    destruct H1 as [H1|(H1 & D1)], H2 as [H2|(H2 & D2)].
    + left. lra.
    + left. lra.
    + left. lra.
    + right. split; [lra|]. eapply date_le_trans; eassumption.
Qed.

Lemma long_le_refl (x : long_row) : long_le x x.
Proof.
  right. split; [reflexivity|]. right. split; [reflexivity|].
  destruct (l_DATE x); simpl; [lia|exact I].
Qed.

Lemma sort_long_sorted (l : list long_row) :
  StronglySorted long_le (sort_by long_leb l).
Proof.
  eapply StronglySorted_impl; [|apply sort_by_sorted].
  - intros x y. apply long_leb_le.
  - intros x y. rewrite !long_leb_le. apply long_le_total.
  - intros x y z. rewrite !long_leb_le. apply long_le_trans.
Qed.

Lemma drop_duplicates_In (seen : gset str) (l : list long_row) (x : long_row) :
  In x (drop_duplicates seen l) -> In x l /\ l_fighter_id x ∉ seen.
Proof.
  revert seen. induction l as [|y t IH]; intros seen; simpl; [tauto|].
  destruct (decide (l_fighter_id y ∈ seen)) as [Hy|Hy].
  - intros H. apply IH in H as [H1 H2]. auto.
  - intros [<-|H]; [auto|]. apply IH in H as [H1 H2]. split; [auto|].
    intros Hs. apply H2, elem_of_union. right. exact Hs.
Qed.

(** The row kept for a competitor precedes all their rows in the sorted
    table. *)
Lemma drop_duplicates_first (seen : gset str) (l : list long_row) (x : long_row) :
  StronglySorted long_le l ->
  In x (drop_duplicates seen l) ->
  forall y, In y l -> l_fighter_id y = l_fighter_id x -> long_le x y.
Proof.
  intros Hs. revert seen. induction Hs as [|z t Hs IH Hall]; intros seen;
    simpl; [tauto|].
  rewrite List.Forall_forall in Hall.
  destruct (decide (l_fighter_id z ∈ seen)) as [Hz|Hz].
  - intros Hx y [<-|Hy] Hid.
    + apply drop_duplicates_In in Hx as [_ Hx]. congruence.
    + eapply IH; eassumption.
  - intros [<-|Hx] y [<-|Hy] Hid.
    + apply long_le_refl.
    + apply Hall, Hy.
    + apply drop_duplicates_In in Hx as [_ Hx]. set_solver.
    + eapply IH; eassumption.
Qed.

Lemma drop_duplicates_covers (seen : gset str) (l : list long_row) (y : long_row) :
  In y l -> l_fighter_id y ∉ seen ->
  exists x, In x (drop_duplicates seen l) /\ l_fighter_id x = l_fighter_id y.
Proof.
  revert seen. induction l as [|z t IH]; intros seen; simpl; [tauto|].
  intros [<-|Hy] Hn.
  - destruct (decide (l_fighter_id z ∈ seen)); [contradiction|].
    exists z. simpl. auto.
  - destruct (decide (l_fighter_id z ∈ seen)) as [Hz|Hz]; [apply IH; auto|].
    destruct (decide (l_fighter_id y = l_fighter_id z)) as [E|E].
    + exists z. simpl. auto.
    + destruct (IH ({[l_fighter_id z]} ∪ seen) Hy) as (x & Hx & Hid);
        [rewrite elem_of_union, elem_of_singleton; tauto|].
      exists x. simpl. auto.
Qed.

Lemma drop_duplicates_NoDup (seen : gset str) (l : list long_row) :
  List.NoDup (map l_fighter_id (drop_duplicates seen l)).
Proof.
  revert seen. induction l as [|z t IH]; intros seen; simpl; [constructor|].
  destruct (decide (l_fighter_id z ∈ seen)); [apply IH|].
  simpl. constructor; [|apply IH].
  intros H. apply in_map_iff in H as (x & Hid & Hx).
  apply drop_duplicates_In in Hx as [_ Hx]. set_solver.
Qed.

Lemma peak_desc_total (x y : peak_row) :
  peak_desc x y = true \/ peak_desc y x = true.
Proof.
  unfold peak_desc.
  destruct (Rle_dec (peak_rating y) (peak_rating x)) as [H|H].
  - left. apply bool_decide_eq_true_2, H.
  - right. apply bool_decide_eq_true_2. lra.
Qed.

Lemma peak_desc_trans (x y z : peak_row) :
  peak_desc x y = true -> peak_desc y z = true -> peak_desc x z = true.
Proof.
  unfold peak_desc. rewrite !bool_decide_eq_true. lra.
Qed.

(** The rows of the long table are the ratings the ledger attributes. *)
Lemma build_long_entry (hist : list audit) (x : long_row) :
  In x (build_long_from_history hist) ->
  entry hist (l_fighter_id x) (l_DATE x) (l_EVENT x) (l_BOUT x)
    (l_post_rating x).
Proof.
  unfold build_long_from_history. rewrite in_app_iff, !in_map_iff.
  intros [(h & <- & Hh)|(h & <- & Hh)]; exists h; simpl; auto 10.
Qed.

Lemma entry_build_long (hist : list audit) (fid : str)
    (d : option Z) (ev bt : str) (post : R) :
  entry hist fid d ev bt post ->
  exists x, In x (build_long_from_history hist)
            /\ l_fighter_id x = fid /\ l_DATE x = d /\ l_post_rating x = post.
Proof.
  intros (h & Hh & <- & <- & <- & [(<- & <-)|(<- & <-)]).
  - exists (long_of (h_DATE h) (h_EVENT h) (h_BOUT h) (fighter_a_id h)
              (h_fighter_a_name h) (pre_rating_a h) (post_rating_a h)).
    split; [|simpl; auto].
    unfold build_long_from_history. apply in_app_iff. left.
    apply in_map_iff. exists h. split; [reflexivity|exact Hh].
  - exists (long_of (h_DATE h) (h_EVENT h) (h_BOUT h) (fighter_b_id h)
              (h_fighter_b_name h) (pre_rating_b h) (post_rating_b h)).
    split; [|simpl; auto].
    unfold build_long_from_history. apply in_app_iff. right.
    apply in_map_iff. exists h. split; [reflexivity|exact Hh].
Qed.

Lemma compute_peak_In (long_df : list long_row) (p : peak_row) :
  In p (compute_peak long_df) <->
  exists x, In x (drop_duplicates ∅ (sort_by long_leb long_df)) /\ p = peak_of x.
Proof.
  unfold compute_peak. rewrite sort_by_In, in_map_iff.
  split; intros (x & H1 & H2); exists x; auto.
Qed.

(** C3: for a competitor of the ledger the peak table has a row, and only
    one; its rating is the greatest post-update rating the ledger
    attributes to the competitor; its date, event and bout are those of an
    entry with that rating, and no entry with that rating has an earlier
    date (a missing date counts as latest); the table is in descending
    order of peak rating. *)
Theorem C3_peak_is_earliest_maximum
    (hist : list audit) (fid : str) (d0 : option Z) (ev0 bt0 : str) (post0 : R) :
  entry hist fid d0 ev0 bt0 post0 ->
  let peaks := compute_peak (build_long_from_history hist) in
  StronglySorted (fun p q => (peak_rating q <= peak_rating p)%R) peaks
  /\ List.NoDup (map k_fighter_id peaks)
  /\ exists p,
       In p peaks /\ k_fighter_id p = fid
       /\ entry hist fid (peak_date p) (peak_event p) (peak_bout p)
            (peak_rating p)
       /\ forall d ev bt post,
            entry hist fid d ev bt post ->
            (post <= peak_rating p)%R
            /\ (post = peak_rating p -> date_le (peak_date p) d).
Proof.
  intros Hentry peaks.
  set (long_df := build_long_from_history hist) in *.
  set (sorted := sort_by long_leb long_df).
  split; [|split].
  - unfold peaks, compute_peak.
    eapply StronglySorted_impl;
      [|apply sort_by_sorted; [apply peak_desc_total|apply peak_desc_trans]].
    intros x y H. unfold peak_desc in H. apply bool_decide_eq_true in H.
    exact H.
  - unfold peaks, compute_peak.
    eapply Permutation_NoDup;
      [symmetry; apply Permutation_map, sort_by_perm|].
    rewrite map_map. simpl. apply drop_duplicates_NoDup.
  - destruct (entry_build_long _ _ _ _ _ _ Hentry) as (y0 & Hy0 & Hid0 & _).
    destruct (drop_duplicates_covers ∅ sorted y0) as (x & Hx & Hidx).
    { apply sort_by_In, Hy0. }
    { set_solver. }
    exists (peak_of x). split; [apply compute_peak_In; eauto|].
    split; [simpl; congruence|].
    assert (Hxin : In x long_df).
    { apply drop_duplicates_In in Hx as [Hx _].
      apply (sort_by_In long_leb), Hx. }
    split.
    { pose proof (build_long_entry _ _ Hxin) as He.
      rewrite Hidx, Hid0 in He. exact He. }
    intros d ev bt post He.
    destruct (entry_build_long _ _ _ _ _ _ He) as (y & Hy & Hidy & Hdy & Hpy).
    assert (Hle : long_le x y).
    { eapply drop_duplicates_first;
        [apply sort_long_sorted | exact Hx | apply sort_by_In, Hy | congruence]. }
    simpl. subst d post.
    destruct Hle as [Hlt|(_ & [Hlt|(Heq & Hd)])].
    + exfalso. rewrite Hidx, Hid0, Hidy in Hlt. exact (lexico_irrefl _ Hlt).
    + split; [lra|]. intros; lra.
    + split; [lra|]. intros _. exact Hd.
Qed.

(* ===================================================================== *)
(** * The theorems at concrete inputs *)
(* ===================================================================== *)

(** C2 on the scorecards "47 - 48,49 - 46,47 - 48" of a unanimous
    decision: the margins are 1, 3, 1 and the bout is dominant. *)
Lemma C2_witness :
  classify_row 1.2%R 1.1%R 1%R unanimous_wide
  = (decision_dominant, 1.1%R, details_any_margin_ge_3, lit "1,3,1").
Proof.
  refine (proj1 (C2_decision_margins 1.2%R 1.1%R 1%R unanimous_wide _ _ _ _ _) _).
  - vm_compute. discriminate.
  - vm_compute. discriminate.
  - vm_compute. reflexivity.
  - vm_compute. reflexivity.
  - vm_compute. reflexivity.
  - exists 3%Z. split; [vm_compute; auto|lia].
Defined.

(** C7 on a split decision with three 50 - 45 cards. *)
Lemma C7_witness :
  exists b,
    classify_row 1.2%R 1.1%R 1%R split_wide = (decision_normal, 1%R, b, [])
    /\ (b = method_split \/ b = method_majority).
Proof.
  apply (C7_split_majority_normal 1.2%R 1.1%R 1%R split_wide).
  - vm_compute. discriminate.
  - vm_compute. discriminate.
  - vm_compute. reflexivity.
  - left. vm_compute. reflexivity.
Defined.

(** C3 on a ledger of two bouts of "a" against "b". *)
Lemma C3_witness :
  let peaks := compute_peak (build_long_from_history two_bout_ledger) in
  StronglySorted (fun p q => (peak_rating q <= peak_rating p)%R) peaks
  /\ List.NoDup (map k_fighter_id peaks)
  /\ exists p,
       In p peaks /\ k_fighter_id p = lit "a"
       /\ entry two_bout_ledger (lit "a") (peak_date p) (peak_event p)
            (peak_bout p) (peak_rating p)
       /\ forall d ev bt post,
            entry two_bout_ledger (lit "a") d ev bt post ->
            (post <= peak_rating p)%R
            /\ (post = peak_rating p -> date_le (peak_date p) d).
Proof.
  apply (C3_peak_is_earliest_maximum two_bout_ledger (lit "a") (Some 1%Z)
           (lit "UFC 1") (lit "a vs. b") 1514.4%R).
  exists (ledger_row 1 "a" "b" 1500 1500 1514.4 1485.6).
  split; [left; reflexivity|].
  repeat split. left. split; reflexivity.
Defined.

(** C4 on the finish of [ko_row], from the empty store. *)
Lemma C4_witness :
  exists st' rec,
    step default_config init_state ko_row = Some st'
    /\ history_rows st' = history_rows init_state ++ [rec]
    /\ pre_rating_a rec = rating_of default_config init_state (fid_of ko_row side_a)
    /\ pre_rating_b rec = rating_of default_config init_state (fid_of ko_row side_b)
    /\ (post_rating_a rec + post_rating_b rec
        = pre_rating_a rec + pre_rating_b rec)%R
    /\ (post_rating_b rec - pre_rating_b rec
        = - (post_rating_a rec - pre_rating_a rec))%R.
Proof.
  apply (C4_update_is_zero_sum default_config init_state ko_row 1%R 0%R).
  - simpl. lra.
  - reflexivity.
Defined.

(** C5 on a no-contest, written " NC ". *)
Lemma C5_witness :
  step default_config init_state nc_row = Some init_state
  /\ forall rest,
       process default_config init_state (nc_row :: rest)
       = process default_config init_state rest.
Proof.
  apply (C5_unresolved_outcome_skipped default_config init_state nc_row).
  left. reflexivity.
Defined.

Lemma ko_row_rated : rated ko_row.
Proof.
  unfold rated.
  change (outcome_scores (py_str (winner_label ko_row))) with (Some (1, 0)%R).
  discriminate.
Qed.

(** C6 on a finish followed by a draw between two other competitors. *)
Lemma C6_witness :
  exists hist snap,
    run_elo default_config [ko_row; zed_amy_draw] = Some (hist, snap)
    /\ exists st,
         process default_config init_state (sort_by row_leb [ko_row; zed_amy_draw])
         = Some st
         /\ hist = history_rows st
         /\ List.NoDup (map s_fighter_id snap)
         /\ (forall fid, In fid (map s_fighter_id snap)
                         <-> seen [ko_row; zed_amy_draw] fid)
         /\ (forall x, In x snap ->
                       s_rating x = rating_of default_config st (s_fighter_id x))
         /\ StronglySorted (fun x y => (s_rating y <= s_rating x)%R) snap.
Proof.
  destruct (run_elo_completes default_config [ko_row; zed_amy_draw])
    as (hist & snap & Hrun).
  - simpl. lra.
  - exists ko_row. split; [left; reflexivity|]. unfold rated.
    change (outcome_scores (py_str (winner_label ko_row))) with (Some (1, 0)%R).
    discriminate.
  - exists hist, snap. split; [exact Hrun|].
    apply (C6_snapshot_one_row_per_competitor_sorted default_config
             [ko_row; zed_amy_draw] hist snap Hrun).
Defined.

(** C8 on two finishes of A, over B and then over C. *)
Lemma C8_witness :
  exists st12 st21,
    process default_config init_state [ko_row; ko_other] = Some st12
    /\ process default_config init_state [ko_other; ko_row] = Some st21
    /\ exists fid,
         rating_of default_config st12 fid <> rating_of default_config st21 fid.
Proof.
  assert (Hsc : scale default_config <> 0%R) by (simpl; lra).
  destruct (process_total default_config [ko_row; ko_other] init_state Hsc)
    as [st12 H12].
  destruct (process_total default_config [ko_other; ko_row] init_state Hsc)
    as [st21 H21].
  exists st12, st21. split; [exact H12|]. split; [exact H21|].
  assert (Hab : fid_of ko_row side_a <> fid_of ko_row side_b).
  { intros H. apply (f_equal (fun s => nth 0%nat s 0%N)) in H.
    vm_compute in H. discriminate H. }
  assert (Hac : fid_of ko_other side_a <> fid_of ko_other side_b).
  { intros H. apply (f_equal (fun s => nth 0%nat s 0%N)) in H.
    vm_compute in H. discriminate H. }
  assert (Hbc : fid_of ko_row side_b <> fid_of ko_other side_b).
  { intros H. apply (f_equal (fun s => nth 0%nat s 0%N)) in H.
    vm_compute in H. discriminate H. }
  assert (Hba : fid_of ko_row side_b <> fid_of ko_other side_a).
  { intros H. apply (f_equal (fun s => nth 0%nat s 0%N)) in H.
    vm_compute in H. discriminate H. }
  assert (Hrated : rated ko_other).
  { unfold rated.
    change (outcome_scores (py_str (winner_label ko_other)))
      with (Some (1, 0)%R).
    discriminate. }
  apply (proj1 (proj2 (C8_order_of_two_bouts default_config init_state
                         ko_row ko_other st12 st21
                         ltac:(simpl; lra) ltac:(simpl; lra)
                         ltac:(simpl; lra) ltac:(simpl; lra)
                         ko_row_rated Hrated Hab Hac
                         (ex_intro _ side_a (ex_intro _ side_a eq_refl))
                         H12 H21))).
  - intros _. reflexivity.
  - intros [ (_ & x & y & s & P1 & P2) | ( (Ho & _) & _) ].
    + destruct (plays_sides _ _ _ _ P1) as [ [Ha Hb] | [Ha Hb] ];
        destruct (plays_sides _ _ _ _ P2) as [ [Ha' Hb'] | [Ha' Hb'] ];
        congruence.
    + change (outcome_scores (py_str (winner_label ko_row)))
        with (Some (1, 0)%R) in Ho.
      injection Ho as H1 H0. lra.
Defined.

(** C10 on the first bout of a sequence of two. *)
Lemma C10_witness :
  exists st,
    process default_config init_state (firstn 1 [ko_row; zed_amy_draw])
    = Some st
    /\ (forall fid,
          count (fights_ct st) fid =
          (count (wins_ct st) fid + count (losses_ct st) fid
           + count (draws_ct st) fid)%nat)
    /\ (forall r st',
          nth_error [ko_row; zed_amy_draw] 1 = Some r -> rated r ->
          process default_config init_state (firstn 2 [ko_row; zed_amy_draw])
          = Some st' ->
          let a := fid_of r side_a in
          let b := fid_of r side_b in
          (forall fid,
             count (fights_ct st') fid
             = (count (fights_ct st) fid + hit a fid + hit b fid)%nat)
          /\ ((forall fid,
                 count (wins_ct st') fid
                 = (count (wins_ct st) fid + hit a fid)%nat
                 /\ count (losses_ct st') fid
                    = (count (losses_ct st) fid + hit b fid)%nat
                 /\ count (draws_ct st') fid = count (draws_ct st) fid)
              \/ (forall fid,
                    count (wins_ct st') fid
                    = (count (wins_ct st) fid + hit b fid)%nat
                    /\ count (losses_ct st') fid
                       = (count (losses_ct st) fid + hit a fid)%nat
                    /\ count (draws_ct st') fid = count (draws_ct st) fid)
              \/ (forall fid,
                    count (wins_ct st') fid = count (wins_ct st) fid
                    /\ count (losses_ct st') fid = count (losses_ct st) fid
                    /\ count (draws_ct st') fid
                       = (count (draws_ct st) fid + hit a fid + hit b fid)%nat))).
Proof.
  destruct (process_total default_config (firstn 1 [ko_row; zed_amy_draw])
              init_state) as [st Hst].
  - simpl. lra.
  - exists st. split; [exact Hst|].
    apply (C10_fights_are_wins_losses_draws default_config
             [ko_row; zed_amy_draw] 1 st Hst).
Defined.

(* ===================================================================== *)
(** * The loop, row by row *)
(* ===================================================================== *)

(** The loop body on a rated row, as one equation. *)
Lemma step_rated_eq (cfg : EloConfig) (st : state) (r : row) (s_a s_b : R) :
  scale cfg <> 0%R ->
  outcome_scores (py_str (winner_label r)) = Some (s_a, s_b) ->
  step cfg st r = Some (rated_step cfg st r s_a s_b).
Proof.
  intros Hsc Hout. unfold step, rated_step, audit_of, names_after, fid_of, name_of.
  rewrite Hout.
  destruct (choose_fighter_id r side_a) as [fa name_a].
  destruct (choose_fighter_id r side_b) as [fb name_b].
  cbn [fst snd].
  pose proof (rating_read_spec (base_rating cfg) fa (ratings st)) as R1.
  destruct (rating_read (base_rating cfg) fa (ratings st)) as [ra rs1].
  cbn [fst snd] in R1 |- *. destruct R1 as (Hra & Hl1 & _).
  pose proof (rating_read_spec (base_rating cfg) fb rs1) as R2.
  destruct (rating_read (base_rating cfg) fb rs1) as [rb rs2].
  cbn [fst snd] in R2 |- *. destruct R2 as (Hrb & _ & _).
  assert (Hrb' : rb = rating_of cfg st fb).
  { rewrite Hrb, Hl1. unfold rating_of.
    destruct (decide (fa = fb)) as [->|]; reflexivity. }
  assert (Hra' : ra = rating_of cfg st fa) by exact Hra.
  clear Hra Hrb. rewrite Hra', Hrb'.
  unfold elo_update. rewrite (logistic_prob_Some _ _ _ Hsc).
  cbv zeta.
  destruct (decide (s_a = 1%R)); [|destruct (decide (s_b = 1%R))]; reflexivity.
Qed.

Lemma step_cases (cfg : EloConfig) (st : state) (r : row) (st' : state) :
  step cfg st r = Some st' ->
  (is_rated r = false /\ st' = st)
  \/ (exists s_a s_b,
        outcome_scores (py_str (winner_label r)) = Some (s_a, s_b)
        /\ scale cfg <> 0%R /\ st' = rated_step cfg st r s_a s_b).
Proof.
  intros Hstep.
  destruct (outcome_scores (py_str (winner_label r))) as [[s_a s_b]|] eqn:E.
  - right. exists s_a, s_b.
    assert (Hr : rated r) by (unfold rated; rewrite E; discriminate).
    pose proof (step_rated_scale _ _ _ _ Hstep Hr) as Hsc.
    rewrite (step_rated_eq _ _ _ _ _ Hsc E) in Hstep.
    injection Hstep as <-. auto.
  - left. rewrite (step_skip _ _ _ E) in Hstep. injection Hstep as <-.
    unfold is_rated. rewrite E. auto.
Qed.

Lemma is_rated_false (r : row) :
  is_rated r = false -> outcome_scores (py_str (winner_label r)) = None.
Proof. unfold is_rated. destruct (outcome_scores _); [discriminate|reflexivity]. Qed.

(** Rows without a rated outcome can be taken out of the input: the loop
    ends in the same state, or fails, with or without them. *)
Lemma process_filter_rated
    (cfg : EloConfig) (st : state) (rows : list row) :
  process cfg st rows = process cfg st (List.filter is_rated rows).
Proof.
  revert st. induction rows as [|r rest IH]; intros st; [reflexivity|].
  cbn [List.filter]. destruct (is_rated r) eqn:E.
  - cbn [process]. destruct (step cfg st r); [apply IH|reflexivity].
  - cbn [process]. rewrite (step_skip _ _ _ (is_rated_false _ E)). apply IH.
Qed.

(** The loop only appends to the ledger: one record per rated row, in the
    order of the rows, with the date, event, bout and competitor keys of
    its row. *)
Lemma process_ledger_keys
    (cfg : EloConfig) (rows : list row) (st st' : state) :
  process cfg st rows = Some st' ->
  exists new,
    history_rows st' = history_rows st ++ new
    /\ map audit_key new = map row_key (List.filter is_rated rows).
Proof.
  revert st. induction rows as [|r rest IH]; intros st.
  - intros [= <-]. exists []. simpl. rewrite app_nil_r. auto.
  - cbn [process List.filter].
    destruct (step cfg st r) as [st1|] eqn:Hstep; [|discriminate].
    intros Hp. destruct (IH _ Hp) as (new & Hh & Hk).
    destruct (step_cases _ _ _ _ Hstep)
      as [[Hr ->]|(s_a & s_b & E & _ & ->)].
    + rewrite Hr. exists new. auto.
    + exists (audit_of cfg st r s_a s_b :: new). split.
      * rewrite Hh. cbn [rated_step history_rows]. rewrite <- app_assoc.
        reflexivity.
      * unfold is_rated. rewrite E. cbn [map]. rewrite Hk. reflexivity.
Qed.

(** X1: the ledger follows the rated rows.  The ledger of a run that
    completes has one record per rated row, in the order of the sorted
    rows, each with the date, the normalised event and bout and the two
    competitor keys of its row. *)
Theorem ledger_follows_rated_rows
    (cfg : EloConfig) (rows : list row)
    (hist : list audit) (snap : list rating_row) :
  run_elo cfg rows = Some (hist, snap) ->
  map audit_key hist
  = map row_key (List.filter is_rated (sort_by row_leb rows)).
Proof.
  intros Hrun. apply run_elo_Some in Hrun as (st & Hp & _ & -> & _).
  destruct (process_ledger_keys _ _ _ _ Hp) as (new & Hh & Hk).
  rewrite Hh. exact Hk.
Qed.

(* ===================================================================== *)
(** * The store and the counters against the ledger *)
(* ===================================================================== *)

Lemma rated_step_lookup (cfg : EloConfig) (st : state) (r : row)
    (s_a s_b : R) (k : str) :
  let rec := audit_of cfg st r s_a s_b in
  rating_lookup k (ratings (rated_step cfg st r s_a s_b)) =
  if decide (fighter_b_id rec = k) then Some (post_rating_b rec)
  else if decide (fighter_a_id rec = k) then Some (post_rating_a rec)
  else rating_lookup k (ratings st).
Proof.
  cbn [rated_step ratings audit_of fighter_a_id fighter_b_id].
  rewrite !rating_lookup_assign.
  destruct (rating_read_spec (base_rating cfg) (fid_of r side_a) (ratings st))
    as (_ & L1 & _).
  destruct (rating_read_spec (base_rating cfg) (fid_of r side_b)
              (snd (rating_read (base_rating cfg) (fid_of r side_a) (ratings st))))
    as (_ & L2 & _).
  cbv zeta in L1, L2.
  destruct (decide (fid_of r side_b = k)); [reflexivity|].
  destruct (decide (fid_of r side_a = k)); [reflexivity|].
  rewrite L2. destruct (decide (fid_of r side_b = k)); [contradiction|].
  rewrite L1. destruct (decide (fid_of r side_a = k)); [contradiction|].
  reflexivity.
Qed.

Lemma last_post_snoc (hist : list audit) (rec : audit) (fid : str) :
  last_post (hist ++ [rec]) fid =
  if decide (fighter_b_id rec = fid) then Some (post_rating_b rec)
  else if decide (fighter_a_id rec = fid) then Some (post_rating_a rec)
  else last_post hist fid.
Proof. unfold last_post. rewrite fold_left_app. reflexivity. Qed.

(** The store agrees with the ledger, and the ledger with itself. *)
Lemma process_store_ledger (cfg : EloConfig) (rows : list row) (st : state) :
  process cfg init_state rows = Some st ->
  (forall fid, rating_lookup fid (ratings st) = last_post (history_rows st) fid)
  /\ (forall n rec,
        history_rows st !! n = Some rec ->
        pre_rating_a rec
        = default (base_rating cfg)
            (last_post (take n (history_rows st)) (fighter_a_id rec))
        /\ pre_rating_b rec
           = default (base_rating cfg)
               (last_post (take n (history_rows st)) (fighter_b_id rec))).
Proof.
  intros Hst.
  set (P := fun s : state =>
    (forall fid, rating_lookup fid (ratings s) = last_post (history_rows s) fid)
    /\ (forall n rec,
          history_rows s !! n = Some rec ->
          pre_rating_a rec
          = default (base_rating cfg)
              (last_post (take n (history_rows s)) (fighter_a_id rec))
          /\ pre_rating_b rec
             = default (base_rating cfg)
                 (last_post (take n (history_rows s)) (fighter_b_id rec)))).
  refine (process_invariant P cfg _ rows init_state st _ Hst).
  - intros s r s' [Hstore Hchain] Hstep.
    destruct (step_cases _ _ _ _ Hstep)
      as [[_ ->]|(s_a & s_b & E & _ & ->)]; [split; assumption|].
    split.
    + intros fid. rewrite rated_step_lookup.
      cbn [rated_step history_rows]. rewrite last_post_snoc, Hstore.
      reflexivity.
    + intros n rec. cbn [rated_step history_rows]. intros Hn.
      destruct (decide (n < length (history_rows s))%nat) as [Hlt|Hge].
      * rewrite lookup_app_l in Hn by exact Hlt.
        rewrite take_app_le by lia. apply Hchain, Hn.
      * assert (n = length (history_rows s)).
        { apply lookup_lt_Some in Hn. rewrite length_app in Hn.
          simpl in Hn. lia. }
        subst n. rewrite list_lookup_middle in Hn by reflexivity.
        injection Hn as <-. rewrite take_app_length.
        cbn [audit_of pre_rating_a pre_rating_b fighter_a_id fighter_b_id].
        unfold rating_of. rewrite !Hstore. auto.
  - split; [intros fid; reflexivity|]. intros n rec Hn.
    cbn in Hn. rewrite lookup_nil in Hn. discriminate.
Qed.

(** X2: the ledger accounts for the store.  After a loop that completes,
    the stored rating of every competitor is the post-update rating of
    their latest ledger record (the base rating without one), and the
    pre-update ratings of every record are the latest post-update ratings
    of the records before it (the base rating without one). *)
Theorem ledger_accounts_for_ratings
    (cfg : EloConfig) (rows : list row) (st : state) :
  process cfg init_state rows = Some st ->
  (forall fid,
     rating_of cfg st fid
     = default (base_rating cfg) (last_post (history_rows st) fid))
  /\ (forall n rec,
        history_rows st !! n = Some rec ->
        pre_rating_a rec
        = default (base_rating cfg)
            (last_post (take n (history_rows st)) (fighter_a_id rec))
        /\ pre_rating_b rec
           = default (base_rating cfg)
               (last_post (take n (history_rows st)) (fighter_b_id rec))).
Proof.
  intros Hst.
  destruct (process_store_ledger cfg rows st Hst) as [Hstore Hchain].
  split; [|exact Hchain].
  intros fid. unfold rating_of. rewrite Hstore. reflexivity.
Qed.

Lemma tally_snoc (p : audit -> bool) (hist : list audit) (rec : audit) :
  tally p (hist ++ [rec]) = (tally p hist + (if p rec then 1 else 0))%nat.
Proof.
  unfold tally. rewrite List.filter_app, length_app. cbn [List.filter].
  destruct (p rec); reflexivity.
Qed.

Lemma outcome_scores_label (w : str) (s_a s_b : R) :
  outcome_scores w = Some (s_a, s_b) ->
  (lower (strip w) = lit "a" /\ s_a = 1%R /\ s_b = 0%R)
  \/ (lower (strip w) = lit "b" /\ s_a = 0%R /\ s_b = 1%R)
  \/ (lower (strip w) = lit "draw" /\ s_a = 0.5%R /\ s_b = 0.5%R).
Proof.
  unfold outcome_scores, str_eqb.
  destruct (bool_decide_reflect (lower (strip w) = lit "a")) as [H|_].
  { intros [= <- <-]. auto. }
  destruct (bool_decide_reflect (lower (strip w) = lit "b")) as [H|_].
  { intros [= <- <-]. auto. }
  destruct (bool_decide_reflect (lower (strip w) = lit "draw")) as [H|_].
  { intros [= <- <-]. auto 10. }
  discriminate.
Qed.

Ltac eval_labels :=
  repeat match goal with
         | |- context [bool_decide (lit ?x = lit ?y)] =>
             let b := eval vm_compute in (bool_decide (lit x = lit y)) in
             change (bool_decide (lit x = lit y)) with b
         end.

Lemma rated_step_counters (cfg : EloConfig) (st : state) (r : row)
    (s_a s_b : R) :
  outcome_scores (py_str (winner_label r)) = Some (s_a, s_b) ->
  counters_from_ledger st ->
  counters_from_ledger (rated_step cfg st r s_a s_b).
Proof.
  intros E Hinv fid. destruct (Hinv fid) as (Hf & Hw & Hl & Hd).
  unfold fights_in, wins_in, losses_in, draws_in in *.
  cbn [rated_step history_rows fights_ct wins_ct losses_ct draws_ct].
  rewrite !tally_snoc.
  unfold on_a, on_b, labelled in *.
  cbn [audit_of fighter_a_id fighter_b_id h_winner_label].
  destruct (outcome_scores_label _ _ _ E)
    as [(-> & -> & ->)|[(-> & -> & ->)|(-> & -> & ->)]].
  - destruct (decide (1%R = 1%R)); [|congruence].
    rewrite !count_incr.
    destruct (decide (fid_of r side_a = fid)) as [Ha|Ha],
             (decide (fid_of r side_b = fid)) as [Hb|Hb];
      first [rewrite (bool_decide_eq_true_2 _ Ha)
            |rewrite (bool_decide_eq_false_2 _ Ha)];
      first [rewrite (bool_decide_eq_true_2 _ Hb)
            |rewrite (bool_decide_eq_false_2 _ Hb)];
      eval_labels; cbn [andb]; repeat split; lia.
  - destruct (decide (0%R = 1%R)); [lra|].
    destruct (decide (1%R = 1%R)); [|congruence].
    rewrite !count_incr.
    destruct (decide (fid_of r side_a = fid)) as [Ha|Ha],
             (decide (fid_of r side_b = fid)) as [Hb|Hb];
      first [rewrite (bool_decide_eq_true_2 _ Ha)
            |rewrite (bool_decide_eq_false_2 _ Ha)];
      first [rewrite (bool_decide_eq_true_2 _ Hb)
            |rewrite (bool_decide_eq_false_2 _ Hb)];
      eval_labels; cbn [andb]; repeat split; lia.
  - destruct (decide (0.5%R = 1%R)); [lra|].
    rewrite !count_incr.
    destruct (decide (fid_of r side_a = fid)) as [Ha|Ha],
             (decide (fid_of r side_b = fid)) as [Hb|Hb];
      first [rewrite (bool_decide_eq_true_2 _ Ha)
            |rewrite (bool_decide_eq_false_2 _ Ha)];
      first [rewrite (bool_decide_eq_true_2 _ Hb)
            |rewrite (bool_decide_eq_false_2 _ Hb)];
      eval_labels; cbn [andb]; repeat split; lia.
Qed.

(** X3: the counters are tallies of the ledger.  After a loop that
    completes, the fight count of a competitor is the number of ledger
    sides they are on, and their win, loss and draw counts are the numbers
    of those sides that the record's outcome label makes a win, a loss or a
    draw. *)
Theorem counters_are_ledger_tallies
    (cfg : EloConfig) (rows : list row) (st : state) :
  process cfg init_state rows = Some st ->
  forall fid,
    count (fights_ct st) fid = fights_in (history_rows st) fid
    /\ count (wins_ct st) fid = wins_in (history_rows st) fid
    /\ count (losses_ct st) fid = losses_in (history_rows st) fid
    /\ count (draws_ct st) fid = draws_in (history_rows st) fid.
Proof.
  intros Hst.
  refine (process_invariant counters_from_ledger cfg _ rows init_state st _ Hst).
  - intros s r s' Hinv Hstep.
    destruct (step_cases _ _ _ _ Hstep)
      as [[_ ->]|(s_a & s_b & E & _ & ->)]; [exact Hinv|].
    apply rated_step_counters; assumption.
  - intros fid. repeat split.
Qed.

(* ===================================================================== *)
(** * The rating total *)
(* ===================================================================== *)

Lemma Rsum_app (l1 l2 : list R) : Rsum (l1 ++ l2) = (Rsum l1 + Rsum l2)%R.
Proof.
  unfold Rsum. induction l1 as [|x t IH]; simpl; [lra|]. rewrite IH. lra.
Qed.

Lemma Rsum_perm (l l' : list R) : Permutation l l' -> Rsum l = Rsum l'.
Proof.
  unfold Rsum. induction 1; simpl; try lra; congruence.
Qed.

Lemma rating_read_excess (cfg : EloConfig) (fid : str) (rs : list (str * R)) :
  excess cfg (snd (rating_read (base_rating cfg) fid rs)) = excess cfg rs.
Proof.
  unfold rating_read, excess. destruct (rating_lookup fid rs); [reflexivity|].
  cbn [snd]. rewrite map_app, Rsum_app, length_app, plus_INR. simpl. lra.
Qed.

Lemma rating_assign_sum (fid : str) (v old : R) (rs : list (str * R)) :
  rating_lookup fid rs = Some old ->
  Rsum (map snd (rating_assign fid v rs)) = (Rsum (map snd rs) - old + v)%R
  /\ length (rating_assign fid v rs) = length rs.
Proof.
  induction rs as [|[k x] t IH]; simpl; [discriminate|].
  destruct (decide (k = fid)) as [->|Hne].
  - intros [= ->]. simpl. split; [lra|reflexivity].
  - intros H. destruct (IH H) as [IH1 IH2]. simpl. rewrite IH1, IH2.
    split; [lra|reflexivity].
Qed.

Lemma rated_step_excess (cfg : EloConfig) (st : state) (r : row) (s_a s_b : R) :
  fid_of r side_a <> fid_of r side_b ->
  (s_a + s_b = 1)%R ->
  excess cfg (ratings (rated_step cfg st r s_a s_b)) = excess cfg (ratings st).
Proof.
  intros Hne Hsum.
  set (fa := fid_of r side_a) in *. set (fb := fid_of r side_b) in *.
  set (rs1 := snd (rating_read (base_rating cfg) fa (ratings st))).
  set (rs2 := snd (rating_read (base_rating cfg) fb rs1)).
  destruct (rating_read_spec (base_rating cfg) fa (ratings st)) as (_ & L1 & _).
  destruct (rating_read_spec (base_rating cfg) fb rs1) as (_ & L2 & _).
  cbv zeta in L1, L2. fold rs1 in L1. fold rs2 in L2.
  assert (Ha : rating_lookup fa rs2 = Some (rating_of cfg st fa)).
  { rewrite L2. destruct (decide (fb = fa)); [congruence|].
    rewrite L1. destruct (decide (fa = fa)); [reflexivity|congruence]. }
  assert (Hb : rating_lookup fb rs2 = Some (rating_of cfg st fb)).
  { rewrite L2. destruct (decide (fb = fb)); [|congruence].
    rewrite L1. destruct (decide (fa = fb)); [congruence|reflexivity]. }
  cbn [rated_step ratings]. fold fa fb rs1 rs2.
  set (pa := post_rating_a (audit_of cfg st r s_a s_b)).
  set (pb := post_rating_b (audit_of cfg st r s_a s_b)).
  destruct (rating_assign_sum fa pa _ _ Ha) as [S1 N1].
  assert (Hb' : rating_lookup fb (rating_assign fa pa rs2)
                = Some (rating_of cfg st fb)).
  { rewrite rating_lookup_assign. destruct (decide (fa = fb)); [congruence|].
    exact Hb. }
  destruct (rating_assign_sum fb pb _ _ Hb') as [S2 N2].
  unfold excess at 1. rewrite S2, S1, N2, N1.
  assert (E2 : excess cfg rs2 = excess cfg (ratings st)).
  { unfold rs2. rewrite rating_read_excess. unfold rs1.
    apply rating_read_excess. }
  unfold excess in E2 |- *. rewrite <- E2.
  subst pa pb. cbn [audit_of post_rating_a post_rating_b]. fold fa fb.
  replace s_b with (1 - s_a)%R by lra. ring.
Qed.

Lemma process_excess (cfg : EloConfig) (rows : list row) (st st' : state) :
  (forall r, In r rows -> rated r -> fid_of r side_a <> fid_of r side_b) ->
  process cfg st rows = Some st' ->
  excess cfg (ratings st') = excess cfg (ratings st).
Proof.
  revert st. induction rows as [|r rest IH]; intros st Hd; simpl.
  - intros [= <-]. reflexivity.
  - destruct (step cfg st r) as [st1|] eqn:E; [|discriminate].
    intros Hp. rewrite (IH st1); [|intros x Hx; apply Hd; right; exact Hx|exact Hp].
    destruct (step_cases _ _ _ _ E) as [[_ ->]|(s_a & s_b & Ho & _ & ->)];
      [reflexivity|].
    apply rated_step_excess.
    + apply Hd; [left; reflexivity|]. unfold rated. rewrite Ho. discriminate.
    + eapply outcome_scores_sum, Ho.
Qed.

(** X4: rating points are conserved.  When no rated bout has the same
    competitor on both sides, the ratings of the snapshot of a run that
    completes add up to the base rating times the number of its rows (in
    the exact arithmetic of the embedding). *)
Theorem total_rating_is_conserved
    (cfg : EloConfig) (rows : list row)
    (hist : list audit) (snap : list rating_row) :
  run_elo cfg rows = Some (hist, snap) ->
  (forall r, In r rows -> rated r -> fid_of r side_a <> fid_of r side_b) ->
  Rsum (map s_rating snap) = (base_rating cfg * INR (length snap))%R.
Proof.
  intros Hrun Hd. apply run_elo_Some in Hrun as (st & Hst & _ & _ & ->).
  assert (Hex : excess cfg (ratings st) = 0%R).
  { rewrite (process_excess cfg (sort_by row_leb rows) init_state st);
      [|intros r Hr; apply Hd, (sort_by_In row_leb), Hr|exact Hst].
    unfold excess. simpl. lra. }
  assert (Hperm : Permutation (snapshot st) (map (snapshot_row st) (ratings st))).
  { unfold snapshot. apply sort_by_perm. }
  rewrite (Rsum_perm _ _ (Permutation_map s_rating Hperm)).
  rewrite (Permutation_length Hperm), map_map, length_map.
  unfold excess in Hex. cbn [snapshot_row s_rating].
  change (map (fun x : str * R => snd x) (ratings st))
    with (map snd (ratings st)).
  lra.
Qed.

(* ===================================================================== *)
(** * First and last dates *)
(* ===================================================================== *)

Lemma update_first_lookup (d : option Z) (k fid : str) (fd : gmap str (option Z)) :
  update_first d k fd !! fid =
  if decide (k = fid)
  then Some (match fd !! fid with None => d | Some old => earlier d old end)
  else fd !! fid.
Proof.
  unfold update_first, earlier. destruct (decide (k = fid)) as [->|Hne].
  - destruct (fd !! fid) as [old|] eqn:E.
    + destruct d as [dv|], old as [ov|]; rewrite ?lookup_insert_eq, ?E; try reflexivity.
      destruct (dv <? ov)%Z; rewrite ?lookup_insert_eq, ?E; reflexivity.
    + rewrite lookup_insert_eq. reflexivity.
  - destruct (fd !! k) as [old|].
    + destruct d as [dv|], old as [ov|]; rewrite ?lookup_insert_ne by exact Hne;
        try reflexivity.
      destruct (dv <? ov)%Z; rewrite ?lookup_insert_ne by exact Hne; reflexivity.
    + rewrite lookup_insert_ne by exact Hne. reflexivity.
Qed.

Lemma update_last_lookup (d : option Z) (k fid : str) (ld : gmap str (option Z)) :
  update_last d k ld !! fid =
  if decide (k = fid)
  then Some (match ld !! fid with None => d | Some old => later d old end)
  else ld !! fid.
Proof.
  unfold update_last, later. destruct (decide (k = fid)) as [->|Hne].
  - destruct (ld !! fid) as [old|] eqn:E.
    + destruct d as [dv|], old as [ov|]; rewrite ?lookup_insert_eq, ?E; try reflexivity.
      destruct (ov <? dv)%Z; rewrite ?lookup_insert_eq, ?E; reflexivity.
    + rewrite lookup_insert_eq. reflexivity.
  - destruct (ld !! k) as [old|].
    + destruct d as [dv|], old as [ov|]; rewrite ?lookup_insert_ne by exact Hne;
        try reflexivity.
      destruct (ov <? dv)%Z; rewrite ?lookup_insert_ne by exact Hne; reflexivity.
    + rewrite lookup_insert_ne by exact Hne. reflexivity.
Qed.

Lemma earlier_idem (d old : option Z) : earlier d (earlier d old) = earlier d old.
Proof.
  destruct d as [dv|], old as [ov|]; simpl; try reflexivity.
  - destruct (dv <? ov)%Z eqn:E; simpl; rewrite ?E, ?Z.ltb_irrefl; reflexivity.
  - rewrite Z.ltb_irrefl. reflexivity.
Qed.

Lemma earlier_same (d : option Z) : earlier d d = d.
Proof. destruct d as [dv|]; simpl; [rewrite Z.ltb_irrefl|]; reflexivity. Qed.

Lemma later_idem (d old : option Z) : later d (later d old) = later d old.
Proof.
  destruct d as [dv|], old as [ov|]; simpl; try reflexivity.
  - destruct (ov <? dv)%Z eqn:E; simpl; rewrite ?E, ?Z.ltb_irrefl; reflexivity.
  - rewrite Z.ltb_irrefl. reflexivity.
Qed.

Lemma later_same (d : option Z) : later d d = d.
Proof. destruct d as [dv|]; simpl; [rewrite Z.ltb_irrefl|]; reflexivity. Qed.

Lemma seen_date_snoc (pick : option Z -> option Z -> option Z)
    (hist : list audit) (h : audit) (fid : str) :
  seen_date pick (hist ++ [h]) fid =
  if involves fid h
  then Some (match seen_date pick hist fid with
             | None => h_DATE h
             | Some old => pick (h_DATE h) old
             end)
  else seen_date pick hist fid.
Proof. unfold seen_date. rewrite fold_left_app. reflexivity. Qed.

Lemma rated_step_dates (cfg : EloConfig) (st : state) (r : row) (s_a s_b : R) :
  (forall fid, first_date st !! fid = seen_date earlier (history_rows st) fid) ->
  (forall fid, last_date st !! fid = seen_date later (history_rows st) fid) ->
  forall fid,
    first_date (rated_step cfg st r s_a s_b) !! fid
    = seen_date earlier (history_rows (rated_step cfg st r s_a s_b)) fid
    /\ last_date (rated_step cfg st r s_a s_b) !! fid
       = seen_date later (history_rows (rated_step cfg st r s_a s_b)) fid.
Proof.
  intros Hf Hl fid.
  cbn [rated_step first_date last_date history_rows].
  rewrite !seen_date_snoc. unfold involves, on_a, on_b.
  cbn [audit_of fighter_a_id fighter_b_id h_DATE].
  rewrite !update_first_lookup, !update_last_lookup, <- Hf, <- Hl.
  destruct (decide (fid_of r side_a = fid)) as [Ha|Ha],
           (decide (fid_of r side_b = fid)) as [Hb|Hb];
    first [rewrite (bool_decide_eq_true_2 _ Ha)
          |rewrite (bool_decide_eq_false_2 _ Ha)];
    first [rewrite (bool_decide_eq_true_2 _ Hb)
          |rewrite (bool_decide_eq_false_2 _ Hb)];
    cbn [orb]; try (split; reflexivity).
  destruct (first_date st !! fid), (last_date st !! fid);
    rewrite ?earlier_idem, ?earlier_same, ?later_idem, ?later_same;
    split; reflexivity.
Qed.

(** The folded first date is a date of the competitor, and none of their
    dates is earlier. *)
Lemma seen_earlier_spec (hist : list audit) (fid : str) :
  match seen_date earlier hist fid with
  | None => forall h, In h hist -> involves fid h = false
  | Some None =>
      forall h, In h hist -> involves fid h = true -> h_DATE h = None
  | Some (Some f) =>
      (exists h, In h hist /\ involves fid h = true /\ h_DATE h = Some f)
      /\ forall h d, In h hist -> involves fid h = true ->
                     h_DATE h = Some d -> (f <= d)%Z
  end.
Proof.
  induction hist as [|h0 t IH] using rev_ind; [intros h []|].
  rewrite seen_date_snoc.
  destruct (involves fid h0) eqn:Ei.
  - destruct (seen_date earlier t fid) as [[f|]|].
    + destruct IH as [(h1 & Hin & Hi & Hd) Hmin].
      destruct (h_DATE h0) as [d0|] eqn:Ed; simpl.
      * destruct (d0 <? f)%Z eqn:El.
        -- apply Z.ltb_lt in El. split.
           ++ exists h0. rewrite in_app_iff. simpl. auto.
           ++ intros h d Hh Hih Hdh. apply in_app_iff in Hh as [Hh|[<-|[]]].
              ** specialize (Hmin h d Hh Hih Hdh). lia.
              ** rewrite Ed in Hdh. injection Hdh as <-. lia.
        -- apply Z.ltb_ge in El. split.
           ++ exists h1. rewrite in_app_iff. auto.
           ++ intros h d Hh Hih Hdh. apply in_app_iff in Hh as [Hh|[<-|[]]].
              ** apply (Hmin h d Hh Hih Hdh).
              ** rewrite Ed in Hdh. injection Hdh as <-. lia.
      * split.
        -- exists h1. rewrite in_app_iff. auto.
        -- intros h d Hh Hih Hdh. apply in_app_iff in Hh as [Hh|[<-|[]]].
           ++ apply (Hmin h d Hh Hih Hdh).
           ++ congruence.
    + destruct (h_DATE h0) as [d0|] eqn:Ed; simpl.
      * split.
        -- exists h0. rewrite in_app_iff. simpl. auto.
        -- intros h d Hh Hih Hdh. apply in_app_iff in Hh as [Hh|[<-|[]]].
           ++ rewrite (IH h Hh Hih) in Hdh. discriminate.
           ++ rewrite Ed in Hdh. injection Hdh as <-. lia.
      * intros h Hh Hih. apply in_app_iff in Hh as [Hh|[<-|[]]];
          [apply IH; assumption|exact Ed].
    + destruct (h_DATE h0) as [d0|] eqn:Ed.
      * split.
        -- exists h0. rewrite in_app_iff. simpl. auto.
        -- intros h d Hh Hih Hdh. apply in_app_iff in Hh as [Hh|[<-|[]]].
           ++ rewrite (IH h Hh) in Hih. discriminate.
           ++ rewrite Ed in Hdh. injection Hdh as <-. lia.
      * intros h Hh Hih. apply in_app_iff in Hh as [Hh|[<-|[]]];
          [rewrite (IH h Hh) in Hih; discriminate|exact Ed].
  - destruct (seen_date earlier t fid) as [[f|]|].
    + destruct IH as [(h1 & Hin & Hi & Hd) Hmin]. split.
      * exists h1. rewrite in_app_iff. auto.
      * intros h d Hh Hih Hdh. apply in_app_iff in Hh as [Hh|[<-|[]]];
          [apply (Hmin h d Hh Hih Hdh)|congruence].
    + intros h Hh Hih. apply in_app_iff in Hh as [Hh|[<-|[]]];
        [apply IH; assumption|congruence].
    + intros h Hh. apply in_app_iff in Hh as [Hh|[<-|[]]];
        [apply IH; assumption|exact Ei].
Qed.

Lemma seen_later_spec (hist : list audit) (fid : str) :
  match seen_date later hist fid with
  | None => forall h, In h hist -> involves fid h = false
  | Some None =>
      forall h, In h hist -> involves fid h = true -> h_DATE h = None
  | Some (Some l) =>
      (exists h, In h hist /\ involves fid h = true /\ h_DATE h = Some l)
      /\ forall h d, In h hist -> involves fid h = true ->
                     h_DATE h = Some d -> (d <= l)%Z
  end.
Proof.
  induction hist as [|h0 t IH] using rev_ind; [intros h []|].
  rewrite seen_date_snoc.
  destruct (involves fid h0) eqn:Ei.
  - destruct (seen_date later t fid) as [[f|]|].
    + destruct IH as [(h1 & Hin & Hi & Hd) Hmin].
      destruct (h_DATE h0) as [d0|] eqn:Ed; simpl.
      * destruct (f <? d0)%Z eqn:El.
        -- apply Z.ltb_lt in El. split.
           ++ exists h0. rewrite in_app_iff. simpl. auto.
           ++ intros h d Hh Hih Hdh. apply in_app_iff in Hh as [Hh|[<-|[]]].
              ** specialize (Hmin h d Hh Hih Hdh). lia.
              ** rewrite Ed in Hdh. injection Hdh as <-. lia.
        -- apply Z.ltb_ge in El. split.
           ++ exists h1. rewrite in_app_iff. auto.
           ++ intros h d Hh Hih Hdh. apply in_app_iff in Hh as [Hh|[<-|[]]].
              ** apply (Hmin h d Hh Hih Hdh).
              ** rewrite Ed in Hdh. injection Hdh as <-. lia.
      * split.
        -- exists h1. rewrite in_app_iff. auto.
        -- intros h d Hh Hih Hdh. apply in_app_iff in Hh as [Hh|[<-|[]]].
           ++ apply (Hmin h d Hh Hih Hdh).
           ++ congruence.
    + destruct (h_DATE h0) as [d0|] eqn:Ed; simpl.
      * split.
        -- exists h0. rewrite in_app_iff. simpl. auto.
        -- intros h d Hh Hih Hdh. apply in_app_iff in Hh as [Hh|[<-|[]]].
           ++ rewrite (IH h Hh Hih) in Hdh. discriminate.
           ++ rewrite Ed in Hdh. injection Hdh as <-. lia.
      * intros h Hh Hih. apply in_app_iff in Hh as [Hh|[<-|[]]];
          [apply IH; assumption|exact Ed].
    + destruct (h_DATE h0) as [d0|] eqn:Ed.
      * split.
        -- exists h0. rewrite in_app_iff. simpl. auto.
        -- intros h d Hh Hih Hdh. apply in_app_iff in Hh as [Hh|[<-|[]]].
           ++ rewrite (IH h Hh) in Hih. discriminate.
           ++ rewrite Ed in Hdh. injection Hdh as <-. lia.
      * intros h Hh Hih. apply in_app_iff in Hh as [Hh|[<-|[]]];
          [rewrite (IH h Hh) in Hih; discriminate|exact Ed].
  - destruct (seen_date later t fid) as [[f|]|].
    + destruct IH as [(h1 & Hin & Hi & Hd) Hmin]. split.
      * exists h1. rewrite in_app_iff. auto.
      * intros h d Hh Hih Hdh. apply in_app_iff in Hh as [Hh|[<-|[]]];
          [apply (Hmin h d Hh Hih Hdh)|congruence].
    + intros h Hh Hih. apply in_app_iff in Hh as [Hh|[<-|[]]];
        [apply IH; assumption|congruence].
    + intros h Hh. apply in_app_iff in Hh as [Hh|[<-|[]]];
        [apply IH; assumption|exact Ei].
Qed.

(** X5: first and last dates bracket the dated bouts.  After a loop that
    completes, a competitor with a dated ledger record has a known first
    and a known last date; both are dates of records of theirs, and every
    dated record of theirs lies between them. *)
Theorem first_and_last_dates_bracket_the_ledger
    (cfg : EloConfig) (rows : list row) (st : state) :
  process cfg init_state rows = Some st ->
  forall fid h d,
    In h (history_rows st) -> involves fid h = true ->
    h_DATE h = Some d ->
    exists f l,
      first_date st !! fid = Some (Some f)
      /\ last_date st !! fid = Some (Some l)
      /\ (f <= d <= l)%Z
      /\ (exists h1, In h1 (history_rows st) /\ involves fid h1 = true
                     /\ h_DATE h1 = Some f)
      /\ (exists h2, In h2 (history_rows st) /\ involves fid h2 = true
                     /\ h_DATE h2 = Some l).
Proof.
  intros Hst.
  set (P := fun s : state =>
    (forall fid, first_date s !! fid = seen_date earlier (history_rows s) fid)
    /\ (forall fid, last_date s !! fid = seen_date later (history_rows s) fid)).
  assert (HP : P st).
  { refine (process_invariant P cfg _ rows init_state st _ Hst).
    - intros s r s' [Hf Hl] Hstep.
      destruct (step_cases _ _ _ _ Hstep)
        as [[_ ->]|(s_a & s_b & E & _ & ->)]; [split; assumption|].
      split; intros fid; apply rated_step_dates; assumption.
    - split; intros fid; reflexivity. }
  destruct HP as [Hf Hl]. intros fid h d Hin Hi Hd.
  pose proof (seen_earlier_spec (history_rows st) fid) as He.
  pose proof (seen_later_spec (history_rows st) fid) as Hla.
  rewrite <- Hf in He. rewrite <- Hl in Hla.
  destruct (first_date st !! fid) as [[f|]|].
  2:{ rewrite (He h Hin Hi) in Hd. discriminate. }
  2:{ rewrite (He h Hin) in Hi. discriminate. }
  destruct (last_date st !! fid) as [[l|]|].
  2:{ rewrite (Hla h Hin Hi) in Hd. discriminate. }
  2:{ rewrite (Hla h Hin) in Hi. discriminate. }
  destruct He as [He1 He2], Hla as [Hl1 Hl2].
  exists f, l. repeat split; auto.
  - apply (He2 h d Hin Hi Hd).
  - apply (Hl2 h d Hin Hi Hd).
Qed.

(* ===================================================================== *)
(** * The order of the rows *)
(* ===================================================================== *)

Lemma gc_eq_r {A : Type} (cmp : A -> A -> comparison) :
  good_cmp cmp -> forall x y z, cmp y z = Eq -> cmp x y = cmp x z.
Proof.
  intros G x y z H.
  rewrite (gc_opp cmp G y x), (gc_opp cmp G z x). f_equal.
  apply (gc_eq_l cmp G), H.
Qed.

Lemma good_cmp_le_trans {A : Type} (cmp : A -> A -> comparison) :
  good_cmp cmp ->
  forall x y z, cmp x y <> Gt -> cmp y z <> Gt -> cmp x z <> Gt.
Proof.
  intros G x y z Hxy Hyz.
  destruct (cmp x y) eqn:E1; [| |congruence].
  - rewrite (gc_eq_l cmp G _ _ z E1). exact Hyz.
  - destruct (cmp y z) eqn:E2; [| |congruence].
    + rewrite <- (gc_eq_r cmp G x _ _ E2), E1. discriminate.
    + rewrite (gc_trans cmp G Lt _ _ _ E1 E2). discriminate.
Qed.

Lemma good_cmp_le_total {A : Type} (cmp : A -> A -> comparison) :
  good_cmp cmp -> forall x y, cmp x y <> Gt \/ cmp y x <> Gt.
Proof.
  intros G x y. rewrite (gc_opp cmp G x y).
  destruct (cmp x y); simpl; auto; right; discriminate.
Qed.

Lemma good_cmp_Z : good_cmp Z.compare.
Proof.
  split.
  - intros x y. apply Z.compare_antisym.
  - intros c x y z. destruct c; rewrite ?Z.compare_eq_iff, ?Z.compare_lt_iff,
      ?Z.compare_gt_iff; lia.
  - intros x y z H. apply Z.compare_eq in H. subst. reflexivity.
Qed.

Lemma lexico_asym (a b : str) : lexico a b -> lexico b a -> False.
Proof. intros H1 H2. exact (lexico_irrefl _ (lexico_trans _ _ _ H1 H2)). Qed.

Lemma str_compare_Lt (a b : str) : str_compare a b = Lt <-> lexico a b.
Proof.
  pose proof (str_compare_spec a b) as H. split.
  - intros E. rewrite E in H. exact H.
  - intros L. destruct (str_compare a b); [|reflexivity|].
    + subst. destruct (lexico_irrefl _ L).
    + destruct (lexico_asym _ _ L H).
Qed.

Lemma str_compare_Gt (a b : str) : str_compare a b = Gt <-> lexico b a.
Proof.
  pose proof (str_compare_spec a b) as H. split.
  - intros E. rewrite E in H. exact H.
  - intros L. destruct (str_compare a b); [| |reflexivity].
    + subst. destruct (lexico_irrefl _ L).
    + destruct (lexico_asym _ _ L H).
Qed.

Lemma str_compare_Eq (a b : str) : str_compare a b = Eq <-> a = b.
Proof.
  pose proof (str_compare_spec a b) as H. split.
  - intros E. rewrite E in H. exact H.
  - intros ->. destruct (str_compare b b); [reflexivity| |];
      destruct (lexico_irrefl _ H).
Qed.

Lemma good_cmp_str : good_cmp str_compare.
Proof.
  split.
  - intros x y. destruct (str_compare x y) eqn:E; simpl.
    + apply str_compare_Eq. apply str_compare_Eq in E. congruence.
    + apply str_compare_Gt. apply str_compare_Lt, E.
    + apply str_compare_Lt. apply str_compare_Gt, E.
  - intros c x y z. destruct c.
    + rewrite !str_compare_Eq. congruence.
    + rewrite !str_compare_Lt. apply lexico_trans.
    + rewrite !str_compare_Gt. intros H1 H2. eapply lexico_trans; eassumption.
  - intros x y z H. apply str_compare_Eq in H. subst. reflexivity.
Qed.

Lemma good_cmp_na {A : Type} (cmp : A -> A -> comparison) :
  good_cmp cmp -> good_cmp (compare_na cmp).
Proof.
  intros G. split.
  - intros [x|] [y|]; simpl; try reflexivity. apply (gc_opp cmp G).
  - intros c [x|] [y|] [z|]; simpl; try congruence. apply (gc_trans cmp G).
  - intros [x|] [y|] [z|]; simpl; try congruence. apply (gc_eq_l cmp G).
Qed.

Lemma good_cmp_on {A B : Type} (f : A -> B) (cmp : B -> B -> comparison) :
  good_cmp cmp -> good_cmp (fun x y => cmp (f x) (f y)).
Proof.
  intros G. split.
  - intros x y. apply (gc_opp cmp G).
  - intros c x y z. apply (gc_trans cmp G).
  - intros x y z. apply (gc_eq_l cmp G).
Qed.

Lemma good_cmp_then {A : Type} (c1 c2 : A -> A -> comparison) :
  good_cmp c1 -> good_cmp c2 ->
  good_cmp (fun x y => then_compare (c1 x y) (c2 x y)).
Proof.
  intros G1 G2. split.
  - intros x y. rewrite (gc_opp c1 G1 x y), (gc_opp c2 G2 x y).
    destruct (c1 x y); reflexivity.
  - intros c x y z H1 H2.
    destruct (c1 x y) eqn:E1.
    + rewrite (gc_eq_l c1 G1 _ _ z E1).
      destruct (c1 y z) eqn:E2; simpl in *; try congruence.
      eapply (gc_trans c2 G2); eassumption.
    + destruct (c1 y z) eqn:E2; simpl in *.
      * rewrite <- (gc_eq_r c1 G1 x _ _ E2), E1. exact H1.
      * rewrite (gc_trans c1 G1 Lt _ _ _ E1 E2). exact H1.
      * congruence.
    + destruct (c1 y z) eqn:E2; simpl in *.
      * rewrite <- (gc_eq_r c1 G1 x _ _ E2), E1. exact H1.
      * congruence.
      * rewrite (gc_trans c1 G1 Gt _ _ _ E1 E2). exact H1.
  - intros x y z H.
    destruct (c1 x y) eqn:E1; simpl in H; try discriminate.
    rewrite (gc_eq_l c1 G1 _ _ z E1), (gc_eq_l c2 G2 _ _ z H). reflexivity.
Qed.

Lemma good_cmp_row : good_cmp row_compare.
Proof.
  apply (good_cmp_then
           (fun x y => compare_na Z.compare (DATE x) (DATE y))
           (fun x y => then_compare (compare_na str_compare (EVENT x) (EVENT y))
                                    (compare_na str_compare (BOUT x) (BOUT y)))).
  - apply (good_cmp_on DATE), good_cmp_na, good_cmp_Z.
  - apply (good_cmp_then
             (fun x y => compare_na str_compare (EVENT x) (EVENT y))
             (fun x y => compare_na str_compare (BOUT x) (BOUT y))).
    + apply (good_cmp_on EVENT), good_cmp_na, good_cmp_str.
    + apply (good_cmp_on BOUT), good_cmp_na, good_cmp_str.
Qed.

Lemma row_leb_compare (x y : row) : row_leb x y = true <-> row_compare x y <> Gt.
Proof.
  unfold row_leb. fold (row_compare x y).
  destruct (row_compare x y); split; congruence.
Qed.

Lemma row_leb_total (x y : row) : row_leb x y = true \/ row_leb y x = true.
Proof. rewrite !row_leb_compare. apply good_cmp_le_total, good_cmp_row. Qed.

Lemma row_leb_trans (x y z : row) :
  row_leb x y = true -> row_leb y z = true -> row_leb x z = true.
Proof. rewrite !row_leb_compare. apply good_cmp_le_trans, good_cmp_row. Qed.

Lemma row_leb_date (x y : row) :
  row_leb x y = true -> date_le (DATE x) (DATE y).
Proof.
  rewrite row_leb_compare. intros H. apply compare_na_date. intros E.
  apply H. unfold row_compare. rewrite E. reflexivity.
Qed.

Lemma compare_na_Eq {A : Type} (cmp : A -> A -> comparison) (a b : option A) :
  (forall x y, cmp x y = Eq -> x = y) -> compare_na cmp a b = Eq -> a = b.
Proof.
  intros H. destruct a, b; simpl; try discriminate; [|reflexivity].
  intros E. f_equal. apply H, E.
Qed.

Lemma row_compare_Eq (x y : row) :
  row_compare x y = Eq ->
  DATE x = DATE y /\ EVENT x = EVENT y /\ BOUT x = BOUT y.
Proof.
  unfold row_compare.
  destruct (compare_na Z.compare (DATE x) (DATE y)) eqn:E1; try discriminate.
  destruct (compare_na str_compare (EVENT x) (EVENT y)) eqn:E2; try discriminate.
  simpl. intros E3. repeat split.
  - eapply compare_na_Eq; [|exact E1]. apply Z.compare_eq.
  - eapply compare_na_Eq; [|exact E2]. intros a b. apply str_compare_Eq.
  - eapply compare_na_Eq; [|exact E3]. intros a b. apply str_compare_Eq.
Qed.

Lemma StronglySorted_filter {A : Type} (R : A -> A -> Prop) (f : A -> bool)
    (l : list A) :
  StronglySorted R l -> StronglySorted R (List.filter f l).
Proof.
  induction 1 as [|x t Hs IH Hall]; simpl; [constructor|].
  destruct (f x); [|exact IH]. constructor; [exact IH|].
  rewrite List.Forall_forall in Hall |- *. intros y Hy.
  apply List.filter_In in Hy as [Hy _]. apply Hall, Hy.
Qed.

Lemma StronglySorted_map {A B : Type} (R : B -> B -> Prop) (g : A -> B)
    (l : list A) :
  StronglySorted (fun x y => R (g x) (g y)) l -> StronglySorted R (map g l).
Proof.
  induction 1 as [|x t Hs IH Hall]; simpl; constructor; [exact IH|].
  rewrite List.Forall_forall in Hall |- *. intros y Hy.
  apply in_map_iff in Hy as (z & <- & Hz). apply Hall, Hz.
Qed.

(** X6: the ledger is chronological.  Whatever the order of the input rows,
    the dates of the ledger of a run that completes never decrease, the
    records without a date coming last. *)
Theorem ledger_is_chronological
    (cfg : EloConfig) (rows : list row)
    (hist : list audit) (snap : list rating_row) :
  run_elo cfg rows = Some (hist, snap) ->
  StronglySorted date_le (map h_DATE hist).
Proof.
  intros Hrun. apply run_elo_Some in Hrun as (st & Hp & _ & -> & _).
  destruct (process_ledger_keys _ _ _ _ Hp) as (new & Hh & Hk).
  rewrite Hh. cbn [init_state history_rows app].
  assert (Hd : map h_DATE new
               = map DATE (List.filter is_rated (sort_by row_leb rows))).
  { apply (f_equal (map (fun k => fst (fst (fst (fst k)))))) in Hk.
    rewrite !map_map in Hk. exact Hk. }
  rewrite Hd. apply StronglySorted_map, StronglySorted_filter.
  eapply StronglySorted_impl; [|apply sort_by_sorted].
  - intros x y. apply row_leb_date.
  - apply row_leb_total.
  - apply row_leb_trans.
Qed.

Section SortMore.
Context {A : Type}.
Variable leb : A -> A -> bool.
Hypothesis leb_total : forall x y, leb x y = true \/ leb y x = true.
Hypothesis leb_trans :
  forall x y z, leb x y = true -> leb y z = true -> leb x z = true.

Lemma insert_by_head (x : A) (l : list A) :
  (forall z, In z l -> leb x z = true) -> insert_by leb x l = x :: l.
Proof using Type.
  destruct l as [|y t]; [reflexivity|]. intros H. simpl.
  rewrite (H y); [reflexivity|left; reflexivity].
Qed.

Lemma filter_insert_by (f : A -> bool) (x : A) (l : list A) :
  StronglySorted (fun a b => leb a b = true) l ->
  List.filter f (insert_by leb x l) =
  if f x then insert_by leb x (List.filter f l) else List.filter f l.
Proof using leb_trans.
  induction 1 as [|y t Hs IH Hall].
  - simpl. destruct (f x); reflexivity.
  - rewrite List.Forall_forall in Hall. cbn [insert_by].
    destruct (leb x y) eqn:E.
    + cbn [List.filter]. destruct (f x) eqn:Fx; [|reflexivity].
      destruct (f y) eqn:Fy.
      * cbn [insert_by]. rewrite E. reflexivity.
      * symmetry. apply insert_by_head. intros z Hz.
        apply List.filter_In in Hz as [Hz _].
        eapply leb_trans; [exact E|apply Hall, Hz].
    + cbn [List.filter]. rewrite IH.
      destruct (f y) eqn:Fy, (f x) eqn:Fx; try reflexivity.
      cbn [insert_by]. rewrite E. reflexivity.
Qed.

(** Sorting and filtering can be exchanged. *)
Lemma sort_by_filter (f : A -> bool) (l : list A) :
  sort_by leb (List.filter f l) = List.filter f (sort_by leb l).
Proof using leb_total leb_trans.
  induction l as [|x t IH]; [reflexivity|].
  cbn [sort_by List.filter].
  rewrite filter_insert_by by (apply sort_by_sorted; assumption).
  destruct (f x); [cbn [sort_by]; rewrite IH; reflexivity|exact IH].
Qed.

(** Two sorted lists with the same elements are the same list when no two
    different elements are level. *)
Lemma sorted_perm_unique (l1 l2 : list A) :
  (forall x y, In x l1 -> In y l1 -> leb x y = true -> leb y x = true -> x = y) ->
  StronglySorted (fun a b => leb a b = true) l1 ->
  StronglySorted (fun a b => leb a b = true) l2 ->
  Permutation l1 l2 -> l1 = l2.
Proof using Type.
  revert l2. induction l1 as [|x t1 IH]; intros l2 Hanti S1 S2 Hp.
  - apply Permutation_nil in Hp. congruence.
  - destruct l2 as [|y t2]; [apply Permutation_sym, Permutation_nil in Hp; discriminate|].
    inversion S1 as [|? ? S1' H1]; subst. inversion S2 as [|? ? S2' H2]; subst.
    rewrite List.Forall_forall in H1, H2.
    assert (Hxy : x = y).
    { assert (Hy : In y (x :: t1))
        by (apply (Permutation_in _ (Permutation_sym Hp)); left; reflexivity).
      assert (Hx : In x (y :: t2))
        by (apply (Permutation_in _ Hp); left; reflexivity).
      destruct Hy as [Hy|Hy]; [exact Hy|].
      destruct Hx as [Hx|Hx]; [congruence|].
      apply Hanti; [left; reflexivity|right; exact Hy|apply H1, Hy|apply H2, Hx]. }
    subst y. f_equal. apply IH; [|assumption|assumption|].
    + intros a b Ha Hb. apply Hanti; right; assumption.
    + eapply Permutation_cons_inv, Hp.
Qed.
End SortMore.

(** X7: rows that are not rated can be left out of the input of [run_elo]:
    ledger and snapshot are the same. *)
Theorem run_elo_ignores_unrated_rows (cfg : EloConfig) (rows : list row) :
  run_elo cfg (List.filter is_rated rows) = run_elo cfg rows.
Proof.
  unfold run_elo.
  rewrite (sort_by_filter row_leb row_leb_total row_leb_trans).
  rewrite <- process_filter_rated. reflexivity.
Qed.

(** X8: when date, event and bout label tell the rows apart, the order of
    the rows in the input does not matter: [run_elo] gives the same ledger
    and the same snapshot for every arrangement of them. *)
Theorem run_elo_independent_of_input_order
    (cfg : EloConfig) (rows1 rows2 : list row) :
  Permutation rows1 rows2 ->
  (forall x y, In x rows1 -> In y rows1 ->
     DATE x = DATE y -> EVENT x = EVENT y -> BOUT x = BOUT y -> x = y) ->
  run_elo cfg rows1 = run_elo cfg rows2.
Proof.
  intros Hp Hkey. unfold run_elo.
  rewrite (sorted_perm_unique row_leb (sort_by row_leb rows1)
             (sort_by row_leb rows2)); [reflexivity| | | |].
  - intros x y Hx Hy Hxy Hyx.
    apply (proj1 (sort_by_In row_leb _ _)) in Hx.
    apply (proj1 (sort_by_In row_leb _ _)) in Hy.
    apply row_leb_compare in Hxy. apply row_leb_compare in Hyx.
    rewrite (gc_opp row_compare good_cmp_row x y) in Hyx.
    destruct (row_compare x y) eqn:E; simpl in *; try congruence.
    destruct (row_compare_Eq _ _ E) as (H1 & H2 & H3). apply Hkey; assumption.
  - apply sort_by_sorted; [apply row_leb_total|apply row_leb_trans].
  - apply sort_by_sorted; [apply row_leb_total|apply row_leb_trans].
  - rewrite !sort_by_perm. exact Hp.
Qed.

(* ===================================================================== *)
(** * Normalised text *)
(* ===================================================================== *)

(** X9: the normal form of text.  The result of [normalize_text] has no
    whitespace at either end, its only whitespace is single spaces between
    other code points, and normalising it again changes nothing. *)
Theorem normalize_text_normal_form (s : option str) :
  let t := normalize_text s in
  strip t = t
  /\ single_spaced false t = true
  /\ normalize_text (Some t) = t.
Proof.
  intros t. split; [|split].
  - unfold t. destruct s as [s|]; [apply strip_collapse_strip|reflexivity].
  - unfold t. destruct s as [s|]; [apply collapse_from_single_spaced|reflexivity].
  - apply normalize_text_idem.
Qed.

Lemma is_space_printable (c : N) : (33 <= c <= 132)%N -> is_space c = false.
Proof.
  intros H. unfold is_space.
  rewrite (proj2 (N.leb_gt c 13)) by lia.
  rewrite (proj2 (N.leb_gt c 32)) by lia.
  rewrite (proj2 (N.eqb_neq c 133)) by lia.
  rewrite (proj2 (N.eqb_neq c 160)) by lia.
  rewrite (proj2 (N.eqb_neq c 5760)) by lia.
  rewrite (proj2 (N.leb_gt 8192 c)) by lia.
  rewrite (proj2 (N.eqb_neq c 8232)) by lia.
  rewrite (proj2 (N.eqb_neq c 8233)) by lia.
  rewrite (proj2 (N.eqb_neq c 8239)) by lia.
  rewrite (proj2 (N.eqb_neq c 8287)) by lia.
  rewrite (proj2 (N.eqb_neq c 12288)) by lia.
  rewrite !andb_false_r. reflexivity.
Qed.

Lemma is_space_lower_char (c : N) : is_space (lower_char c) = is_space c.
Proof.
  unfold lower_char.
  destruct (65 <=? c)%N eqn:E1; [|reflexivity].
  destruct (c <=? 90)%N eqn:E2; [|reflexivity]. simpl.
  apply N.leb_le in E1. apply N.leb_le in E2.
  rewrite !is_space_printable by lia. reflexivity.
Qed.

Lemma lower_char_idem (c : N) : lower_char (lower_char c) = lower_char c.
Proof.
  unfold lower_char at 2 3.
  destruct ((65 <=? c) && (c <=? 90))%N eqn:E.
  - unfold lower_char. apply andb_prop in E as [E1 E2].
    apply N.leb_le in E1. apply N.leb_le in E2.
    rewrite (proj2 (N.leb_gt (c + 32) 90)) by lia.
    rewrite andb_false_r. reflexivity.
  - unfold lower_char. rewrite E. reflexivity.
Qed.

Lemma lower_idem (s : str) : lower (lower s) = lower s.
Proof.
  unfold lower. rewrite map_map. apply map_ext. intros c. apply lower_char_idem.
Qed.

Lemma lower_lstrip (s : str) : lower (lstrip s) = lstrip (lower s).
Proof.
  unfold lstrip. induction s as [|c t IH]; [reflexivity|]. simpl.
  rewrite is_space_lower_char. destruct (is_space c); [exact IH|reflexivity].
Qed.

Lemma lower_rstrip (s : str) : lower (rstrip s) = rstrip (lower s).
Proof.
  induction s as [|c t IH]; [reflexivity|]. simpl. rewrite <- IH.
  rewrite is_space_lower_char.
  destruct (rstrip t); simpl; [destruct (is_space c)|]; reflexivity.
Qed.

Lemma lower_collapse_from (b : bool) (s : str) :
  lower (collapse_from b s) = collapse_from b (lower s).
Proof.
  revert b. induction s as [|c t IH]; intros b; [reflexivity|]. simpl.
  rewrite is_space_lower_char.
  destruct (is_space c); [destruct b|]; simpl; rewrite IH; reflexivity.
Qed.

(** Case folding and normalisation can be exchanged. *)
Lemma lower_normalize_text (s : str) :
  lower (normalize_text (Some s)) = normalize_text (Some (lower s)).
Proof.
  unfold normalize_text, collapse, strip.
  rewrite lower_collapse_from, lower_rstrip, lower_lstrip. reflexivity.
Qed.

Lemma starts_with_space_free_collapse (p s : str) :
  space_free p ->
  starts_with p (collapse_from false s) = starts_with p s.
Proof.
  intros Hp. revert s. induction Hp as [|a p' Ha Hp IH]; intros s.
  - destruct (collapse_from false s), s; reflexivity.
  - destruct s as [|x t]; [reflexivity|]. simpl.
    destruct (is_space x) eqn:Ex.
    + simpl. replace (a =? 32)%N with false; [|symmetry; apply N.eqb_neq;
        intros ->; discriminate Ha].
      replace (a =? x)%N with false; [reflexivity|].
      symmetry. apply N.eqb_neq. intros ->. congruence.
    + simpl. rewrite IH. reflexivity.
Qed.

Lemma contains_space_free_collapse (p : str) (b : bool) (s : str) :
  p <> [] -> space_free p ->
  contains p (collapse_from b s) = contains p s.
Proof.
  intros Hne Hp. destruct p as [|a p']; [contradiction|].
  inversion Hp as [|? ? Ha Hp']; subst.
  revert b. induction s as [|x t IH]; intros b; [reflexivity|].
  cbn [collapse_from]. destruct (is_space x) eqn:Ex.
  - assert (Hax : (a =? x)%N = false).
    { apply N.eqb_neq. intros ->. congruence. }
    cbn [contains starts_with]. rewrite Hax. cbn [andb orb].
    destruct b; [apply IH|].
    cbn [contains starts_with].
    replace (a =? 32)%N with false; [|symmetry; apply N.eqb_neq;
      intros ->; discriminate Ha].
    cbn [andb orb]. apply IH.
  - cbn [contains]. rewrite IH. f_equal.
    cbn [starts_with]. f_equal.
    apply starts_with_space_free_collapse, Hp'.
Qed.

Lemma contains_space_free_lstrip (p s : str) :
  p <> [] -> space_free p -> contains p (lstrip s) = contains p s.
Proof.
  intros Hne Hp. destruct p as [|a p']; [contradiction|].
  inversion Hp as [|? ? Ha Hp']; subst.
  unfold lstrip. induction s as [|x t IH]; [reflexivity|].
  cbn [drop_while]. destruct (is_space x) eqn:Ex; [|reflexivity].
  rewrite IH. cbn [contains starts_with].
  replace (a =? x)%N with false; [reflexivity|].
  symmetry. apply N.eqb_neq. intros ->. congruence.
Qed.

Lemma starts_with_space_free_rstrip (p s : str) :
  space_free p -> starts_with p (rstrip s) = starts_with p s.
Proof.
  intros Hp. revert s. induction Hp as [|a p' Ha Hp IH]; intros s.
  - destruct (rstrip s), s; reflexivity.
  - destruct s as [|x t]; [reflexivity|]. cbn [rstrip].
    specialize (IH t).
    destruct (rstrip t) as [|n l].
    + destruct (is_space x) eqn:Ex.
      * cbn [starts_with]. replace (a =? x)%N with false; [reflexivity|].
        symmetry. apply N.eqb_neq. intros ->. congruence.
      * cbn [starts_with]. rewrite <- IH. reflexivity.
    + cbn [starts_with]. rewrite <- IH. reflexivity.
Qed.

Lemma contains_space_free_rstrip (p s : str) :
  p <> [] -> space_free p -> contains p (rstrip s) = contains p s.
Proof.
  intros Hne Hp. destruct p as [|a p']; [contradiction|].
  induction s as [|x t IH]; [reflexivity|].
  cbn [contains]. rewrite <- IH, <- (starts_with_space_free_rstrip _ (x :: t) Hp).
  cbn [rstrip]. destruct (rstrip t) as [|n l].
  - destruct (is_space x); cbn [contains starts_with];
      rewrite ?orb_false_r; reflexivity.
  - reflexivity.
Qed.

Lemma contains_normalize_text (p s : str) :
  p <> [] -> space_free p ->
  contains p (normalize_text (Some s)) = contains p s.
Proof.
  intros Hne Hp. unfold normalize_text, collapse, strip.
  rewrite contains_space_free_collapse, contains_space_free_rstrip,
    contains_space_free_lstrip by assumption.
  reflexivity.
Qed.


(* ===================================================================== *)
(** * The classifier: what decides the category *)
(* ===================================================================== *)

Section ClassifierMore.
Context {M : Type}.
Variables m_finish m_dom m_dec : M.

(** [classify_row] in terms of the lowercase normalised label and method
    text. *)
Lemma classify_row_eq (r : bout) :
  let outcome := lower (normalize_text (b_winner_label r)) in
  let m := lower (normalize_text (b_METHOD r)) in
  let margins := parse_scorecard_margins (Some (normalize_text (b_DETAILS r))) in
  let margins_str := join (lit ",") (map str_of_int margins) in
  classify_row m_finish m_dom m_dec r =
  if str_eqb outcome (lit "draw") then (draw, m_dec, outcome_draw, [])
  else if str_eqb outcome (lit "nc") then (nc, m_dec, outcome_nc, [])
  else if any_token_in m && negb (contains (lit "decision") m)
  then (finish, m_finish, method_finish, [])
  else if contains (lit "decision") m then
    if contains (lit "split") m then (decision_normal, m_dec, method_split, [])
    else if contains (lit "majority") m
    then (decision_normal, m_dec, method_majority, [])
    else match margins with
         | _ :: _ =>
             if existsb (fun x => (3 <=? x)%Z) margins
             then (decision_dominant, m_dom, details_any_margin_ge_3, margins_str)
             else if (2 <=? length (filter (fun x => (2 <= x)%Z) margins))%nat
             then (decision_dominant, m_dom, details_two_cards_ge_2, margins_str)
             else (decision_normal, m_dec, details_small_margins, margins_str)
         | [] =>
             if contains (lit "unanimous") m
             then (decision_dominant, m_dom, method_unanimous_no_details, [])
             else (decision_normal, m_dec, method_generic_decision, [])
         end
  else (other, m_dec, unknown_method, []).
Proof.
  intros outcome m margins margins_str.
  unfold classify_row. cbv zeta. fold outcome.
  destruct (str_eqb outcome (lit "draw")); [reflexivity|].
  destruct (str_eqb outcome (lit "nc")); [reflexivity|].
  rewrite method_is_finish_normalized, method_is_decision_normalized.
  rewrite method_decision_type_normalized. unfold method_decision_type.
  fold m margins.
  destruct (contains (lit "decision") m) eqn:Hd.
  - rewrite andb_false_r.
    destruct (contains (lit "split") m); [reflexivity|].
    destruct (contains (lit "majority") m); [reflexivity|].
    destruct (contains (lit "unanimous") m); reflexivity.
  - rewrite andb_true_r. destruct (any_token_in m); reflexivity.
Qed.

(** X11: the classification depends on the label and the method text only
    up to letter case and spacing, and on the detail text only up to
    spacing. *)
Theorem classify_row_case_and_space_insensitive (r r' : bout) :
  lower (normalize_text (b_winner_label r))
  = lower (normalize_text (b_winner_label r')) ->
  lower (normalize_text (b_METHOD r)) = lower (normalize_text (b_METHOD r')) ->
  normalize_text (b_DETAILS r) = normalize_text (b_DETAILS r') ->
  classify_row m_finish m_dom m_dec r = classify_row m_finish m_dom m_dec r'.
Proof.
  intros H1 H2 H3. rewrite !classify_row_eq. cbv zeta.
  rewrite H1, H2, H3. reflexivity.
Qed.

(** X12: category, multiplier and basis always fit together: the category is
    the one of the basis tag, the multiplier is the finish multiplier for a
    finish, the dominant one for a dominant decision and the normal one for
    everything else, and a margin string is only given with a basis read
    off the scorecards. *)
Theorem classify_row_is_consistent (r : bout) :
  let res := classify_row m_finish m_dom m_dec r in
  category_of res = category_of_basis (basis_of res)
  /\ multiplier_of res =
     match category_of res with
     | finish => m_finish
     | decision_dominant => m_dom
     | _ => m_dec
     end
  /\ (from_details (basis_of res) = false -> margins_of res = []).
Proof.
  cbv zeta. rewrite classify_row_eq. cbv zeta.
  repeat match goal with
         | |- context [if ?c then _ else _] => destruct c
         | |- context [match ?l with [] => _ | _ :: _ => _ end] => destruct l
         end;
    (split; [reflexivity|split; [reflexivity|]]);
    cbn; intros; try reflexivity; discriminate.
Qed.

(** X13: what decides the category, for ASCII label and method text.
    Draw and no-contest come from the outcome label alone; otherwise a
    finish keyword without "decision" gives a finish, "decision" gives one
    of the two decision categories, and a method text with neither gives
    [other]. *)
Theorem classify_row_category (r : bout) :
  ascii_cell (b_winner_label r) -> ascii_cell (b_METHOD r) ->
  let outcome := lower (normalize_text (b_winner_label r)) in
  let m := lower (normalize_text (b_METHOD r)) in
  let c := category_of (classify_row m_finish m_dom m_dec r) in
  (c = draw <-> outcome = lit "draw")
  /\ (c = nc <-> outcome <> lit "draw" /\ outcome = lit "nc")
  /\ (c = finish <->
      outcome <> lit "draw" /\ outcome <> lit "nc"
      /\ any_token_in m = true /\ contains (lit "decision") m = false)
  /\ (c = decision_dominant \/ c = decision_normal <->
      outcome <> lit "draw" /\ outcome <> lit "nc"
      /\ contains (lit "decision") m = true)
  /\ (c = other <->
      outcome <> lit "draw" /\ outcome <> lit "nc"
      /\ any_token_in m = false /\ contains (lit "decision") m = false).
Proof.
  intros _ _ outcome m c. subst c. rewrite classify_row_eq. cbv zeta.
  fold outcome m. unfold str_eqb.
  destruct (bool_decide_reflect (outcome = lit "draw")) as [Hd|Hd].
  { cbn. repeat split; try tauto; try discriminate;
      intros; try tauto; intuition discriminate. }
  destruct (bool_decide_reflect (outcome = lit "nc")) as [Hn|Hn].
  { cbn. repeat split; try tauto; try discriminate;
      intros; try tauto; intuition discriminate. }
  destruct (any_token_in m) eqn:Ht, (contains (lit "decision") m) eqn:Hdec;
    cbn [andb negb];
    repeat match goal with
           | |- context [if ?c then _ else _] => destruct c
           | |- context [match ?l with [] => _ | _ :: _ => _ end] => destruct l
           end;
    cbn; repeat split; try tauto; try discriminate;
    intros; try tauto; intuition discriminate.
Qed.
End ClassifierMore.

(* ===================================================================== *)
(** * Numbers in text *)
(* ===================================================================== *)

Lemma lit_String (c : ascii) (s : string) :
  lit (String c s) = N_of_ascii c :: lit s.
Proof. reflexivity. Qed.

Lemma fold_digits_uint (d : Decimal.uint) (acc : N) :
  fold_left (fun a c => (10 * a + (Z.of_N c - 48))%Z)
    (lit (NilEmpty.string_of_uint d)) (Z.of_N acc)
  = Z.of_N (uint_value d acc).
Proof.
  revert acc. induction d; intros acc; cbn [NilEmpty.string_of_uint uint_value];
    [reflexivity|..];
    rewrite lit_String; cbn [fold_left]; rewrite <- IHd; f_equal;
    vm_compute N_of_ascii; lia.
Qed.

Lemma uint_value_pos (d : Decimal.uint) (p : positive) :
  uint_value d (N.pos p) = N.pos (Pos.of_uint_acc d p).
Proof.
  revert p. induction d; intros p; cbn [uint_value Pos.of_uint_acc];
    [reflexivity|..]; rewrite <- IHd; f_equal; lia.
Qed.

Lemma uint_value_0 (d : Decimal.uint) : uint_value d 0 = Pos.of_uint d.
Proof.
  induction d; cbn [uint_value Pos.of_uint]; [reflexivity|exact IHd|..];
    apply uint_value_pos.
Qed.

Lemma all_digits_uint (d : Decimal.uint) :
  all_digits (lit (NilEmpty.string_of_uint d)).
Proof.
  induction d; cbn [NilEmpty.string_of_uint]; [exact (List.Forall_nil _)|..];
    (rewrite lit_String; constructor; [reflexivity|exact IHd]).
Qed.

(** [int(str(n)) = n], and [str(n)] is a non-empty run of digits. *)
Lemma int_of_digits_str_of_int (n : Z) :
  (0 <= n)%Z ->
  int_of_digits (str_of_int n) = n
  /\ all_digits (str_of_int n) /\ str_of_int n <> [].
Proof.
  intros Hn. unfold int_of_digits, str_of_int.
  destruct n as [|p|p]; [| |lia].
  - split; [reflexivity|]. split; [repeat constructor|discriminate].
  - cbn [Z.to_int NilEmpty.string_of_int]. split; [|split].
    + change 0%Z with (Z.of_N 0). rewrite fold_digits_uint, uint_value_0.
      rewrite DecimalPos.Unsigned.of_to. reflexivity.
    + apply all_digits_uint.
    + pose proof (DecimalPos.Unsigned.to_uint_nonnil p) as Hnil.
      destruct (Pos.to_uint p); [contradiction|..]; discriminate.
Qed.

Lemma is_digit_not_space (c : N) : is_digit c = true -> is_space c = false.
Proof.
  unfold is_digit. intros H. apply andb_prop in H as [H1 H2].
  apply N.leb_le in H1. apply N.leb_le in H2. apply is_space_printable. lia.
Qed.

Lemma take_while_run (p : N -> bool) (a rest : str) :
  Forall (fun c => p c = true) a -> stops p rest ->
  take_while p (a ++ rest) = a /\ drop_while p (a ++ rest) = rest.
Proof.
  intros Ha Hr. induction Ha as [|c t Hc Ht IH]; simpl.
  - destruct rest as [|x r]; [auto|]. simpl in Hr |- *. rewrite Hr. auto.
  - rewrite Hc. destruct IH as [-> ->]. auto.
Qed.

(* ===================================================================== *)
(** * Scorecards *)
(* ===================================================================== *)

(** The attempt on a card ["a - b"] followed by something that is not a
    digit. *)
Lemma score_match_card (a b rest : str) :
  all_digits a -> a <> [] -> all_digits b -> b <> [] ->
  stops is_digit rest ->
  score_match (a ++ lit " - " ++ b ++ rest)
  = Some (a, b, length (a ++ lit " - " ++ b)).
Proof.
  intros Ha Hane Hb Hbne Hr. unfold score_match.
  destruct (take_while_run is_digit a (lit " - " ++ b ++ rest) Ha) as [T1 D1];
    [reflexivity|].
  rewrite T1, D1.
  destruct a as [|a0 a']; [contradiction|].
  change (drop_while is_space (lit " - " ++ b ++ rest))
    with (45%N :: 32%N :: b ++ rest).
  cbv iota beta.
  change (is_dash 45) with true. cbv iota.
  assert (D2 : drop_while is_space (32%N :: b ++ rest) = b ++ rest).
  { destruct b as [|b0 b']; [contradiction|]. inversion Hb; subst.
    simpl. rewrite (is_digit_not_space b0) by assumption. reflexivity. }
  rewrite D2.
  destruct (take_while_run is_digit b rest Hb Hr) as [T3 D3].
  rewrite T3, D3. destruct b as [|b0 b']; [contradiction|].
  f_equal. f_equal. rewrite !length_app. lia.
Qed.

Lemma findall_from_skip (p s : str) :
  findall_from (length p) (p ++ s) = findall_from 0 s.
Proof. induction p as [|c t IH]; [reflexivity|exact IH]. Qed.

Lemma findall_card (a b rest : str) :
  all_digits a -> a <> [] -> all_digits b -> b <> [] ->
  stops is_digit rest ->
  findall_from 0 (a ++ lit " - " ++ b ++ rest)
  = (a, b) :: findall_from 0 rest.
Proof.
  intros Ha Hane Hb Hbne Hr.
  pose proof (score_match_card a b rest Ha Hane Hb Hbne Hr) as Hm.
  destruct a as [|a0 a']; [contradiction|].
  change ((a0 :: a') ++ lit " - " ++ b ++ rest)
    with (a0 :: (a' ++ lit " - " ++ b ++ rest)) in *.
  cbn [findall_from]. rewrite Hm. f_equal.
  replace (a' ++ lit " - " ++ b ++ rest)
    with ((a' ++ lit " - " ++ b) ++ rest)
    by (rewrite <- !app_assoc; reflexivity).
  replace (Init.Nat.pred (length ((a0 :: a') ++ lit " - " ++ b)))
    with (length (a' ++ lit " - " ++ b)) by reflexivity.
  apply findall_from_skip.
Qed.

Lemma findall_non_digit (c : N) (s : str) :
  is_digit c = false -> findall_from 0 (c :: s) = findall_from 0 s.
Proof.
  intros Hc. cbn [findall_from]. unfold score_match. cbn [take_while].
  rewrite Hc. reflexivity.
Qed.

Lemma replace_commas_app (a b : str) :
  replace_commas (a ++ b) = replace_commas a ++ replace_commas b.
Proof. unfold replace_commas. apply map_app. Qed.

Lemma replace_commas_digits (a : str) : all_digits a -> replace_commas a = a.
Proof.
  unfold replace_commas. induction 1 as [|c t Hc Ht IH]; [reflexivity|].
  simpl. rewrite IH. f_equal.
  destruct (N.eqb_spec c 44) as [->|]; [discriminate Hc|reflexivity].
Qed.

Lemma findall_cards (cards : list (Z * Z)) (sep : N) :
  is_digit sep = false ->
  Forall (fun ab => (0 <= fst ab)%Z /\ (0 <= snd ab)%Z) cards ->
  findall_from 0 (replace_commas (join [sep] (map render_card cards)))
  = map (fun ab => (str_of_int (fst ab), str_of_int (snd ab))) cards.
Proof.
  intros Hsep Hall.
  set (sep' := if (sep =? 44)%N then 32%N else sep).
  assert (Hsep' : is_digit sep' = false).
  { unfold sep'. destruct (sep =? 44)%N; [reflexivity|exact Hsep]. }
  assert (Hcard : forall ab, (0 <= fst ab)%Z /\ (0 <= snd ab)%Z ->
            replace_commas (render_card ab) = render_card ab).
  { intros ab [Ha Hb]. unfold render_card.
    destruct (int_of_digits_str_of_int _ Ha) as (_ & Da & _).
    destruct (int_of_digits_str_of_int _ Hb) as (_ & Db & _).
    rewrite !replace_commas_app, (replace_commas_digits _ Da),
      (replace_commas_digits _ Db).
    reflexivity. }
  induction Hall as [|ab rest [Ha Hb] Hrest IH]; [reflexivity|].
  destruct (int_of_digits_str_of_int _ Ha) as (_ & Da & Na).
  destruct (int_of_digits_str_of_int _ Hb) as (_ & Db & Nb).
  cbn [map join]. destruct rest as [|ab' rest'].
  - cbn [map]. rewrite Hcard by auto. unfold render_card.
    rewrite <- (app_nil_r (str_of_int (snd ab))) at 1.
    rewrite findall_card by (assumption || exact I). reflexivity.
  - cbn [map] in *. rewrite !replace_commas_app, Hcard by auto.
    change (replace_commas [sep]) with [sep'].
    unfold render_card at 1. rewrite <- !app_assoc.
    rewrite findall_card by (assumption || exact Hsep').
    cbn [app]. rewrite findall_non_digit by exact Hsep'.
    rewrite IH. reflexivity.
Qed.

Lemma rstrip_nonempty (c : N) (t : str) :
  is_space c = false -> rstrip (c :: t) <> [].
Proof.
  intros Hc. simpl. destruct (rstrip t); [rewrite Hc|]; discriminate.
Qed.

Lemma py_int_str_of_int (n : Z) :
  (0 <= n)%Z -> (length (str_of_int n) <= 4300)%nat ->
  py_int (str_of_int n) = Some n.
Proof.
  intros Hn Hlen. unfold py_int.
  destruct (N.ltb_spec 4300 (N.of_nat (length (str_of_int n)))) as [H|_];
    [lia|].
  destruct (int_of_digits_str_of_int n Hn) as (-> & _). reflexivity.
Qed.

Lemma flat_map_single {A B : Type} (f : A -> list B) (g : A -> B) (l : list A) :
  (forall x, In x l -> f x = [g x]) -> flat_map f l = map g l.
Proof.
  induction l as [|x t IH]; intros H; [reflexivity|].
  cbn [flat_map map]. rewrite (H x) by (left; reflexivity).
  rewrite IH by (intros y Hy; apply H; right; exact Hy). reflexivity.
Qed.

(** X14: printed scorecards parse back.  From judge cards with totals of
    at most 4300 digits, printed as ["a - b"] and separated by any one
    ASCII code point that is not a digit (comma, full stop, space, ...),
    [parse_scorecard_margins] returns the margins |a - b|, one per card and
    in order. *)
Theorem scorecards_round_trip (cards : list (Z * Z)) (sep : N) :
  cards <> [] ->
  (sep < 128)%N ->
  is_digit sep = false ->
  Forall (fun ab => (0 <= fst ab)%Z /\ (0 <= snd ab)%Z) cards ->
  Forall (fun ab => (length (str_of_int (fst ab)) <= 4300)%nat
                    /\ (length (str_of_int (snd ab)) <= 4300)%nat) cards ->
  parse_scorecard_margins (Some (join [sep] (map render_card cards)))
  = map (fun ab => Z.abs (fst ab - snd ab)) cards.
Proof.
  intros Hne _ Hsep Hall Hlen. unfold parse_scorecard_margins.
  assert (Hstrip : strip (join [sep] (map render_card cards)) <> []).
  { destruct cards as [|ab rest]; [contradiction|].
    inversion Hall as [|? ? [Ha Hb] Hrest]; subst.
    destruct (int_of_digits_str_of_int _ Ha) as (_ & Da & Na).
    assert (Hhead : exists c t, is_space c = false
              /\ join [sep] (map render_card (ab :: rest)) = c :: t).
    { destruct (str_of_int (fst ab)) as [|c t] eqn:Hs; [contradiction|].
      inversion Da; subst. exists c.
      destruct rest as [|ab' rest']; cbn [map join]; unfold render_card;
        rewrite Hs; eexists;
        (split; [apply is_digit_not_space; assumption|reflexivity]). }
    destruct Hhead as (c & t & Hc & ->).
    unfold strip, lstrip. cbn [drop_while]. rewrite Hc.
    apply rstrip_nonempty, Hc. }
  destruct (strip (join [sep] (map render_card cards))); [contradiction|].
  unfold score_findall. rewrite (findall_cards cards sep Hsep Hall).
  rewrite (flat_map_single pair_margin
             (fun p => Z.abs (int_of_digits (fst p) - int_of_digits (snd p)))).
  - rewrite map_map. apply map_ext_in. intros ab Hin. cbn [fst snd].
    rewrite List.Forall_forall in Hall. destruct (Hall ab Hin) as [Ha Hb].
    destruct (int_of_digits_str_of_int _ Ha) as (-> & _).
    destruct (int_of_digits_str_of_int _ Hb) as (-> & _).
    reflexivity.
  - intros p Hp. apply in_map_iff in Hp as (ab & <- & Hin).
    rewrite List.Forall_forall in Hall, Hlen.
    destruct (Hall ab Hin) as [Ha Hb]. destruct (Hlen ab Hin) as [La Lb].
    unfold pair_margin. cbn [fst snd].
    rewrite (py_int_str_of_int _ Ha La), (py_int_str_of_int _ Hb Lb).
    destruct (int_of_digits_str_of_int _ Ha) as (-> & _).
    destruct (int_of_digits_str_of_int _ Hb) as (-> & _).
    reflexivity.
Qed.

(* ===================================================================== *)
(** * Scheduled rounds *)
(* ===================================================================== *)

Lemma contains_suffix (p a s : str) :
  contains p s = true -> contains p (a ++ s) = true.
Proof.
  intros H. induction a as [|c t IH]; [exact H|].
  cbn [app contains]. rewrite IH. apply orb_true_r.
Qed.

Lemma drop_while_suffix (q : N -> bool) (s : str) :
  exists a, s = a ++ drop_while q s.
Proof.
  induction s as [|c t [a Ha]]; [exists []; reflexivity|]. simpl.
  destruct (q c); [|exists []; reflexivity].
  exists (c :: a). simpl. f_equal. exact Ha.
Qed.

Lemma starts_with_contains (p s : str) :
  starts_with p s = true -> contains p s = true.
Proof. intros H. destruct s; simpl in *; rewrite H; reflexivity. Qed.

Lemma rnd_match_contains (s a : str) :
  rnd_match s = Some a -> contains (lit "Rnd") s = true.
Proof.
  unfold rnd_match. destruct (take_while is_digit s); [discriminate|].
  destruct (starts_with _ _) eqn:E; [|discriminate]. intros _.
  destruct (drop_while_suffix is_digit s) as [a1 H1].
  destruct (drop_while_suffix is_space (drop_while is_digit s)) as [a2 H2].
  rewrite H1, H2. apply contains_suffix, contains_suffix, starts_with_contains, E.
Qed.

Lemma rnd_search_contains (s a : str) :
  rnd_search s = Some a -> contains (lit "Rnd") s = true.
Proof.
  induction s as [|c t IH].
  - simpl. unfold rnd_match. simpl. discriminate.
  - cbn [rnd_search]. destruct (rnd_match (c :: t)) eqn:E.
    + intros _. eapply rnd_match_contains, E.
    + intros H. cbn [contains]. rewrite (IH H). apply orb_true_r.
Qed.

(** X15: the default number of rounds.  A missing time format, and one that
    does not contain "Rnd", give 3 scheduled rounds. *)
Theorem scheduled_rounds_default (timefmt : option str) :
  timefmt = None
  \/ (exists s, timefmt = Some s /\ contains (lit "Rnd") s = false) ->
  scheduled_rounds_from_timefmt timefmt = 3%Z.
Proof.
  intros [->|(s & -> & Hs)]; [reflexivity|].
  unfold scheduled_rounds_from_timefmt.
  destruct (rnd_search s) eqn:E; [|reflexivity].
  rewrite (rnd_search_contains _ _ E) in Hs. discriminate.
Qed.

Lemma rnd_search_skip (pre s : str) :
  Forall (fun c => is_digit c = false) pre ->
  rnd_search (pre ++ s) = rnd_search s.
Proof.
  induction 1 as [|c t Hc Ht IH]; [reflexivity|].
  cbn [app rnd_search]. unfold rnd_match at 1. cbn [take_while].
  rewrite Hc. exact IH.
Qed.

(** X16: the number of rounds is read in front of the marker.  In a time
    format that starts, after ASCII text without digits, with the number
    [n] in at most 4300 digits, optional whitespace and "Rnd", the
    scheduled rounds are [n]: "5 Rnd (5-5-5-5-5)" gives 5. *)
Theorem scheduled_rounds_reads_the_count
    (pre ws rest : str) (n : Z) :
  (0 <= n)%Z ->
  (length (str_of_int n) <= 4300)%nat ->
  ascii_text pre ->
  Forall (fun c => is_digit c = false) pre ->
  Forall (fun c => is_space c = true) ws ->
  scheduled_rounds_from_timefmt
    (Some (pre ++ str_of_int n ++ ws ++ lit "Rnd" ++ rest)) = n.
Proof.
  intros Hn Hlen _ Hpre Hws. unfold scheduled_rounds_from_timefmt.
  rewrite rnd_search_skip by exact Hpre.
  destruct (int_of_digits_str_of_int n Hn) as (Hv & Hd & Hne).
  assert (Hm : rnd_match (str_of_int n ++ ws ++ lit "Rnd" ++ rest)
               = Some (str_of_int n)).
  { unfold rnd_match.
    assert (Hstop : stops is_digit (ws ++ lit "Rnd" ++ rest)).
    { destruct ws as [|w ws']; [reflexivity|]. inversion Hws; subst. simpl.
      destruct (is_digit w) eqn:E; [|reflexivity].
      apply is_digit_not_space in E. congruence. }
    destruct (take_while_run is_digit _ _ Hd Hstop) as [-> ->].
    destruct (take_while_run is_space ws (lit "Rnd" ++ rest) Hws) as [_ ->];
      [reflexivity|].
    destruct (str_of_int n); [contradiction|reflexivity]. }
  destruct (str_of_int n ++ ws ++ lit "Rnd" ++ rest) eqn:E.
  - destruct (str_of_int n); [contradiction|discriminate].
  - cbn [rnd_search]. rewrite Hm, (py_int_str_of_int n Hn Hlen). reflexivity.
Qed.

(* ===================================================================== *)
(** * Competitor keys *)
(* ===================================================================== *)

Lemma norm_idem (s : option str) : norm (Some (norm s)) = norm s.
Proof. exact (normalize_text_idem s). Qed.

Lemma lower_norm (s : str) : lower (norm (Some s)) = norm (Some (lower s)).
Proof. exact (lower_normalize_text s). Qed.

(** X17: keys are stable.  The key of a name does not change when the name
    is written in another letter case or has been normalised already, a
    key is its own key and is left as it is by [norm], and [normalize_key]
    of step 1 gives the same key as [key_from_name] of the engine. *)
Theorem key_from_name_is_stable (s : str) :
  let k := key_from_name (Some s) in
  key_from_name (Some (lower s)) = k
  /\ key_from_name (Some (norm (Some s))) = k
  /\ key_from_name (Some k) = k
  /\ norm (Some k) = k
  /\ normalize_key (Some s) = k.
Proof.
  cbv zeta. unfold key_from_name.
  assert (H4 : norm (Some (lower (norm (Some s)))) = lower (norm (Some s))).
  { rewrite <- lower_norm, norm_idem. reflexivity. }
  split; [|split; [|split; [|split]]].
  - rewrite <- lower_norm, lower_idem. reflexivity.
  - rewrite norm_idem. reflexivity.
  - rewrite H4, lower_idem. reflexivity.
  - exact H4.
  - reflexivity.
Qed.

(** The key that [choose_fighter_id] returns is a normal form of [norm]. *)
Lemma fid_of_normal (r : row) (s : side) : norm (Some (fid_of r s)) = fid_of r s.
Proof.
  unfold fid_of, choose_fighter_id.
  destruct s; cbn [fst].
  - destruct (norm (fighter_a_url r)) eqn:E.
    + unfold key_from_name. rewrite norm_idem, <- lower_norm, norm_idem.
      reflexivity.
    + rewrite <- E. apply norm_idem.
  - destruct (norm (fighter_b_url r)) eqn:E.
    + unfold key_from_name. rewrite norm_idem, <- lower_norm, norm_idem.
      reflexivity.
    + rewrite <- E. apply norm_idem.
Qed.

(** X18: the key of a competitor.  [choose_fighter_id] returns the
    normalised URL as key when it is not empty and the key of the name
    otherwise, with the normalised name as display name; in both cases
    [norm] leaves the key as it is. *)
Theorem choose_fighter_id_key (r : row) (s : side) :
  let url := match s with side_a => fighter_a_url r
                        | side_b => fighter_b_url r end in
  let name := match s with side_a => fighter_a_name r
                         | side_b => fighter_b_name r end in
  choose_fighter_id r s
  = (if decide (norm url = []) then key_from_name name else norm url,
     norm name)
  /\ norm (Some (fid_of r s)) = fid_of r s.
Proof.
  cbv zeta. split; [|apply fid_of_normal].
  unfold choose_fighter_id, key_from_name. destruct s.
  - destruct (norm (fighter_a_url r)) eqn:E.
    + rewrite norm_idem. reflexivity.
    + reflexivity.
  - destruct (norm (fighter_b_url r)) eqn:E.
    + rewrite norm_idem. reflexivity.
    + reflexivity.
Qed.

(* ===================================================================== *)
(** * The peak table against the ledger and the snapshot *)
(* ===================================================================== *)

(** X19: the peak table has nothing but the ledger.  Every row of the peak
    table carries the rating, date, event and bout of a ledger entry of its
    competitor, and its display name is empty only when the key is. *)
Theorem peak_rows_come_from_the_ledger (hist : list audit) :
  List.Forall
    (fun p =>
       entry hist (k_fighter_id p) (peak_date p) (peak_event p) (peak_bout p)
         (peak_rating p)
       /\ (k_fighter_name p = [] -> k_fighter_id p = []))
    (compute_peak (build_long_from_history hist)).
Proof.
  apply List.Forall_forall. intros p Hp.
  apply compute_peak_In in Hp as (x & Hx & ->).
  apply drop_duplicates_In in Hx as [Hx _].
  apply (proj1 (sort_by_In long_leb _ _)) in Hx.
  split; [apply build_long_entry, Hx|].
  cbn [peak_of k_fighter_name k_fighter_id].
  unfold build_long_from_history in Hx.
  apply in_app_iff in Hx as [Hx|Hx]; apply in_map_iff in Hx as (h & <- & _);
    cbn [long_of l_fighter_name l_fighter_id]; unfold str_or;
    destruct (norm (Some _)); [tauto|discriminate| tauto|discriminate].
Qed.

Lemma last_post_Some (hist : list audit) (fid : str) (v : R) :
  last_post hist fid = Some v ->
  exists h, In h hist
            /\ ((fighter_a_id h = fid /\ post_rating_a h = v)
                \/ (fighter_b_id h = fid /\ post_rating_b h = v)).
Proof.
  induction hist as [|h0 t IH] using rev_ind; [discriminate|].
  rewrite last_post_snoc.
  destruct (decide (fighter_b_id h0 = fid)) as [Hb|Hb].
  { intros [= <-]. exists h0. rewrite in_app_iff. simpl. auto. }
  destruct (decide (fighter_a_id h0 = fid)) as [Ha|Ha].
  { intros [= <-]. exists h0. rewrite in_app_iff. simpl. auto. }
  intros H. destruct (IH H) as (h & Hin & Hh). exists h.
  rewrite in_app_iff. auto.
Qed.

Lemma last_post_None (hist : list audit) (fid : str) :
  last_post hist fid = None <->
  forall h, In h hist -> fighter_a_id h <> fid /\ fighter_b_id h <> fid.
Proof.
  induction hist as [|h0 t IH] using rev_ind.
  - split; [intros _ h []|reflexivity].
  - rewrite last_post_snoc. split.
    + destruct (decide (fighter_b_id h0 = fid)); [discriminate|].
      destruct (decide (fighter_a_id h0 = fid)); [discriminate|].
      intros H h Hin. apply in_app_iff in Hin as [Hin|[<-|[]]]; [|auto].
      apply IH; assumption.
    + intros H.
      destruct (H h0) as [Ha Hb]; [apply in_app_iff; simpl; auto|].
      destruct (decide (fighter_b_id h0 = fid)); [contradiction|].
      destruct (decide (fighter_a_id h0 = fid)); [contradiction|].
      apply IH. intros h Hin. apply H, in_app_iff. auto.
Qed.

(** The keys of a ledger record are those of a row. *)
Lemma process_ledger_ids (cfg : EloConfig) (rows : list row) (st : state) :
  process cfg init_state rows = Some st ->
  forall h, In h (history_rows st) ->
    norm (Some (fighter_a_id h)) = fighter_a_id h
    /\ norm (Some (fighter_b_id h)) = fighter_b_id h.
Proof.
  intros Hst.
  refine (process_invariant
            (fun s => forall h, In h (history_rows s) ->
               norm (Some (fighter_a_id h)) = fighter_a_id h
               /\ norm (Some (fighter_b_id h)) = fighter_b_id h)
            cfg _ rows init_state st _ Hst).
  - intros s r s' Hinv Hstep.
    destruct (step_cases _ _ _ _ Hstep)
      as [[_ ->]|(s_a & s_b & E & _ & ->)]; [exact Hinv|].
    cbn [rated_step history_rows]. intros h Hin.
    apply in_app_iff in Hin as [Hin|[<-|[]]]; [apply Hinv, Hin|].
    cbn [audit_of fighter_a_id fighter_b_id]. split; apply fid_of_normal.
  - intros h [].
Qed.

Lemma peak_ids (hist : list audit) (fid : str) :
  In fid (map k_fighter_id (compute_peak (build_long_from_history hist))) <->
  exists h, In h hist
            /\ (norm (Some (fighter_a_id h)) = fid
                \/ norm (Some (fighter_b_id h)) = fid).
Proof.
  rewrite in_map_iff. split.
  - intros (p & <- & Hp).
    apply compute_peak_In in Hp as (x & Hx & ->).
    apply drop_duplicates_In in Hx as [Hx _].
    apply (proj1 (sort_by_In long_leb _ _)) in Hx.
    apply build_long_entry in Hx as (h & Hh & _ & _ & _ & [[H _]|[H _]]);
      exists h; cbn [peak_of k_fighter_id]; auto.
  - intros (h & Hh & Hside).
    assert (He : exists post, entry hist fid (h_DATE h) (h_EVENT h) (h_BOUT h) post).
    { destruct Hside as [H|H].
      - exists (post_rating_a h), h. auto 10.
      - exists (post_rating_b h), h. auto 10. }
    destruct He as (post & He).
    destruct (entry_build_long _ _ _ _ _ _ He) as (y & Hy & Hid & _).
    destruct (drop_duplicates_covers ∅ (sort_by long_leb (build_long_from_history hist)) y)
      as (x & Hx & Hidx).
    { apply (sort_by_In long_leb), Hy. }
    { set_solver. }
    exists (peak_of x). split.
    + cbn [peak_of k_fighter_id]. congruence.
    + apply compute_peak_In. exists x. auto.
Qed.

(** X20: the peak table against the snapshot.  Computed from the ledger of
    a run that completes, handed over as it is, the peak table lists the
    competitors of the snapshot, each once, and nobody's peak rating is
    below their final rating. *)
Theorem peak_table_matches_snapshot
    (cfg : EloConfig) (rows : list row)
    (hist : list audit) (snap : list rating_row) :
  run_elo cfg rows = Some (hist, snap) ->
  let peaks := compute_peak (build_long_from_history hist) in
  Permutation (map k_fighter_id peaks) (map s_fighter_id snap)
  /\ forall p x, In p peaks -> In x snap ->
       k_fighter_id p = s_fighter_id x ->
       (s_rating x <= peak_rating p)%R.
Proof.
  intros Hrun. apply run_elo_Some in Hrun as (st & Hst & _ & -> & ->).
  cbv zeta.
  destruct (process_keys _ _ _ _ Hst (List.NoDup_nil _)) as (Hnd & _).
  destruct (process_store_ledger _ _ _ Hst) as (Hstore & _).
  pose proof (process_ledger_ids _ _ _ Hst) as Hids.
  split.
  - apply Permutation.NoDup_Permutation.
    + unfold compute_peak.
      eapply Permutation_NoDup;
        [symmetry; apply Permutation_map, sort_by_perm|].
      rewrite map_map. simpl. apply drop_duplicates_NoDup.
    + eapply Permutation_NoDup; [symmetry; apply snapshot_ids|exact Hnd].
    + intros fid. rewrite peak_ids.
      split.
      * intros (h & Hh & Hside).
        apply (Permutation_in _ (Permutation_sym (snapshot_ids st))).
        destruct (in_dec (fun a b : str => decide (a = b)) fid (map fst (ratings st)))
          as [Hin|Hnin]; [exact Hin|exfalso].
        apply rating_lookup_None in Hnin. rewrite Hstore in Hnin.
        destruct (proj1 (last_post_None _ _) Hnin h Hh) as [Ha Hb].
        destruct (Hids h Hh) as [Na Nb].
        destruct Hside as [H|H]; congruence.
      * intros Hin. apply (Permutation_in _ (snapshot_ids st)) in Hin.
        destruct (last_post (history_rows st) fid) as [v|] eqn:E.
        -- apply last_post_Some in E as (h & Hh & Hside).
           exists h. split; [exact Hh|].
           destruct (Hids h Hh) as [Na Nb].
           destruct Hside as [[H _]|[H _]]; [left|right]; congruence.
        -- rewrite <- Hstore in E. apply rating_lookup_None in E. contradiction.
  - intros p x Hp Hx Hid.
    unfold snapshot in Hx. apply (proj1 (sort_by_In rating_desc _ _)) in Hx.
    apply in_map_iff in Hx as ([k v] & <- & Hkv).
    cbn [snapshot_row s_rating s_fighter_id fst snd] in Hid |- *.
    pose proof (rating_lookup_In k v _ Hnd Hkv) as Hl. rewrite Hstore in Hl.
    apply last_post_Some in Hl as (h & Hh & Hside).
    destruct (Hids h Hh) as [Na Nb].
    assert (He : entry (history_rows st) k (h_DATE h) (h_EVENT h) (h_BOUT h) v).
    { exists h. split; [exact Hh|]. do 3 (split; [reflexivity|]).
      destruct Hside as [[H1 H2]|[H1 H2]]; [left|right]; split; congruence. }
    destruct (entry_build_long _ _ _ _ _ _ He) as (y & Hy & Hidy & _ & Hpost).
    apply compute_peak_In in Hp as (x0 & Hx0 & ->).
    cbn [peak_of k_fighter_id peak_rating] in Hid |- *.
    pose proof (drop_duplicates_first ∅ _ x0
                  (sort_long_sorted (build_long_from_history (history_rows st)))
                  Hx0 y) as Hle.
    destruct Hle as [Hlt|(_ & [Hlt|(Heq & _)])].
    + apply (sort_by_In long_leb), Hy.
    + congruence.
    + rewrite Hid, <- Hidy in Hlt. destruct (lexico_irrefl _ Hlt).
    + lra.
    + lra.
Qed.

(* ===================================================================== *)
(** * The labels and decision types of step 1, downstream *)
(* ===================================================================== *)

Lemma space_free_lit_decision : space_free (lit "decision").
Proof. repeat constructor. Qed.

Lemma space_free_lit_split : space_free (lit "split").
Proof. repeat constructor. Qed.

Lemma space_free_lit_majority : space_free (lit "majority").
Proof. repeat constructor. Qed.

Lemma space_free_lit_unanimous : space_free (lit "unanimous").
Proof. repeat constructor. Qed.

Lemma keyword_lower_normalized (p s : str) :
  p <> [] -> space_free p ->
  contains p (lower (normalize_text (Some s))) = contains p (lower s).
Proof.
  intros Hne Hp. rewrite lower_normalize_text.
  apply contains_normalize_text; assumption.
Qed.

(** X21: the two readings of a decision type.  On a method text with
    "decision" in it, step 1 looks for "unanimous" first and the classifier
    for "split" and "majority" first; they name the same type exactly when
    "unanimous" does not come together with "split" or "majority". *)
Theorem decision_types_agree (s : str) :
  contains (lit "decision") (lower s) = true ->
  (step1_of (method_decision_type (Some s)) = decision_type_from_method (Some s)
   <-> ~ (contains (lit "unanimous") (lower s) = true
          /\ (contains (lit "split") (lower s) = true
              \/ contains (lit "majority") (lower s) = true))).
Proof.
  intros Hd. unfold method_decision_type, decision_type_from_method.
  cbv zeta.
  rewrite (keyword_lower_normalized (lit "split") s)
    by (try discriminate; apply space_free_lit_split).
  rewrite (keyword_lower_normalized (lit "majority") s)
    by (try discriminate; apply space_free_lit_majority).
  rewrite (keyword_lower_normalized (lit "unanimous") s)
    by (try discriminate; apply space_free_lit_unanimous).
  rewrite Hd. cbn [negb].
  destruct (contains (lit "split") (lower s)),
    (contains (lit "majority") (lower s)),
    (contains (lit "unanimous") (lower s));
    cbn [step1_of]; split; intros H;
    try reflexivity; try discriminate;
    try (intros [? [?|?]]; discriminate);
    exfalso; apply H; auto.
Qed.

Section OutcomeLabels.
Context {M : Type}.
Variables m_finish m_dom m_dec : M.

(** X22: the labels of step 1 are the ones the later steps read.  For an
    ASCII OUTCOME text, the engine rates a bout exactly when the text,
    stripped, in upper case and without spaces, has W/L, L/W, D/D or DRAW
    in it, with the scores of the first of these, in this order, that it
    has; and the classifier puts a bout in the draw or the no-contest
    category exactly when its label is "draw" or "nc". *)
Theorem outcome_label_is_understood
    (outcome method details : option str) :
  ascii_cell outcome ->
  let o := match outcome with
           | Some s => remove_spaces (upper (strip s))
           | None => []
           end in
  let w := parse_outcome_label outcome in
  let c := category_of
             (classify_row m_finish m_dom m_dec
                {| b_winner_label := Some w; b_METHOD := method;
                   b_DETAILS := details |}) in
  outcome_scores w =
    (if contains (lit "W/L") o then Some (1, 0)%R
     else if contains (lit "L/W") o then Some (0, 1)%R
     else if contains (lit "D/D") o || contains (lit "DRAW") o
          then Some (0.5, 0.5)%R
     else None)
  /\ (c = draw <-> w = lit "draw")
  /\ (c = nc <-> w = lit "nc").
Proof.
  intros _.
  cbv zeta. rewrite classify_row_eq. cbv zeta. cbn [b_winner_label b_METHOD].
  set (m := lower (normalize_text method)).
  set (rest :=
    if any_token_in m && negb (contains (lit "decision") m) then _ else _).
  assert (Hrest : category_of rest <> draw /\ category_of rest <> nc).
  { subst rest.
    repeat match goal with
           | |- context [if ?c then _ else _] => destruct c
           | |- context [match ?l with [] => _ | _ :: _ => _ end] => destruct l
           end; cbn; split; discriminate. }
  clearbody rest. destruct Hrest as [Hr1 Hr2].
  assert (HA : lit "A" <> lit "draw" /\ lit "A" <> lit "nc")
    by (split; vm_compute; discriminate).
  assert (HB : lit "B" <> lit "draw" /\ lit "B" <> lit "nc")
    by (split; vm_compute; discriminate).
  assert (HU : lit "unknown" <> lit "draw" /\ lit "unknown" <> lit "nc")
    by (split; vm_compute; discriminate).
  assert (HD : lit "draw" <> lit "nc") by (vm_compute; discriminate).
  assert (HN : lit "nc" <> lit "draw") by (vm_compute; discriminate).
  unfold str_eqb.
  assert (Hunknown :
    outcome_scores (lit "unknown") = None
    /\ (category_of
          (if bool_decide (lower (normalize_text (Some (lit "unknown"))) = lit "draw")
           then (draw, m_dec, outcome_draw, [])
           else if bool_decide (lower (normalize_text (Some (lit "unknown"))) = lit "nc")
                then (nc, m_dec, outcome_nc, [])
                else rest) = draw <-> lit "unknown" = lit "draw")
    /\ (category_of
          (if bool_decide (lower (normalize_text (Some (lit "unknown"))) = lit "draw")
           then (draw, m_dec, outcome_draw, [])
           else if bool_decide (lower (normalize_text (Some (lit "unknown"))) = lit "nc")
                then (nc, m_dec, outcome_nc, [])
                else rest) = nc <-> lit "unknown" = lit "nc")).
  { change (lower (normalize_text (Some (lit "unknown")))) with (lit "unknown").
    rewrite !bool_decide_eq_false_2 by tauto.
    split; [reflexivity|]. tauto. }
  destruct outcome as [s|]; [|exact Hunknown].
  unfold parse_outcome_label. cbv zeta.
  set (o := remove_spaces (upper (strip s))).
  destruct (contains (lit "W/L") o).
  { change (lower (normalize_text (Some (lit "A")))) with (lit "a").
    change (outcome_scores (lit "A")) with (Some (1, 0)%R).
    change (bool_decide (lit "a" = lit "draw")) with false.
    change (bool_decide (lit "a" = lit "nc")) with false.
    split; [reflexivity|]. tauto. }
  destruct (contains (lit "L/W") o).
  { change (lower (normalize_text (Some (lit "B")))) with (lit "b").
    change (outcome_scores (lit "B")) with (Some (0, 1)%R).
    change (bool_decide (lit "b" = lit "draw")) with false.
    change (bool_decide (lit "b" = lit "nc")) with false.
    split; [reflexivity|]. tauto. }
  destruct (contains (lit "D/D") o || contains (lit "DRAW") o).
  { change (lower (normalize_text (Some (lit "draw")))) with (lit "draw").
    change (outcome_scores (lit "draw")) with (Some (0.5, 0.5)%R).
    change (bool_decide (lit "draw" = lit "draw")) with true.
    cbn [category_of fst].
    split; [reflexivity|]. split; [tauto|]. split; [discriminate|tauto]. }
  destruct (contains (lit "NC") o || contains (lit "N/C") o).
  { change (lower (normalize_text (Some (lit "nc")))) with (lit "nc").
    change (outcome_scores (lit "nc")) with (@None (R * R)).
    change (bool_decide (lit "nc" = lit "draw")) with false.
    change (bool_decide (lit "nc" = lit "nc")) with true.
    cbn [category_of fst].
    split; [reflexivity|]. split; [|tauto]. split; [discriminate|tauto]. }
  exact Hunknown.
Qed.
End OutcomeLabels.

(* ===================================================================== *)
(** * Splitting a bout label *)
(* ===================================================================== *)

Lemma is_v_not_space (c : N) : is_v c = true -> is_space c = false.
Proof.
  unfold is_v. intros H. apply orb_prop in H as [H|H];
    apply N.eqb_eq in H; subst c; reflexivity.
Qed.

Lemma is_s_not_space (c : N) : is_s c = true -> is_space c = false.
Proof.
  unfold is_s. intros H. apply orb_prop in H as [H|H];
    [apply orb_prop in H as [H|H]|];
    apply N.eqb_eq in H; subst c; reflexivity.
Qed.

Lemma is_dot_not_space (c : N) : is_dot c = true -> is_space c = false.
Proof. unfold is_dot. intros H. apply N.eqb_eq in H. subst c. reflexivity. Qed.

Lemma single_spaced_tail (p : bool) (c : N) (t : str) :
  single_spaced p (c :: t) = true -> single_spaced (is_space c) t = true.
Proof.
  simpl. destruct (is_space c); [|auto].
  intros H. apply andb_prop in H as [_ H]. exact H.
Qed.

Lemma single_spaced_drop (s : str) :
  single_spaced true s = true -> drop_while is_space s = s.
Proof.
  destruct s as [|c t]; simpl; [reflexivity|].
  destruct (is_space c); [|reflexivity].
  rewrite andb_false_r. discriminate.
Qed.

Lemma spaces_single (p : bool) (s : str) :
  single_spaced p s = true ->
  spaces s = match s with
             | c :: t => if is_space c then Some t else None
             | [] => None
             end.
Proof.
  destruct s as [|c t]; [reflexivity|]. intros H.
  apply single_spaced_tail in H. unfold spaces.
  destruct (is_space c); [|reflexivity].
  rewrite (single_spaced_drop _ H). reflexivity.
Qed.

(** On a text without two whitespace characters in a row the pattern
    matches as [sep_single] says. *)
Lemma sep_match_single (p : bool) (s : str) :
  single_spaced p s = true -> sep_match s = sep_single s.
Proof.
  intros H0. unfold sep_match, sep_vs, sep_v.
  rewrite (spaces_single _ _ H0).
  destruct s as [|c0 s1]; [reflexivity|].
  pose proof (single_spaced_tail _ _ _ H0) as H1.
  destruct (is_space c0) eqn:E0;
    [|destruct s1 as [|? [|? ?]]; simpl; rewrite ?E0; reflexivity].
  destruct s1 as [|c1 s2]; [reflexivity|].
  pose proof (single_spaced_tail _ _ _ H1) as H2.
  destruct s2 as [|c2 s3].
  { destruct (is_v c1); reflexivity. }
  pose proof (single_spaced_tail _ _ _ H2) as H3.
  rewrite (spaces_single _ _ H2).
  cbn [sep_single]. rewrite E0. cbn [andb].
  destruct (is_v c1) eqn:E1; [|reflexivity].
  cbn [andb].
  destruct (is_s c2) eqn:E2.
  - rewrite (is_s_not_space _ E2).
    destruct s3 as [|c3 s4]; [reflexivity|].
    pose proof (single_spaced_tail _ _ _ H3) as H4.
    rewrite (spaces_single _ _ H3), (spaces_single _ _ H4).
    destruct (is_dot c3) eqn:E3.
    + rewrite (is_dot_not_space _ E3).
      destruct s4 as [|c4 s5]; [reflexivity|].
      destruct (is_space c4); reflexivity.
    + destruct (is_space c3); reflexivity.
  - destruct (is_space c2); reflexivity.
Qed.

(** A separator that starts in a word followed by a space ends with that
    space at the latest. *)
Lemma sep_single_local (u : str) (m : N) (more : str) :
  u <> [] ->
  sep_single (u ++ [32%N]) = None ->
  sep_single (u ++ 32%N :: m :: more) = None.
Proof.
  intros Hne.
  destruct u as [|c0 [|c1 [|c2 [|c3 [|c4 u']]]]]; [contradiction|..];
    cbn [app sep_single];
    change (is_space 32) with true; change (is_v 32) with false;
    change (is_s 32) with false; change (is_dot 32) with false;
    repeat match goal with
           | |- context [?a && ?b] => destruct a; cbn [andb]
           | |- context [if ?b then _ else _] => destruct b
           end;
    intros H; try discriminate H; reflexivity.
Qed.

Lemma single_spaced_app (p : bool) (x y : str) :
  single_spaced p (x ++ y) = true -> single_spaced p x = true.
Proof.
  revert p. induction x as [|c t IH]; intros p; simpl; [reflexivity|].
  destruct (is_space c); [|apply IH].
  intros H. apply andb_prop in H as [H1 H2]. rewrite H1. apply IH, H2.
Qed.

Lemma single_spaced_suffix (p : bool) (x y : str) :
  single_spaced p (x ++ y) = true -> exists q, single_spaced q y = true.
Proof.
  revert p. induction x as [|c t IH]; intros p H; [exists p; exact H|].
  apply single_spaced_tail in H. eapply IH, H.
Qed.

(** The scan passes over a stretch where no separator starts. *)
Lemma re_split_from_pass (u rest cur : str) :
  (forall v w, u = v ++ w -> w <> [] -> sep_match (w ++ rest) = None) ->
  re_split_from 0 cur (u ++ rest) = re_split_from 0 (rev u ++ cur) rest.
Proof.
  revert cur. induction u as [|c t IH]; intros cur H; [reflexivity|].
  pose proof (H [] (c :: t) eq_refl ltac:(discriminate)) as H0.
  cbn [app] in H0 |- *. cbn [re_split_from]. rewrite H0.
  rewrite IH.
  - cbn [rev]. rewrite <- app_assoc. reflexivity.
  - intros v w -> Hw. apply (H (c :: v) w); [reflexivity|exact Hw].
Qed.

Lemma re_split_from_skip (x rest cur : str) :
  re_split_from (length x) cur (x ++ rest) = re_split_from 0 cur rest.
Proof. induction x as [|c t IH]; [reflexivity|exact IH]. Qed.

Lemma no_sep_spec (s : str) :
  no_sep s = true ->
  forall v w, s = v ++ w -> w <> [] -> sep_match w = None.
Proof.
  induction s as [|c t IH]; intros H v w E Hw.
  - destruct v, w; try discriminate. contradiction.
  - cbn [no_sep] in H.
    destruct (sep_match (c :: t)) eqn:Em; [discriminate|].
    destruct v as [|c' v'].
    + simpl in E. subst w. exact Em.
    + injection E as -> E. eapply IH; eassumption.
Qed.

Lemma re_split_no_sep (s : str) : no_sep s = true -> re_split s = [s].
Proof.
  intros H. unfold re_split.
  rewrite <- (app_nil_r s) at 1. rewrite re_split_from_pass.
  - cbn [re_split_from]. rewrite app_nil_r, rev_involutive. reflexivity.
  - intros v w E Hw. rewrite app_nil_r. eapply no_sep_spec; eassumption.
Qed.

(** ** Normal names *)

Lemma normal_parts (a : str) :
  normalize_name (Some a) = a ->
  head_clean a /\ rstrip a = a /\ collapse a = a
  /\ single_spaced false a = true.
Proof.
  intros H. cbn [normalize_name] in H.
  assert (Hh : head_clean a).
  { rewrite <- H. apply collapse_head_clean. unfold strip.
    apply rstrip_head_clean, lstrip_head_clean. }
  assert (Hs : strip a = a).
  { rewrite <- H at 1. rewrite strip_collapse_strip. exact H. }
  assert (Hr : rstrip a = a).
  { unfold strip in Hs. rewrite (head_clean_lstrip _ Hh) in Hs. exact Hs. }
  assert (Hc : collapse a = a) by (rewrite Hs in H; exact H).
  repeat split; try assumption.
  rewrite <- Hc. apply collapse_from_single_spaced.
Qed.

Lemma rstrip_app_fixed (x b : str) :
  b <> [] -> rstrip b = b -> rstrip (x ++ b) = x ++ b.
Proof.
  intros Hne Hb. induction x as [|c t IH]; [exact Hb|].
  cbn [app]. apply rstrip_cons_fixed; [|exact IH].
  destruct t; [exact Hne|discriminate].
Qed.

Lemma rstrip_fixed_tail (c : N) (t : str) :
  t <> [] -> rstrip (c :: t) = c :: t -> rstrip t = t.
Proof.
  intros Hne H. simpl in H. destruct (rstrip t) as [|x r] eqn:E.
  - destruct (is_space c); [discriminate|]. injection H as <-. contradiction.
  - injection H as H. exact H.
Qed.

Lemma rstrip_fixed_single (c : N) : rstrip [c] = [c] -> is_space c = false.
Proof. simpl. destruct (is_space c); [discriminate|reflexivity]. Qed.

Lemma collapse_from_app_word (p : bool) (x y : str) :
  x <> [] -> rstrip x = x ->
  collapse_from p (x ++ y) = collapse_from p x ++ collapse_from false y.
Proof.
  revert p. induction x as [|c t IH]; intros p Hne Hr; [contradiction|].
  destruct t as [|c' t'].
  - apply rstrip_fixed_single in Hr. simpl. rewrite Hr. reflexivity.
  - assert (Ht : rstrip (c' :: t') = c' :: t')
      by (eapply rstrip_fixed_tail; [discriminate|exact Hr]).
    change ((c :: c' :: t') ++ y) with (c :: (c' :: t') ++ y).
    cbn [collapse_from].
    destruct (is_space c); [destruct p|];
      rewrite IH by (try discriminate; exact Ht); reflexivity.
Qed.

Lemma collapse_from_head_clean (y : str) :
  head_clean y -> collapse_from true y = collapse_from false y.
Proof. destruct y as [|c t]; simpl; [reflexivity|]. intros ->. reflexivity. Qed.

Lemma collapse_from_blank (ws y : str) :
  List.Forall (fun c => is_space c = true) ws -> head_clean y ->
  collapse_from true (ws ++ y) = collapse_from false y.
Proof.
  intros Hws Hy. induction Hws as [|c t Hc _ IH].
  - apply collapse_from_head_clean, Hy.
  - simpl. rewrite Hc. exact IH.
Qed.

Lemma collapse_from_blanks (ws y : str) :
  ws <> [] -> List.Forall (fun c => is_space c = true) ws -> head_clean y ->
  collapse_from false (ws ++ y) = 32%N :: collapse_from false y.
Proof.
  intros Hne Hws Hy. destruct Hws as [|c t Hc Ht]; [contradiction|].
  simpl. rewrite Hc. f_equal. apply collapse_from_blank; assumption.
Qed.

(** ** The separator words *)

Lemma lower_char_v (c : N) : lower_char c = 118%N -> is_v c = true.
Proof.
  unfold lower_char, is_v.
  destruct ((65 <=? c)%N && (c <=? 90)%N) eqn:E; intros H.
  - assert (c = 86%N) by lia. subst c. reflexivity.
  - subst c. reflexivity.
Qed.

Lemma lower_char_s (c : N) : lower_char c = 115%N -> is_s c = true.
Proof.
  unfold lower_char, is_s.
  destruct ((65 <=? c)%N && (c <=? 90)%N) eqn:E; intros H.
  - assert (c = 83%N) by lia. subst c. reflexivity.
  - subst c. reflexivity.
Qed.

Lemma lower_char_dot (c : N) : lower_char c = 46%N -> c = 46%N.
Proof.
  unfold lower_char.
  destruct ((65 <=? c)%N && (c <=? 90)%N) eqn:E; intros H; [|exact H].
  apply andb_prop in E as [E _]. apply N.leb_le in E. lia.
Qed.

Lemma vs_word_cases (kw : str) :
  In (lower kw) [lit "vs."; lit "vs"; lit "v"] ->
  exists c1,
    is_v c1 = true
    /\ (kw = [c1]
        \/ exists c2, is_s c2 = true /\ (kw = [c1; c2] \/ kw = [c1; c2; 46%N])).
Proof.
  intros [H|[H|[H|[]]]].
  - destruct kw as [|c1 [|c2 [|c3 [|? ?]]]]; try discriminate H.
    injection H as H1 H2 H3. symmetry in H1, H2, H3.
    exists c1. split; [apply lower_char_v, H1|]. right.
    exists c2. split; [apply lower_char_s, H2|]. right.
    rewrite (lower_char_dot _ H3). reflexivity.
  - destruct kw as [|c1 [|c2 [|? ?]]]; try discriminate H.
    injection H as H1 H2. symmetry in H1, H2.
    exists c1. split; [apply lower_char_v, H1|]. right.
    exists c2. split; [apply lower_char_s, H2|]. left. reflexivity.
  - destruct kw as [|c1 [|? ?]]; try discriminate H.
    injection H as H1. symmetry in H1.
    exists c1. split; [apply lower_char_v, H1|]. left. reflexivity.
Qed.

Lemma spaces_one (b : str) : head_clean b -> spaces (32%N :: b) = Some b.
Proof.
  intros Hb. unfold spaces. change (is_space 32) with true.
  rewrite (head_clean_lstrip b Hb : drop_while is_space b = b). reflexivity.
Qed.

Lemma spaces_word (c : N) (r : str) :
  is_space c = false -> spaces (32%N :: c :: r) = Some (c :: r).
Proof. intros Hc. apply spaces_one. exact Hc. Qed.

Lemma vs_word_shape (kw : str) :
  In (lower kw) [lit "vs."; lit "vs"; lit "v"] ->
  kw <> [] /\ rstrip kw = kw /\ collapse kw = kw /\ head_clean kw
  /\ forall b, b <> [] -> head_clean b ->
       sep_match (32%N :: kw ++ 32%N :: b) = Some b.
Proof.
  intros H. apply vs_word_cases in H as (c1 & V & Hkw).
  pose proof (is_v_not_space _ V) as V'.
  destruct Hkw as [->|(c2 & S & [->| ->])].
  - split; [discriminate|]. unfold collapse. simpl. rewrite V'.
    repeat split; try reflexivity.
    intros b Hne Hb. unfold sep_match, sep_vs, sep_v.
    cbn [app]. rewrite (spaces_word _ _ V'), V.
    change (is_s 32) with false. cbn [andb].
    apply spaces_one, Hb.
  - pose proof (is_s_not_space _ S) as S'.
    split; [discriminate|]. unfold collapse. simpl. rewrite V', S'.
    repeat split; try reflexivity.
    intros b Hne Hb. unfold sep_match, sep_vs.
    cbn [app]. rewrite (spaces_word _ _ V'), V, S. cbn [andb].
    change (is_dot 32) with false. cbv iota.
    rewrite (spaces_one b Hb). reflexivity.
  - pose proof (is_s_not_space _ S) as S'.
    split; [discriminate|]. unfold collapse. simpl. rewrite V', S'.
    change (is_space 46) with false.
    repeat split; try reflexivity.
    intros b Hne Hb. unfold sep_match, sep_vs.
    cbn [app]. rewrite (spaces_word _ _ V'), V, S. cbn [andb].
    change (is_dot 46) with true. cbv iota.
    rewrite (spaces_one b Hb). reflexivity.
Qed.

(** X23: a bout label splits into its two names.  For two normalised,
    non-empty names in which no separator starts, joined by "vs.", "vs" or
    "v" in any letter case with any whitespace around it, [split_bout]
    returns the two names. *)
Theorem split_bout_round_trip (a b kw ws1 ws2 : str) :
  a <> [] -> normalize_name (Some a) = a ->
  b <> [] -> normalize_name (Some b) = b ->
  In (lower kw) [lit "vs."; lit "vs"; lit "v"] ->
  ws1 <> [] -> List.Forall (fun c => is_space c = true) ws1 ->
  ws2 <> [] -> List.Forall (fun c => is_space c = true) ws2 ->
  no_sep (a ++ [32%N]) = true -> no_sep b = true ->
  split_bout (Some (a ++ ws1 ++ kw ++ ws2 ++ b)) = (a, b).
Proof.
  intros Ha Na Hb Nb Hkw Hw1 Fw1 Hw2 Fw2 Sa Sb.
  destruct (normal_parts a Na) as (Ha_h & Ha_r & Ha_c & Ha_s).
  destruct (normal_parts b Nb) as (Hb_h & Hb_r & Hb_c & Hb_s).
  destruct (vs_word_shape kw Hkw) as (Kne & Kr & Kc & Kh & Kmatch).
  set (T := a ++ 32%N :: kw ++ 32%N :: b).
  assert (HT : collapse (strip (a ++ ws1 ++ kw ++ ws2 ++ b)) = T).
  { assert (Hs : strip (a ++ ws1 ++ kw ++ ws2 ++ b) = a ++ ws1 ++ kw ++ ws2 ++ b).
    { unfold strip. rewrite head_clean_lstrip.
      - rewrite !app_assoc. apply rstrip_app_fixed; assumption.
      - destruct a; [contradiction|exact Ha_h]. }
    rewrite Hs. unfold collapse.
    rewrite (collapse_from_app_word false a) by assumption.
    fold (collapse a). rewrite Ha_c.
    rewrite (collapse_from_blanks ws1) by
      (first [assumption | destruct kw; [contradiction|exact Kh]]).
    rewrite (collapse_from_app_word false kw) by assumption.
    fold (collapse kw). rewrite Kc.
    rewrite (collapse_from_blanks ws2) by assumption.
    fold (collapse b). rewrite Hb_c. reflexivity. }
  assert (HTs : single_spaced false T = true).
  { rewrite <- HT. apply collapse_from_single_spaced. }
  assert (Hsplit : re_split T = [a; b]).
  { unfold re_split, T.
    destruct kw as [|k0 kw']; [contradiction|].
    rewrite re_split_from_pass.
    - rewrite app_nil_r.
      destruct a as [|a0 a']; [contradiction|].
      assert (Hrev : exists x l, rev (a0 :: a') = x :: l).
      { destruct (rev (a0 :: a')) as [|x l] eqn:E; [|eauto].
        apply (f_equal (@length N)) in E. rewrite length_rev in E.
        discriminate. }
      cbn [re_split_from].
      rewrite (Kmatch b Hb Hb_h). rewrite rev_involutive. f_equal.
      replace (length ((k0 :: kw') ++ 32%N :: b) - length b)%nat
        with (length ((k0 :: kw') ++ [32%N])).
      2:{ rewrite !length_app. simpl. lia. }
      replace ((k0 :: kw') ++ 32%N :: b) with (((k0 :: kw') ++ [32%N]) ++ b)
        by (rewrite <- app_assoc; reflexivity).
      rewrite re_split_from_skip.
      fold (re_split b). apply re_split_no_sep, Sb.
    - intros v w E Hw.
      assert (Hq : exists q,
                 single_spaced q (w ++ 32%N :: (k0 :: kw') ++ 32%N :: b) = true).
      { apply (single_spaced_suffix false v). rewrite app_assoc, <- E.
        exact HTs. }
      destruct Hq as [q Hq]. rewrite (sep_match_single _ _ Hq).
      cbn [app]. apply sep_single_local; [exact Hw|].
      assert (Hq' : exists q', single_spaced q' (w ++ [32%N]) = true).
      { apply (single_spaced_suffix false v). rewrite app_assoc, <- E.
        apply (single_spaced_app false (a ++ [32%N]) ((k0 :: kw') ++ 32%N :: b)).
        rewrite <- app_assoc. exact HTs. }
      destruct Hq' as [q' Hq']. rewrite <- (sep_match_single _ _ Hq').
      apply (no_sep_spec _ Sa v (w ++ [32%N])).
      + rewrite app_assoc, <- E. reflexivity.
      + destruct w; discriminate. }
  unfold split_bout. cbv zeta. rewrite HT, Hsplit, Na, Nb. reflexivity.
Qed.

(** X24: a bout label without separator.  When no separator starts in the
    normalised label, [split_bout] returns the whole label as the first
    name and an empty second name. *)
Theorem split_bout_without_separator (s : str) :
  no_sep (normalize_name (Some s)) = true ->
  split_bout (Some s) = (normalize_name (Some s), []).
Proof.
  intros H. unfold split_bout. cbv zeta.
  cbn [normalize_name] in H. rewrite (re_split_no_sep _ H). reflexivity.
Qed.

(* ===================================================================== *)
(** * The expected score and the size of an update *)
(* ===================================================================== *)

Lemma Rpower_10_gt_1 (x : R) : (1 < Rpower 10 x <-> 0 < x)%R.
Proof.
  assert (H0 : Rpower 10 0 = 1%R) by (apply Rpower_O; lra).
  split; intros H.
  - destruct (Rle_or_lt x 0) as [Hle|Hlt]; [|exact Hlt].
    exfalso. destruct Hle as [Hlt|Heq].
    + pose proof (Rpower_lt 10 x 0 ltac:(lra) Hlt). lra.
    + subst x. lra.
  - pose proof (Rpower_lt 10 0 x ltac:(lra) H). lra.
Qed.

Lemma expected_below_half (x : R) :
  (1 / (1 + Rpower 10 x) < 1 / 2 <-> 0 < x)%R.
Proof.
  pose proof (Rpower_10_pos x) as HP.
  rewrite <- Rpower_10_gt_1.
  split; intros H.
  - apply (Rmult_lt_compat_r (1 + Rpower 10 x)) in H; [|lra].
    unfold Rdiv in H. rewrite Rmult_assoc, Rinv_l in H by lra. lra.
  - apply (Rmult_lt_reg_r (1 + Rpower 10 x)); [lra|].
    unfold Rdiv. rewrite Rmult_assoc, Rinv_l by lra. lra.
Qed.

(** X25: the expected score.  With a non-zero scale the expected score of
    A is a number strictly between 0 and 1, the expected score of B, as
    [logistic_prob] gives it with the ratings exchanged, is its complement,
    and with a positive scale the lower-rated competitor is the one with an
    expected score below one half. *)
Theorem logistic_prob_properties (ra rb sc : R) :
  sc <> 0%R ->
  exists p q,
    logistic_prob ra rb sc = Some p
    /\ logistic_prob rb ra sc = Some q
    /\ (0 < p < 1)%R
    /\ (p + q = 1)%R
    /\ ((0 < sc)%R -> ((ra < rb)%R <-> (p < 1 / 2)%R)).
Proof.
  intros Hsc.
  exists (1 / (1 + Rpower 10 ((rb - ra) / sc)))%R,
         (1 / (1 + Rpower 10 ((ra - rb) / sc)))%R.
  split; [apply logistic_prob_Some, Hsc|].
  split; [apply logistic_prob_Some, Hsc|].
  split; [apply expected_range|].
  split.
  - replace ((ra - rb) / sc)%R with (- ((rb - ra) / sc))%R
      by (field; exact Hsc).
    rewrite Rpower_Ropp.
    pose proof (Rpower_10_pos ((rb - ra) / sc)) as HP.
    field. split; lra.
  - intros Hpos. rewrite expected_below_half.
    split; intros H.
    + apply Rdiv_lt_0_compat; lra.
    + apply (Rmult_lt_compat_r sc) in H; [|exact Hpos].
      unfold Rdiv in H. rewrite Rmult_assoc, Rinv_l in H by exact Hsc. lra.
Qed.

(** X26: the size and the direction of an update, in the exact arithmetic
    of the embedding.  When the loop body completes on a rated row with a
    non-negative effective sensitivity K * m, neither rating moves by more
    than K * m; the winner's rating does not fall and the loser's does not
    rise; and in a draw, with a positive scale, whichever competitor is
    rated at least as high as the other does not gain and the other does
    not lose. *)
Theorem rating_change_is_bounded
    (cfg : EloConfig) (st : state) (r : row) (s_a s_b : R) (st' : state) :
  outcome_scores (py_str (winner_label r)) = Some (s_a, s_b) ->
  (0 <= K cfg * default 1%R (method_multiplier r))%R ->
  step cfg st r = Some st' ->
  exists rec,
    history_rows st' = history_rows st ++ [rec]
    /\ K_eff rec = (K cfg * default 1%R (method_multiplier r))%R
    /\ (Rabs (post_rating_a rec - pre_rating_a rec) <= K_eff rec)%R
    /\ (Rabs (post_rating_b rec - pre_rating_b rec) <= K_eff rec)%R
    /\ (s_a = 1%R ->
        (pre_rating_a rec <= post_rating_a rec)%R
        /\ (post_rating_b rec <= pre_rating_b rec)%R)
    /\ (s_b = 1%R ->
        (post_rating_a rec <= pre_rating_a rec)%R
        /\ (pre_rating_b rec <= post_rating_b rec)%R)
    /\ (s_a = 0.5%R -> (0 < scale cfg)%R ->
        ((pre_rating_b rec <= pre_rating_a rec)%R ->
         (post_rating_a rec <= pre_rating_a rec)%R
         /\ (pre_rating_b rec <= post_rating_b rec)%R)
        /\ ((pre_rating_a rec <= pre_rating_b rec)%R ->
            (pre_rating_a rec <= post_rating_a rec)%R
            /\ (post_rating_b rec <= pre_rating_b rec)%R)).
Proof.
  intros Hout Hk Hstep.
  assert (Hrated : rated r) by (unfold rated; rewrite Hout; discriminate).
  pose proof (step_rated_scale _ _ _ _ Hstep Hrated) as Hsc.
  rewrite (step_rated_eq _ _ _ _ _ Hsc Hout) in Hstep. injection Hstep as <-.
  exists (audit_of cfg st r s_a s_b).
  split; [reflexivity|].
  cbn [audit_of K_eff post_rating_a post_rating_b pre_rating_a pre_rating_b].
  set (ra := rating_of cfg st (fid_of r side_a)).
  set (rb := rating_of cfg st (fid_of r side_b)).
  set (k := (K cfg * default 1%R (method_multiplier r))%R) in *.
  pose proof (expected_range ((rb - ra) / scale cfg)) as Hp.
  pose proof (expected_below_half ((rb - ra) / scale cfg)) as Hhalf.
  pose proof (expected_below_half ((ra - rb) / scale cfg)) as Hhalf'.
  assert (Hcompl : (1 / (1 + Rpower 10 ((ra - rb) / scale cfg))
                    = 1 - 1 / (1 + Rpower 10 ((rb - ra) / scale cfg)))%R).
  { replace ((ra - rb) / scale cfg)%R with (- ((rb - ra) / scale cfg))%R
      by (field; exact Hsc).
    rewrite Rpower_Ropp.
    pose proof (Rpower_10_pos ((rb - ra) / scale cfg)) as HP.
    field. split; lra. }
  rewrite Hcompl in Hhalf'.
  set (p := (1 / (1 + Rpower 10 ((rb - ra) / scale cfg)))%R) in *.
  assert (Hs : ((s_a = 1 /\ s_b = 0) \/ (s_a = 0 /\ s_b = 1)
                \/ (s_a = 0.5 /\ s_b = 0.5))%R).
  { destruct (outcome_scores_label _ _ _ Hout)
      as [(_ & -> & ->)|[(_ & -> & ->)|(_ & -> & ->)]]; auto. }
  split; [reflexivity|].
  split; [|split; [|split; [|split]]].
  - apply Rabs_le.
    destruct Hs as [ [-> ->] | [ [-> ->] | [-> ->] ] ]; split; nra.
  - apply Rabs_le.
    destruct Hs as [ [-> ->] | [ [-> ->] | [-> ->] ] ]; split; nra.
  - intros Ha. destruct Hs as [ [_ ->] | [ [-> _] | [-> _] ] ]; [|lra|lra].
    subst s_a. split; nra.
  - intros Hb. destruct Hs as [ [_ ->] | [ [-> _] | [_ ->] ] ]; [lra| |lra].
    subst s_b. split; nra.
  - intros Ha Hpos.
    destruct Hs as [ [-> _] | [ [-> _] | [_ ->] ] ]; [lra|lra|]. subst s_a.
    assert (Hdiv : forall x, (0 < x / scale cfg)%R -> (0 < x)%R).
    { intros x H. apply (Rmult_lt_compat_r (scale cfg)) in H; [|exact Hpos].
      unfold Rdiv in H. rewrite Rmult_assoc, Rinv_l in H by exact Hsc. lra. }
    split; intros Hge.
    + assert (Hge' : (1 / 2 <= p)%R).
      { destruct (Rle_or_lt (1 / 2) p) as [H|H]; [exact H|].
        exfalso. apply Hhalf, Hdiv in H. lra. }
      split; nra.
    + assert (Hle' : (p <= 1 / 2)%R).
      { destruct (Rle_or_lt p (1 / 2)) as [H|H]; [exact H|].
        exfalso. assert (H' : (1 - p < 1 / 2)%R) by lra.
        apply Hhalf', Hdiv in H'. lra. }
      split; nra.
Qed.

(* ===================================================================== *)
(** * The further theorems at concrete inputs *)
(* ===================================================================== *)

(** X1 on a finish and a no-contest. *)
Lemma ledger_follows_rated_rows_witness :
  exists hist snap,
    run_elo default_config [ko_row; nc_row] = Some (hist, snap)
    /\ map audit_key hist
       = map row_key (List.filter is_rated (sort_by row_leb [ko_row; nc_row])).
Proof.
  destruct (run_elo_completes default_config [ko_row; nc_row])
    as (hist & snap & Hrun).
  - simpl. lra.
  - exists ko_row. split; [left; reflexivity|exact ko_row_rated].
  - exists hist, snap. split; [exact Hrun|].
    apply (ledger_follows_rated_rows default_config [ko_row; nc_row]
             hist snap Hrun).
Defined.

(** X2 on a finish and a drawn rematch. *)
Lemma ledger_accounts_for_ratings_witness :
  exists st,
    process default_config init_state [ko_row; draw_rematch] = Some st
    /\ (forall fid,
          rating_of default_config st fid
          = default (base_rating default_config)
              (last_post (history_rows st) fid))
    /\ (forall n rec,
          history_rows st !! n = Some rec ->
          pre_rating_a rec
          = default (base_rating default_config)
              (last_post (take n (history_rows st)) (fighter_a_id rec))
          /\ pre_rating_b rec
             = default (base_rating default_config)
                 (last_post (take n (history_rows st)) (fighter_b_id rec))).
Proof.
  destruct (process_total default_config [ko_row; draw_rematch] init_state)
    as [st Hst].
  - simpl. lra.
  - exists st. split; [exact Hst|].
    apply (ledger_accounts_for_ratings default_config [ko_row; draw_rematch]
             st Hst).
Defined.

(** X3 on a finish and a drawn rematch. *)
Lemma counters_are_ledger_tallies_witness :
  exists st,
    process default_config init_state [ko_row; draw_rematch] = Some st
    /\ forall fid,
         count (fights_ct st) fid = fights_in (history_rows st) fid
         /\ count (wins_ct st) fid = wins_in (history_rows st) fid
         /\ count (losses_ct st) fid = losses_in (history_rows st) fid
         /\ count (draws_ct st) fid = draws_in (history_rows st) fid.
Proof.
  destruct (process_total default_config [ko_row; draw_rematch] init_state)
    as [st Hst].
  - simpl. lra.
  - exists st. split; [exact Hst|].
    apply (counters_are_ledger_tallies default_config [ko_row; draw_rematch]
             st Hst).
Defined.

(** X4 on a finish and a draw between two other competitors. *)
Lemma total_rating_is_conserved_witness :
  exists hist snap,
    run_elo default_config [ko_row; zed_amy_draw] = Some (hist, snap)
    /\ Rsum (map s_rating snap)
       = (base_rating default_config * INR (length snap))%R.
Proof.
  destruct (run_elo_completes default_config [ko_row; zed_amy_draw])
    as (hist & snap & Hrun).
  - simpl. lra.
  - exists ko_row. split; [left; reflexivity|exact ko_row_rated].
  - exists hist, snap. split; [exact Hrun|].
    apply (total_rating_is_conserved default_config [ko_row; zed_amy_draw]
             hist snap Hrun).
    intros r [<-|[<-|[]]] _ H;
      apply (f_equal (fun s => nth 0%nat s 0%N)) in H;
      vm_compute in H; discriminate H.
Defined.

(** X5 on a finish and a drawn rematch. *)
Lemma first_and_last_dates_bracket_the_ledger_witness :
  exists st,
    process default_config init_state [ko_row; draw_rematch] = Some st
    /\ forall fid h d,
         In h (history_rows st) -> involves fid h = true ->
         h_DATE h = Some d ->
         exists f l,
           first_date st !! fid = Some (Some f)
           /\ last_date st !! fid = Some (Some l)
           /\ (f <= d <= l)%Z
           /\ (exists h1, In h1 (history_rows st) /\ involves fid h1 = true
                          /\ h_DATE h1 = Some f)
           /\ (exists h2, In h2 (history_rows st) /\ involves fid h2 = true
                          /\ h_DATE h2 = Some l).
Proof.
  destruct (process_total default_config [ko_row; draw_rematch] init_state)
    as [st Hst].
  - simpl. lra.
  - exists st. split; [exact Hst|].
    apply (first_and_last_dates_bracket_the_ledger default_config
             [ko_row; draw_rematch] st Hst).
Defined.

(** X6 on a rematch given before the first bout. *)
Lemma ledger_is_chronological_witness :
  exists hist snap,
    run_elo default_config [draw_rematch; ko_row] = Some (hist, snap)
    /\ StronglySorted date_le (map h_DATE hist).
Proof.
  destruct (run_elo_completes default_config [draw_rematch; ko_row])
    as (hist & snap & Hrun).
  - simpl. lra.
  - exists ko_row. split; [right; left; reflexivity|exact ko_row_rated].
  - exists hist, snap. split; [exact Hrun|].
    apply (ledger_is_chronological default_config [draw_rematch; ko_row]
             hist snap Hrun).
Defined.

(** X8 on a bout and its rematch, in both orders. *)
Lemma run_elo_independent_of_input_order_witness :
  run_elo default_config [ko_row; draw_rematch]
  = run_elo default_config [draw_rematch; ko_row].
Proof.
  apply (run_elo_independent_of_input_order default_config
           [ko_row; draw_rematch] [draw_rematch; ko_row]).
  - apply perm_swap.
  - intros x y [<-|[<-|[]]] [<-|[<-|[]]] Hd _ _;
      try reflexivity; discriminate Hd.
Defined.


(** X11 on "KO/TKO" written in two ways. *)
Lemma classify_row_case_and_space_insensitive_witness :
  classify_row 1.2%R 1.1%R 1%R
    {| b_winner_label := Some (lit "A"); b_METHOD := Some (lit "KO/TKO");
       b_DETAILS := None |}
  = classify_row 1.2%R 1.1%R 1%R
      {| b_winner_label := Some (lit " a "); b_METHOD := Some (lit " ko/tko");
         b_DETAILS := Some [] |}.
Proof.
  apply (classify_row_case_and_space_insensitive 1.2%R 1.1%R 1%R
           {| b_winner_label := Some (lit "A"); b_METHOD := Some (lit "KO/TKO");
              b_DETAILS := None |}
           {| b_winner_label := Some (lit " a "); b_METHOD := Some (lit " ko/tko");
              b_DETAILS := Some [] |}).
  - vm_compute. reflexivity.
  - vm_compute. reflexivity.
  - vm_compute. reflexivity.
Defined.

(** X13 on a unanimous decision. *)
Lemma classify_row_category_witness :
  let outcome := lower (normalize_text (b_winner_label unanimous_wide)) in
  let m := lower (normalize_text (b_METHOD unanimous_wide)) in
  let c := category_of (classify_row 1.2%R 1.1%R 1%R unanimous_wide) in
  (c = draw <-> outcome = lit "draw")
  /\ (c = nc <-> outcome <> lit "draw" /\ outcome = lit "nc")
  /\ (c = finish <->
      outcome <> lit "draw" /\ outcome <> lit "nc"
      /\ any_token_in m = true /\ contains (lit "decision") m = false)
  /\ (c = decision_dominant \/ c = decision_normal <->
      outcome <> lit "draw" /\ outcome <> lit "nc"
      /\ contains (lit "decision") m = true)
  /\ (c = other <->
      outcome <> lit "draw" /\ outcome <> lit "nc"
      /\ any_token_in m = false /\ contains (lit "decision") m = false).
Proof.
  apply (classify_row_category 1.2%R 1.1%R 1%R unanimous_wide).
  - vm_compute. repeat constructor.
  - vm_compute. repeat constructor.
Defined.

(** X14 on the cards 47 - 48, 49 - 46 and 47 - 48, separated by commas. *)
Lemma scorecards_round_trip_witness :
  parse_scorecard_margins
    (Some (join [44%N]
             (map render_card [(47, 48); (49, 46); (47, 48)]%Z)))
  = map (fun ab => Z.abs (fst ab - snd ab)) [(47, 48); (49, 46); (47, 48)]%Z.
Proof.
  apply (scorecards_round_trip [(47, 48); (49, 46); (47, 48)]%Z 44%N).
  - discriminate.
  - reflexivity.
  - reflexivity.
  - repeat constructor; simpl; lia.
  - repeat constructor; apply Nat.leb_le; vm_compute; reflexivity.
Defined.

(** X15 on a time format without round count. *)
Lemma scheduled_rounds_default_witness :
  scheduled_rounds_from_timefmt (Some (lit "No Time Limit")) = 3%Z.
Proof.
  apply (scheduled_rounds_default (Some (lit "No Time Limit"))).
  right. exists (lit "No Time Limit"). split; [reflexivity|].
  vm_compute. reflexivity.
Defined.

(** X16 on "5 Rnd (5-5-5-5-5)". *)
Lemma scheduled_rounds_reads_the_count_witness :
  scheduled_rounds_from_timefmt
    (Some ([] ++ str_of_int 5 ++ [32%N] ++ lit "Rnd" ++ lit " (5-5-5-5-5)"))
  = 5%Z.
Proof.
  apply (scheduled_rounds_reads_the_count [] [32%N] (lit " (5-5-5-5-5)") 5).
  - lia.
  - apply Nat.leb_le. vm_compute. reflexivity.
  - constructor.
  - constructor.
  - repeat constructor.
Defined.

(** X20 on a finish and a drawn rematch. *)
Lemma peak_table_matches_snapshot_witness :
  exists hist snap,
    run_elo default_config [ko_row; draw_rematch] = Some (hist, snap)
    /\ let peaks := compute_peak (build_long_from_history hist) in
       Permutation (map k_fighter_id peaks) (map s_fighter_id snap)
       /\ forall p x, In p peaks -> In x snap ->
            k_fighter_id p = s_fighter_id x ->
            (s_rating x <= peak_rating p)%R.
Proof.
  destruct (run_elo_completes default_config [ko_row; draw_rematch])
    as (hist & snap & Hrun).
  - simpl. lra.
  - exists ko_row. split; [left; reflexivity|exact ko_row_rated].
  - exists hist, snap. split; [exact Hrun|].
    apply (peak_table_matches_snapshot default_config [ko_row; draw_rematch]
             hist snap Hrun).
Defined.

(** X21 on "Decision - Unanimous", where the two readings agree. *)
Lemma decision_types_agree_witness :
  step1_of (method_decision_type (Some (lit "Decision - Unanimous")))
  = decision_type_from_method (Some (lit "Decision - Unanimous"))
  <-> ~ (contains (lit "unanimous") (lower (lit "Decision - Unanimous")) = true
         /\ (contains (lit "split") (lower (lit "Decision - Unanimous")) = true
             \/ contains (lit "majority") (lower (lit "Decision - Unanimous"))
                = true)).
Proof.
  apply (decision_types_agree (lit "Decision - Unanimous")).
  vm_compute. reflexivity.
Defined.

(** X22 on the outcome text " w/l " of a knockout. *)
Lemma outcome_label_is_understood_witness :
  let o := remove_spaces (upper (strip (lit " w/l "))) in
  let w := parse_outcome_label (Some (lit " w/l ")) in
  let c := category_of
             (classify_row 1.2%R 1.1%R 1%R
                {| b_winner_label := Some w; b_METHOD := Some (lit "KO/TKO");
                   b_DETAILS := None |}) in
  outcome_scores w =
    (if contains (lit "W/L") o then Some (1, 0)%R
     else if contains (lit "L/W") o then Some (0, 1)%R
     else if contains (lit "D/D") o || contains (lit "DRAW") o
          then Some (0.5, 0.5)%R
     else None)
  /\ (c = draw <-> w = lit "draw")
  /\ (c = nc <-> w = lit "nc").
Proof.
  apply (outcome_label_is_understood 1.2%R 1.1%R 1%R
           (Some (lit " w/l ")) (Some (lit "KO/TKO")) None).
  vm_compute. repeat constructor.
Defined.

(** X23 on "Jon Jones  VS.  Daniel Cormier". *)
Lemma split_bout_round_trip_witness :
  split_bout
    (Some (lit "Jon Jones" ++ [32%N; 32%N] ++ lit "VS." ++ [32%N; 32%N]
           ++ lit "Daniel Cormier"))
  = (lit "Jon Jones", lit "Daniel Cormier").
Proof.
  apply (split_bout_round_trip (lit "Jon Jones") (lit "Daniel Cormier")
           (lit "VS.") [32%N; 32%N] [32%N; 32%N]).
  - vm_compute. discriminate.
  - vm_compute. reflexivity.
  - vm_compute. discriminate.
  - vm_compute. reflexivity.
  - left. vm_compute. reflexivity.
  - discriminate.
  - repeat constructor.
  - discriminate.
  - repeat constructor.
  - vm_compute. reflexivity.
  - vm_compute. reflexivity.
Defined.

(** X24 on a label with one name only. *)
Lemma split_bout_without_separator_witness :
  split_bout (Some (lit " Jon   Jones "))
  = (normalize_name (Some (lit " Jon   Jones ")), []).
Proof.
  apply (split_bout_without_separator (lit " Jon   Jones ")).
  vm_compute. reflexivity.
Defined.

(** X25 under the default scale, for ratings 1500 and 1600. *)
Lemma logistic_prob_properties_witness :
  exists p q,
    logistic_prob 1500 1600 350 = Some p
    /\ logistic_prob 1600 1500 350 = Some q
    /\ (0 < p < 1)%R
    /\ (p + q = 1)%R
    /\ ((0 < 350)%R -> ((1500 < 1600)%R <-> (p < 1 / 2)%R)).
Proof.
  apply (logistic_prob_properties 1500 1600 350). lra.
Defined.

(** X26 on the finish of [ko_row], from the empty store. *)
Lemma rating_change_is_bounded_witness :
  exists rec,
    history_rows (rated_step default_config init_state ko_row 1 0)
    = history_rows init_state ++ [rec]
    /\ K_eff rec
       = (K default_config * default 1%R (method_multiplier ko_row))%R
    /\ (Rabs (post_rating_a rec - pre_rating_a rec) <= K_eff rec)%R
    /\ (Rabs (post_rating_b rec - pre_rating_b rec) <= K_eff rec)%R
    /\ (1%R = 1%R ->
        (pre_rating_a rec <= post_rating_a rec)%R
        /\ (post_rating_b rec <= pre_rating_b rec)%R)
    /\ (0%R = 1%R ->
        (post_rating_a rec <= pre_rating_a rec)%R
        /\ (pre_rating_b rec <= post_rating_b rec)%R)
    /\ (1%R = 0.5%R -> (0 < scale default_config)%R ->
        ((pre_rating_b rec <= pre_rating_a rec)%R ->
         (post_rating_a rec <= pre_rating_a rec)%R
         /\ (pre_rating_b rec <= post_rating_b rec)%R)
        /\ ((pre_rating_a rec <= pre_rating_b rec)%R ->
            (pre_rating_a rec <= post_rating_a rec)%R
            /\ (post_rating_b rec <= pre_rating_b rec)%R)).
Proof.
  apply (rating_change_is_bounded default_config init_state ko_row 1%R 0%R
           (rated_step default_config init_state ko_row 1 0)).
  - reflexivity.
  - simpl. lra.
  - apply step_rated_eq; [simpl; lra|reflexivity].
Defined.

(** X27 on a single no-contest. *)
Lemma run_elo_nothing_rated_witness :
  run_elo default_config [nc_row] = None.
Proof.
  apply (run_elo_nothing_rated default_config [nc_row]).
  intros r [<-|[]]. unfold rated.
  change (outcome_scores (py_str (winner_label nc_row))) with (@None (R * R)).
  intros H. apply H. reflexivity.
Defined.
